(** * ght: Get HTML Title -- a shallow embedding of [main.go]

    The program parses its command line, resolves one URL, fetches the
    page, extracts the text of the [<title>] element, prints it (optionally
    as a Markdown link) and optionally pipes it to a clipboard helper.

    Go strings are byte sequences: they are modelled as [list byte].  The
    functions of the Go standard library that [main.go] calls are modelled
    in modules named after their packages ([utf8], [unicode], [strings],
    [html], [regexp], [io]); the outside world (HTTP server, executables
    on the search path) is a record of oracles, and everything the program
    does to the outside is logged as a trace of events. *)

From Stdlib Require Import Strings.Byte Strings.String.
From Stdlib Require Import List ZArith Lia Bool ZifyBool.
Import ListNotations.
Open Scope Z_scope.

(** ** Go strings *)

Abbreviation gostring := (list byte).

(** A string literal of the source, as its UTF-8 bytes. *)
Definition lit (s : string) : gostring := list_byte_of_string s.

(** The numeric value of a byte. *)
Definition code (b : byte) : Z := Z.of_N (Byte.to_N b).

(** The byte of a value in [0, 256); Go's [byte(x)] truncates. *)
Definition byte_of (x : Z) : byte :=
  match Byte.of_N (Z.to_N (x mod 256)) with
  | Some b => b
  | None => x00
  end.

(** Go's [rune] is an [int32]: arithmetic wraps around. *)
Definition int32 (x : Z) : Z := (x + 2147483648) mod 4294967296 - 2147483648.

(** Go's [error] values are used by the program only through their
    message, so an error is its message. *)
Definition error := gostring.

(** ** Package unicode/utf8 *)

Module utf8.

Definition RuneError : Z := 65533.
Definition RuneSelf : Z := 128.
Definition MaxRune : Z := 1114111.

Definition in_range (lo hi : Z) (b : byte) : bool :=
  (lo <=? code b) && (code b <=? hi).

(** Continuation byte payload. *)
Definition low6 (b : byte) : Z := Z.land (code b) 63.

(** [utf8.DecodeRuneInString]: the first rune of [p] and its width in
    bytes.  Ill-formed input (a stray continuation byte, an over-long or
    surrogate encoding, a truncated sequence) decodes as [RuneError] of
    width 1; the empty string as [RuneError] of width 0. *)
Definition DecodeRune (p : gostring) : Z * nat :=
  match p with
  | [] => (RuneError, 0%nat)
  | b0 :: t =>
    let p0 := code b0 in
    if p0 <? 128 then (p0, 1%nat)
    else if p0 <? 194 then (RuneError, 1%nat)
    else if p0 <? 224 then
      match t with
      | b1 :: _ =>
        if in_range 128 191 b1
        then (Z.lor (Z.shiftl (Z.land p0 31) 6) (low6 b1), 2%nat)
        else (RuneError, 1%nat)
      | _ => (RuneError, 1%nat)
      end
    else if p0 <? 240 then
      match t with
      | b1 :: b2 :: _ =>
        let lo := if p0 =? 224 then 160 else 128 in
        let hi := if p0 =? 237 then 159 else 191 in
        if in_range lo hi b1 && in_range 128 191 b2
        then (Z.lor (Z.lor (Z.shiftl (Z.land p0 15) 12)
                           (Z.shiftl (low6 b1) 6)) (low6 b2), 3%nat)
        else (RuneError, 1%nat)
      | _ => (RuneError, 1%nat)
      end
    else if p0 <? 245 then
      match t with
      | b1 :: b2 :: b3 :: _ =>
        let lo := if p0 =? 240 then 144 else 128 in
        let hi := if p0 =? 244 then 143 else 191 in
        if in_range lo hi b1 && in_range 128 191 b2 && in_range 128 191 b3
        then (Z.lor (Z.lor (Z.lor (Z.shiftl (Z.land p0 7) 18)
                                  (Z.shiftl (low6 b1) 12))
                           (Z.shiftl (low6 b2) 6)) (low6 b3), 4%nat)
        else (RuneError, 1%nat)
      | _ => (RuneError, 1%nat)
      end
    else (RuneError, 1%nat)
  end.

Definition enc3 (r : Z) : gostring :=
  [ byte_of (Z.lor 224 (Z.shiftr r 12));
    byte_of (Z.lor 128 (Z.land (Z.shiftr r 6) 63));
    byte_of (Z.lor 128 (Z.land r 63)) ].

(** [utf8.EncodeRune] (the bytes written); a rune out of range or a
    surrogate is written as [RuneError]. *)
Definition EncodeRune (r : Z) : gostring :=
  if (0 <=? r) && (r <=? 127) then [byte_of r]
  else if (0 <=? r) && (r <=? 2047) then
    [ byte_of (Z.lor 192 (Z.shiftr r 6));
      byte_of (Z.lor 128 (Z.land r 63)) ]
  else if (r <? 0) || (MaxRune <? r) || ((55296 <=? r) && (r <=? 57343))
  then enc3 RuneError
  else if r <=? 65535 then enc3 r
  else
    [ byte_of (Z.lor 240 (Z.shiftr r 18));
      byte_of (Z.lor 128 (Z.land (Z.shiftr r 12) 63));
      byte_of (Z.lor 128 (Z.land (Z.shiftr r 6) 63));
      byte_of (Z.lor 128 (Z.land r 63)) ].

(** What [for _, r := range s] iterates over: the runes of [s] from left
    to right, each with the bytes it was decoded from.  [fuel] bounds
    the number of runes; [length s] is always enough. *)
Fixpoint runes_fuel (fuel : nat) (s : gostring) : list (Z * gostring) :=
  match fuel with
  | O => []
  | S fuel' =>
    match s with
    | [] => []
    | _ :: _ =>
      let '(r, n) := DecodeRune s in
      (r, firstn n s) :: runes_fuel fuel' (skipn n s)
    end
  end.

Definition runes (s : gostring) : list (Z * gostring) :=
  runes_fuel (length s) s.

End utf8.

(** ** Package unicode *)

Module unicode.

(** [unicode.IsSpace]: the Latin-1 spaces, then the rest of the
    White_Space property. *)
Definition IsSpace (r : Z) : bool :=
  if (0 <=? r) && (r <=? 255) then
    ((9 <=? r) && (r <=? 13)) || (r =? 32) || (r =? 133) || (r =? 160)
  else
    (r =? 5760) || ((8192 <=? r) && (r <=? 8202)) || (r =? 8232)
    || (r =? 8233) || (r =? 8239) || (r =? 8287) || (r =? 12288).

End unicode.

(** ** Package strings *)

Module strings.

Fixpoint eqb (a b : gostring) : bool :=
  match a, b with
  | [], [] => true
  | x :: a', y :: b' => Byte.eqb x y && eqb a' b'
  | _, _ => false
  end.

(** [strings.HasPrefix s prefix]. *)
Fixpoint HasPrefix (s prefix : gostring) {struct prefix} : bool :=
  match prefix with
  | [] => true
  | p :: prefix' =>
    match s with
    | [] => false
    | c :: s' => Byte.eqb c p && HasPrefix s' prefix'
    end
  end.

(** [strings.TrimPrefix s prefix]. *)
Definition TrimPrefix (s prefix : gostring) : gostring :=
  if HasPrefix s prefix then skipn (length prefix) s else s.

(** [strings.TrimLeftFunc s unicode.IsSpace], on the decoded runes. *)
Fixpoint trimLeft (rs : list (Z * gostring)) : list (Z * gostring) :=
  match rs with
  | [] => []
  | (r, bs) :: rs' => if unicode.IsSpace r then trimLeft rs' else rs
  end.

Definition bytes_of (rs : list (Z * gostring)) : gostring :=
  concat (map snd rs).

(** [strings.TrimRightFunc s unicode.IsSpace], on the decoded runes. *)
Fixpoint trimRight (rs : list (Z * gostring)) : list (Z * gostring) :=
  match rs with
  | [] => []
  | (r, bs) :: rs' =>
    match trimRight rs' with
    | [] => if unicode.IsSpace r then [] else [(r, bs)]
    | kept => (r, bs) :: kept
    end
  end.

(** [strings.TrimSpace]: leading and trailing white space removed.  The
    runes are those of the left-to-right decoding (Go reads the right end
    backwards, which on well-formed UTF-8 gives the same runes); the
    program only compares the result with the empty string. *)
Definition TrimSpace (s : gostring) : gostring :=
  bytes_of (trimRight (trimLeft (utf8.runes s))).

(** [strings.Fields] is [strings.FieldsFunc s unicode.IsSpace] (its
    ASCII fast path computes the same): the maximal runs of non-space
    runes.  [cur] is the field being read, [None] between fields (the
    [start < 0] of the source). *)
Fixpoint fieldsFrom (cur : option gostring) (rs : list (Z * gostring))
  : list gostring :=
  match rs with
  | [] => match cur with Some w => [w] | None => [] end
  | (r, bs) :: rs' =>
    if unicode.IsSpace r then
      match cur with
      | Some w => w :: fieldsFrom None rs'
      | None => fieldsFrom None rs'
      end
    else
      match cur with
      | Some w => fieldsFrom (Some (w ++ bs)) rs'
      | None => fieldsFrom (Some bs) rs'
      end
  end.

Definition Fields (s : gostring) : list gostring :=
  fieldsFrom None (utf8.runes s).

(** [strings.Join elems sep]. *)
Fixpoint Join (elems : list gostring) (sep : gostring) : gostring :=
  match elems with
  | [] => []
  | [e] => e
  | e :: rest => e ++ sep ++ Join rest sep
  end.

End strings.

(** ** Package html *)

Module html.

(** The tables of [html/entity.go] (some 2200 named character
    references) are not part of this program: they are parameters.  As
    in Go, looking up an absent name gives the zero value.  [entity]
    maps a name (with its semicolon, when it has one) to one rune,
    [entity2] to two. *)
Record Tables := {
  entity : gostring -> Z;
  entity2 : gostring -> Z * Z
}.

Definition longestEntityWithoutSemicolon : nat := 6.

(** Replacements for the C1 controls, read as Windows-1252. *)
Definition replacementTable : list Z :=
  [ 8364; 129; 8218; 402; 8222; 8230; 8224; 8225;
    710; 8240; 352; 8249; 338; 141; 381; 143;
    144; 8216; 8217; 8220; 8221; 8226; 8211; 8212;
    732; 8482; 353; 8250; 339; 157; 382; 376 ].

Definition isDigit (c : byte) : bool := (48 <=? code c) && (code c <=? 57).
Definition isLowerHex (c : byte) : bool := (97 <=? code c) && (code c <=? 102).
Definition isUpperHex (c : byte) : bool := (65 <=? code c) && (code c <=? 70).
Definition isAlnum (c : byte) : bool :=
  ((97 <=? code c) && (code c <=? 122))
  || ((65 <=? code c) && (code c <=? 90))
  || isDigit c.

(** The digit loop of a numeric reference: the value read (an [int32],
    wrapping around) and the number of bytes consumed, a closing
    semicolon included. *)
Fixpoint scanNumber (hex : bool) (x : Z) (s : gostring) : Z * nat :=
  match s with
  | [] => (x, O)
  | c :: s' =>
    if hex && isDigit c then
      let '(x', n) := scanNumber hex (int32 (16 * x + code c - 48)) s' in (x', S n)
    else if hex && isLowerHex c then
      let '(x', n) := scanNumber hex (int32 (16 * x + code c - 97 + 10)) s' in (x', S n)
    else if hex && isUpperHex c then
      let '(x', n) := scanNumber hex (int32 (16 * x + code c - 65 + 10)) s' in (x', S n)
    else if negb hex && isDigit c then
      let '(x', n) := scanNumber hex (int32 (10 * x + code c - 48)) s' in (x', S n)
    else if Byte.eqb c ";"%byte then (x, 1%nat)
    else (x, O)
  end.

(** The name loop of a named reference: the number of bytes consumed,
    a closing semicolon included. *)
Fixpoint scanName (s : gostring) : nat :=
  match s with
  | [] => O
  | c :: s' =>
    if isAlnum c then S (scanName s')
    else if Byte.eqb c ";"%byte then 1%nat
    else O
  end.

(** [for j := maxLen; j > 1; j--]: the longest proper prefix of the name
    that is a reference without semicolon. *)
Fixpoint longestPrefix (T : Tables) (name : gostring) (j : nat)
  : option (Z * nat) :=
  match j with
  | O => None
  | S j' =>
    if (j <=? 1)%nat then None
    else if entity T (firstn j name) =? 0 then longestPrefix T name j'
    else Some (entity T (firstn j name), j)
  end.

(** [unescapeEntity], called on [s = b[src:]] with [s[0] = '&']: the
    bytes written to [b[dst:]] and the number of bytes of [s] consumed.
    (The source rewrites [b] in place, its write cursor never ahead of
    its read cursor: in Go's tables no replacement is longer than its
    reference.  The model takes that for granted and keeps the output
    apart from the input.) *)
Definition unescapeEntity (T : Tables) (s : gostring) : gostring * nat :=
  let literal := (firstn 1 s, 1%nat) in
  if (length s <=? 1)%nat then literal
  else if Byte.eqb (nth 1 s x00) "#"%byte then
    if (length s <=? 3)%nat then literal
    else
      let c := nth 2 s x00 in
      let hex := Byte.eqb c "x"%byte || Byte.eqb c "X"%byte in
      let i0 := if hex then 3%nat else 2%nat in
      let '(x, n) := scanNumber hex 0 (skipn i0 s) in
      let i := (i0 + n)%nat in
      if (i <=? 3)%nat then literal
      else
        let x :=
          if (128 <=? x) && (x <=? 159)
          then nth (Z.to_nat (x - 128)) replacementTable 0
          else if (x =? 0) || ((55296 <=? x) && (x <=? 57343)) || (1114111 <? x)
          then 65533
          else x in
        (utf8.EncodeRune x, i)
  else
    let i := S (scanName (skipn 1 s)) in
    let entityName := skipn 1 (firstn i s) in
    let copy := (firstn i s, i) in
    if (length entityName =? 0)%nat then copy
    else if negb (entity T entityName =? 0)
    then (utf8.EncodeRune (entity T entityName), i)
    else if negb (fst (entity2 T entityName) =? 0)
    then (utf8.EncodeRune (fst (entity2 T entityName))
            ++ utf8.EncodeRune (snd (entity2 T entityName)), i)
    else
      let maxLen := Nat.min (length entityName - 1) longestEntityWithoutSemicolon in
      match longestPrefix T entityName maxLen with
      | Some (x, j) => (utf8.EncodeRune x, S j)
      | None => copy
      end.

(** The loop of [html.UnescapeString]: text up to the next ['&'] is
    copied, a reference is replaced.  [fuel] bounds the number of bytes
    read; [length s] is always enough. *)
Fixpoint unescapeFrom (T : Tables) (fuel : nat) (s : gostring) : gostring :=
  match s with
  | [] => []
  | c :: s' =>
    match fuel with
    | O => s
    | S fuel' =>
      if Byte.eqb c "&"%byte then
        let '(out, n) := unescapeEntity T s in
        out ++ unescapeFrom T fuel' (skipn n s)
      else c :: unescapeFrom T fuel' s'
    end
  end.

Definition UnescapeString (T : Tables) (s : gostring) : gostring :=
  unescapeFrom T (length s) s.

End html.

(** ** Package regexp: the pattern of the program *)

Module regexp.

(** The pattern [(?is)<title[^>]*>(.*?)</title>] uses three kinds of
    atoms.  The matcher works on bytes: the literals and the excluded
    ['>'] are ASCII, and a byte below 128 is always a rune of its own, so
    matching byte by byte and rune by rune agree. *)
Inductive atom :=
| Chr (c : byte)          (* a literal, folded under the flag [i] *)
| StarNot (c : byte)      (* [[^c]*], greedy *)
| CapLazyAny.             (* [(.*?)]: the capture group; with the flag
                             [s] the dot matches every character *)

(** Simple case folding of an ASCII letter; the letters of the pattern
    have no other fold. *)
Definition lower (b : byte) : byte :=
  if (65 <=? code b) && (code b <=? 90) then byte_of (code b + 32) else b.

Definition fold_eqb (a b : byte) : bool := Byte.eqb (lower a) (lower b).

(** A successful match: the text matched and the text of the group. *)
Definition result := (gostring * option gostring)%type.

(** Backtracking in priority order, which is the leftmost-first rule of
    Go's regexp: a greedy star tries the longer match first, a lazy one
    the shorter.  [k] matches the rest of the pattern. *)
Fixpoint greedyNot (c : byte) (k : gostring -> option result) (s : gostring)
  : option result :=
  match s with
  | b :: s' =>
    if Byte.eqb b c then k s
    else
      match greedyNot c k s' with
      | Some (m, g) => Some (b :: m, g)
      | None => k s
      end
  | [] => k s
  end.

(** The text taken by the lazy star, and the match of the rest. *)
Fixpoint lazyAny (k : gostring -> option result) (s : gostring)
  : option (gostring * result) :=
  match k s with
  | Some r => Some ([], r)
  | None =>
    match s with
    | b :: s' =>
      match lazyAny k s' with
      | Some (cap, r) => Some (b :: cap, r)
      | None => None
      end
    | [] => None
    end
  end.

Fixpoint matchHere (p : list atom) (s : gostring) {struct p} : option result :=
  match p with
  | [] => Some ([], None)
  | Chr c :: k =>
    match s with
    | b :: s' =>
      if fold_eqb b c then
        match matchHere k s' with
        | Some (m, g) => Some (b :: m, g)
        | None => None
        end
      else None
    | [] => None
    end
  | StarNot c :: k => greedyNot c (matchHere k) s
  | CapLazyAny :: k =>
    match lazyAny (matchHere k) s with
    | Some (cap, (m, _)) => Some (cap ++ m, Some cap)
    | None => None
    end
  end.

(** [Regexp.FindSubmatch]: the leftmost match; the slice holds the
    whole match and the text of group 1, and is nil (empty) when the
    pattern matches nowhere. *)
Fixpoint FindSubmatch (p : list atom) (b : gostring) : list gostring :=
  match matchHere p b with
  | Some (m, g) => [m; match g with Some c => c | None => [] end]
  | None =>
    match b with
    | [] => []
    | _ :: b' => FindSubmatch p b'
    end
  end.

End regexp.

(** ** Package io *)

Module io.

(** A reader delivers the bytes of [data] and then reports end of file,
    or the error [fail]. *)
Record Reader := { data : gostring; fail : option error }.

(** The first [n] bytes, [n] counted as the [int64] of the source. *)
Fixpoint take (n : Z) (l : gostring) : gostring :=
  match l with
  | [] => []
  | b :: l' => if n <=? 0 then [] else b :: take (n - 1) l'
  end.

(** Whether [l] holds at least [n] bytes. *)
Fixpoint reaches (n : Z) (l : gostring) : bool :=
  if n <=? 0 then true
  else match l with
       | [] => false
       | _ :: l' => reaches (n - 1) l'
       end.

(** [io.LimitReader r n]: end of file once [n] bytes have been read,
    whatever [r] would deliver next. *)
Definition LimitReader (r : Reader) (n : Z) : Reader :=
  {| data := take n (data r);
     fail := if reaches n (data r) then None else fail r |}.

(** [io.ReadAll]: everything up to the end of file or the first error;
    end of file is not an error. *)
Definition ReadAll (r : Reader) : gostring * option error :=
  (data r, fail r).

End io.

(** ** The outside world *)

(** [net/http]: what the server answers. *)
Record Response := {
  StatusCode : Z;
  Status : gostring;
  Body : io.Reader
}.

(** [os/exec]: how a spawned helper behaves at each step of
    [pipeToCommand]. *)
Record Cmd := {
  StdinPipe : option error;
  Start : option error;
  WriteString : gostring -> option error;
  Close : option error;
  Wait : gostring -> option error
}.

Record World := {
  GOOS : gostring;
  Get : gostring -> Response + error;            (* client.Get *)
  LookPath : gostring -> option error;           (* exec.LookPath *)
  Command : gostring -> list gostring -> Cmd     (* exec.Command *)
}.

(** What the program does to the outside, in order. *)
Inductive event :=
| Stdout (s : gostring)
| Stderr (s : gostring)
| HttpGet (url : gostring)
| BodyClose
| ExecLookPath (name : gostring)
| ExecStart (name : gostring) (args : list gostring)
| ExecWrite (name : gostring) (input : gostring)
| ExecClose (name : gostring)
| ExecWait (name : gostring).

(** A computation logs events and returns a value. *)
Definition M (A : Type) : Type := (list event * A)%type.

Definition ret {A} (a : A) : M A := ([], a).

Definition bind {A B} (m : M A) (k : A -> M B) : M B :=
  let '(t1, a) := m in
  let '(t2, b) := k a in
  (t1 ++ t2, b).

Definition emit (e : event) : M unit := ([e], tt).

Notation "x <- m ;; k" := (bind m (fun x => k))
  (at level 61, m at next level, right associativity).
Notation "m ;;; k" := (bind m (fun _ => k))
  (at level 61, right associativity).

(** ** The program *)

Definition quote : gostring := [x22].
Definition newline : gostring := [x0a].

Definition usageText : gostring :=
  lit "usage: ght [-h|--help] [-u|--url " ++ quote ++ lit "<value>" ++ quote
    ++ lit "] [-m|--markdown] [-c|--copy]" ++ newline
  ++ newline
  ++ lit "           Get HTML Title" ++ newline
  ++ newline
  ++ lit "Arguments:" ++ newline
  ++ newline
  ++ lit "  -h  --help      ヘルプ情報を表示" ++ newline
  ++ lit "  -u  --url       取得するURLを指定" ++ newline
  ++ lit "  -m  --markdown  Markdown形式で出力" ++ newline
  ++ lit "  -c  --copy      クリップボードにコピー" ++ newline.

(** [(?is)<title[^>]*>(.*?)</title>] *)
Definition titlePattern : list regexp.atom :=
  map regexp.Chr (lit "<title")
  ++ [regexp.StarNot ">"%byte; regexp.Chr ">"%byte; regexp.CapLazyAny]
  ++ map regexp.Chr (lit "</title>").

Record stringFlag := { value : gostring; set : bool }.

(** The six results of [parseArgs]. *)
Record parseResult := {
  help : bool;
  markdown : bool;
  copyOut : bool;
  urlArg : stringFlag;
  positional : list gostring;
  err : option error
}.

Definition errMissingValue : error := lit "missing URL value".
Definition errUnknownOption : error := lit "unknown option".

Definition parseFailed (e : error) : parseResult :=
  {| help := false; markdown := false; copyOut := false;
     urlArg := {| value := []; set := false |};
     positional := []; err := Some e |}.

(** The loop of [parseArgs] from [i] on.  [args] is [args[i:]] between
    two arguments, and [args[i+1:]] while [letters], the rest of a
    combination of short options such as [-mc], is being read; the other
    parameters are the variables of the function.

    The source ranges over the runes of the combination; the model reads
    its bytes.  The letters compared are ASCII and no byte of a longer
    rune is, so both stop at the same place with the same error. *)
Fixpoint parseLoop (args : list gostring)
  : gostring -> bool -> bool -> bool -> stringFlag -> list gostring -> parseResult :=
  fix short (letters : gostring) (help markdown copyOut : bool)
            (urlArg : stringFlag) (positional : list gostring) {struct letters}
    : parseResult :=
    match letters with
    | r :: letters' =>
      if Byte.eqb r "h"%byte then short letters' true markdown copyOut urlArg positional
      else if Byte.eqb r "m"%byte then short letters' help true copyOut urlArg positional
      else if Byte.eqb r "c"%byte then short letters' help markdown true urlArg positional
      else if Byte.eqb r "u"%byte then
        match args with
        | [] => parseFailed errMissingValue
        | v :: args' =>
          parseLoop args' letters' help markdown copyOut
                    {| value := v; set := true |} positional
        end
      else parseFailed errUnknownOption
    | [] =>
      match args with
      | [] =>
        {| help := help; markdown := markdown; copyOut := copyOut;
           urlArg := urlArg; positional := positional; err := None |}
      | arg :: rest =>
        if strings.eqb arg (lit "-h") || strings.eqb arg (lit "--help") then
          parseLoop rest [] true markdown copyOut urlArg positional
        else if strings.eqb arg (lit "-m") || strings.eqb arg (lit "--markdown") then
          parseLoop rest [] help true copyOut urlArg positional
        else if strings.eqb arg (lit "-c") || strings.eqb arg (lit "--copy") then
          parseLoop rest [] help markdown true urlArg positional
        else if strings.eqb arg (lit "-u") || strings.eqb arg (lit "--url") then
          match rest with
          | [] => parseFailed errMissingValue
          | v :: rest' =>
            parseLoop rest' [] help markdown copyOut
                      {| value := v; set := true |} positional
          end
        else if strings.HasPrefix arg (lit "--url=") then
          parseLoop rest [] help markdown copyOut
                    {| value := strings.TrimPrefix arg (lit "--url="); set := true |}
                    positional
        else if strings.HasPrefix arg (lit "-u=") then
          parseLoop rest [] help markdown copyOut
                    {| value := strings.TrimPrefix arg (lit "-u="); set := true |}
                    positional
        else if strings.HasPrefix arg (lit "-") && (1 <? length arg)%nat then
          parseLoop rest (skipn 1 arg) help markdown copyOut urlArg positional
        else
          parseLoop rest [] help markdown copyOut urlArg (positional ++ [arg])
      end
    end.

Definition parseArgs (args : list gostring) : parseResult :=
  parseLoop args [] false false false {| value := []; set := false |} [].

Definition errConflict : error :=
  lit "URLは -u/--url か位置引数のどちらか一方で指定してください".
Definition errEmptyURL : error := lit "URLが空です".
Definition errOnlyOneURL : error := lit "URLは1つだけ指定してください".
Definition errURLRequired : error := lit "URLを指定してください".

Definition resolveURL (positional : list gostring) (urlArg : stringFlag)
  : gostring * option error :=
  if set urlArg then
    if (0 <? length positional)%nat then ([], Some errConflict)
    else if strings.eqb (strings.TrimSpace (value urlArg)) [] then ([], Some errEmptyURL)
    else (value urlArg, None)
  else if (length positional =? 1)%nat then
    if strings.eqb (strings.TrimSpace (nth 0 positional [])) [] then ([], Some errEmptyURL)
    else (nth 0 positional [], None)
  else if (1 <? length positional)%nat then ([], Some errOnlyOneURL)
  else ([], Some errURLRequired).

Definition errFetchPrefix : gostring := lit "URLの取得に失敗しました: ".
Definition errHTTPPrefix : gostring := lit "HTTPエラー: ".
Definition errReadPrefix : gostring := lit "レスポンスの読み取りに失敗しました: ".
Definition errTitleNotFound : error := lit "titleタグが見つかりませんでした".
Definition errTitleEmpty : error := lit "titleが空でした".

(** The first statement of [fetchTitle]: the URL that is requested. *)
Definition withScheme (rawURL : gostring) : gostring :=
  if negb (strings.HasPrefix rawURL (lit "http://"))
     && negb (strings.HasPrefix rawURL (lit "https://"))
  then lit "https://" ++ rawURL
  else rawURL.

(** [fetchTitle], after the body has been read: the pattern, the
    entities, the white space. *)
Definition extractTitle (T : html.Tables) (body : gostring)
  : gostring * option error :=
  let match_ := regexp.FindSubmatch titlePattern body in
  if (length match_ <? 2)%nat then ([], Some errTitleNotFound)
  else
    let title := html.UnescapeString T (nth 1 match_ []) in
    let title := strings.Join (strings.Fields title) (lit " ") in
    if strings.eqb title [] then ([], Some errTitleEmpty)
    else (title, None).

Definition fetchTitle (T : html.Tables) (w : World) (rawURL : gostring)
  : M (gostring * option error) :=
  let rawURL := withScheme rawURL in
  emit (HttpGet rawURL) ;;;
  match Get w rawURL with
  | inr e => ret ([], Some (errFetchPrefix ++ e))
  | inl resp =>
    r <- (if (StatusCode resp <? 200) || (300 <=? StatusCode resp)
          then ret ([], Some (errHTTPPrefix ++ Status resp))
          else
            let '(body, e) := io.ReadAll (io.LimitReader (Body resp) (Z.shiftl 2 20)) in
            match e with
            | Some e => ret ([], Some (errReadPrefix ++ e))
            | None => ret (extractTitle T body)
            end) ;;
    emit BodyClose ;;;          (* defer resp.Body.Close() *)
    ret r
  end.

Record clipboardCmd := { name : gostring; args : list gostring }.

Definition clipboardCommands (w : World) : list clipboardCmd :=
  if strings.eqb (GOOS w) (lit "darwin") then
    [ {| name := lit "pbcopy"; args := [] |} ]
  else if strings.eqb (GOOS w) (lit "windows") then
    [ {| name := lit "clip"; args := [] |} ]
  else
    [ {| name := lit "wl-copy"; args := [] |};
      {| name := lit "xclip"; args := [lit "-selection"; lit "clipboard"] |};
      {| name := lit "xsel"; args := [lit "--clipboard"; lit "--input"] |} ].

Definition pipeToCommand (w : World) (input name : gostring) (args : list gostring)
  : M (option error) :=
  emit (ExecLookPath name) ;;;
  match LookPath w name with
  | Some e => ret (Some e)
  | None =>
    let cmd := Command w name args in
    match StdinPipe cmd with
    | Some e => ret (Some e)
    | None =>
      emit (ExecStart name args) ;;;
      match Start cmd with
      | Some e => ret (Some e)
      | None =>
        emit (ExecWrite name input) ;;;
        match WriteString cmd input with
        | Some e =>
          emit (ExecClose name) ;;; emit (ExecWait name) ;;; ret (Some e)
        | None =>
          emit (ExecClose name) ;;;
          match Close cmd with
          | Some e => emit (ExecWait name) ;;; ret (Some e)
          | None => emit (ExecWait name) ;;; ret (Wait cmd input)
          end
        end
      end
    end
  end.

Definition errNoClipboard : error :=
  lit "supported clipboard command not found (pbcopy/xclip/xsel/wl-copy/clip)".

(** The loop of [copyToClipboard] over the candidates. *)
Fixpoint tryCandidates (w : World) (text : gostring) (candidates : list clipboardCmd)
  : M (option error) :=
  match candidates with
  | [] => ret (Some errNoClipboard)
  | cmd :: rest =>
    e <- pipeToCommand w text (name cmd) (args cmd) ;;
    match e with
    | None => ret None
    | Some _ => tryCandidates w text rest
    end
  end.

Definition copyToClipboard (w : World) (text : gostring) : M (option error) :=
  tryCandidates w text (clipboardCommands w).

(** [run]: the events of an invocation and its exit status. *)
Definition run (T : html.Tables) (w : World) (args : list gostring) : M Z :=
  let p := parseArgs args in
  match err p with
  | Some _ => emit (Stderr usageText) ;;; ret 2
  | None =>
    if help p then emit (Stdout usageText) ;;; ret 0
    else
      let '(url, e) := resolveURL (positional p) (urlArg p) in
      match e with
      | Some e =>
        emit (Stderr (e ++ newline)) ;;; emit (Stderr usageText) ;;; ret 2
      | None =>
        r <- fetchTitle T w url ;;
        let '(title, e) := r in
        match e with
        | Some e => emit (Stderr (e ++ newline)) ;;; ret 1
        | None =>
          let output :=
            if markdown p
            then lit "[" ++ title ++ lit "](" ++ url ++ lit ")"
            else title in
          emit (Stdout (output ++ newline)) ;;;
          if copyOut p then
            e <- copyToClipboard w output ;;
            match e with
            | Some e =>
              emit (Stderr (lit "clipboard copy failed: " ++ e ++ newline)) ;;;
              ret 1
            | None => ret 0
            end
          else ret 0
        end
      end
  end.

(** What has been written to standard output, in order. *)
Fixpoint stdout_of (t : list event) : gostring :=
  match t with
  | [] => []
  | Stdout s :: t' => s ++ stdout_of t'
  | _ :: t' => stdout_of t'
  end.

Fixpoint stderr_of (t : list event) : gostring :=
  match t with
  | [] => []
  | Stderr s :: t' => s ++ stderr_of t'
  | _ :: t' => stderr_of t'
  end.

(** ** The specification's words *)

Module Spec.

(** A string of white space only: every rune of it is a space. *)
Definition whitespaceOnly (v : gostring) : Prop :=
  Forall (fun rb => unicode.IsSpace (fst rb) = true) (utf8.runes v).

(** "Collapse all whitespace runs to single ASCII spaces": a run of
    space runes becomes one [U+0020]; [inRun] tells that the rune before
    was a space. *)
Fixpoint collapse (inRun : bool) (rs : list (Z * gostring)) : list (Z * gostring) :=
  match rs with
  | [] => []
  | (r, bs) :: rs' =>
    if unicode.IsSpace r then
      if inRun then collapse true rs'
      else (32, [x20]) :: collapse true rs'
    else (r, bs) :: collapse false rs'
  end.

(** "... and trim leading/trailing whitespace". *)
Definition normalize (s : gostring) : gostring :=
  strings.bytes_of
    (strings.trimRight (strings.trimLeft (collapse false (utf8.runes s)))).

(** Equal up to the case of ASCII letters. *)
Definition foldEq (a b : gostring) : Prop :=
  map regexp.lower a = map regexp.lower b.

(** A [<title ...> ... </title>] element with inner text [inner]:
    the opening tag name in any case, attributes up to the first ['>'],
    the inner text (any characters, newlines included), the closing tag
    in any case. *)
Definition titleElement (m inner : gostring) : Prop :=
  exists open attrs close,
    m = open ++ attrs ++ [">"%byte] ++ inner ++ close
    /\ foldEq open (lit "<title")
    /\ Forall (fun b => b <> ">"%byte) attrs
    /\ foldEq close (lit "</title>").

(** The body contains a title element somewhere. *)
Definition containsTitle (body : gostring) : Prop :=
  exists pre m inner post, body = pre ++ m ++ post /\ titleElement m inner.

(** The first title element of the body: none starts further left, and
    of those that start there it has the shortest inner text. *)
Definition firstTitle (body m inner : gostring) : Prop :=
  exists pre post,
    body = pre ++ m ++ post
    /\ titleElement m inner
    /\ (forall pre' m' inner' post',
          body = pre' ++ m' ++ post' -> titleElement m' inner' ->
          (length pre <= length pre')%nat)
    /\ (forall m' inner' post',
          m ++ post = m' ++ post' -> titleElement m' inner' ->
          (length inner <= length inner')%nat).

(** A combination of short options made of the letters h, m and c. *)
Definition flagLetter (c : byte) : Prop :=
  c = "h"%byte \/ c = "m"%byte \/ c = "c"%byte.

Definition cluster (letters : gostring) : gostring := "-"%byte :: letters.

Definition flagLetters (letters : gostring) : Prop :=
  letters <> [] /\ Forall flagLetter letters.

End Spec.

(** ** Sample worlds *)

Module Sample.

(** An excerpt of the entity table. *)
Definition tables : html.Tables :=
  {| html.entity := fun n =>
       if strings.eqb n (lit "amp;") || strings.eqb n (lit "amp") then 38
       else if strings.eqb n (lit "lt;") || strings.eqb n (lit "lt") then 60
       else if strings.eqb n (lit "gt;") || strings.eqb n (lit "gt") then 62
       else if strings.eqb n (lit "quot;") || strings.eqb n (lit "quot") then 34
       else 0;
     html.entity2 := fun _ => (0, 0) |}.

Definition helper : Cmd :=
  {| StdinPipe := None; Start := None; WriteString := fun _ => None;
     Close := None; Wait := fun _ => None |}.

Definition notFound : error := lit "executable file not found in $PATH".

(** A Linux machine; [https://example.com] answers 200 with [body];
    the helpers named in [installed] are on the search path. *)
Definition world (body : gostring) (installed : list gostring) : World :=
  {| GOOS := lit "linux";
     Get := fun u =>
       if strings.eqb u (lit "https://example.com")
       then inl {| StatusCode := 200; Status := lit "200 OK";
                   Body := {| io.data := body; io.fail := None |} |}
       else inr (lit "no such host");
     LookPath := fun n =>
       if existsb (strings.eqb n) installed then None else Some notFound;
     Command := fun _ _ => helper |}.

Definition page : gostring :=
  lit "<html><head><title>Example</title></head></html>".

(** A page whose title has attributes, an entity and a line break. *)
Definition tomTitle : gostring :=
  lit "  Tom &amp;" ++ newline ++ lit " Jerry  ".

Definition tomElement : gostring :=
  lit "<TITLE lang=en>" ++ tomTitle ++ lit "</TITLE>".

Definition tomPage : gostring := lit "<html>" ++ tomElement ++ lit "</html>".

Definition helloPage : gostring := lit "<TITLE>  Hello   World  </TITLE>".

(** 2 MiB of spaces, and then a page. *)
Definition bigBody : gostring := repeat x20 (Z.to_nat (2 ^ 21)) ++ page.

(** A space, a tab, a no-break space (U+00A0) and an ideographic space
    (U+3000). *)
Definition blank : gostring := [x20; x09; xc2; xa0; xe3; x80; x80].

End Sample.

(** ** Auxiliary definitions for the statements *)

(** Whether the letter [x] occurs in [letters]. *)
Definition has (x : byte) (letters : gostring) : bool :=
  existsb (Byte.eqb x) letters.

(** The loop of [parseArgs] taken up again after a part of the arguments
    has been read with result [r]. *)
Definition resume (r : parseResult) (rest : list gostring) : parseResult :=
  match err r with
  | None =>
    parseLoop rest [] (help r) (markdown r) (copyOut r) (urlArg r) (positional r)
  | Some _ => r
  end.

(** The URLs requested, in order. *)
Fixpoint gets_of (t : list event) : list gostring :=
  match t with
  | [] => []
  | HttpGet u :: t' => u :: gets_of t'
  | _ :: t' => gets_of t'
  end.

(** A rune that is white space; a rune that has bytes. *)
Definition isSpaceRune (rb : Z * gostring) : Prop := unicode.IsSpace (fst rb) = true.
Definition nonEmptyRune (rb : Z * gostring) : Prop := snd rb <> [].

(** The events of the clipboard writer. *)
Definition clipboardEvent (e : event) : bool :=
  match e with
  | ExecLookPath _ | ExecStart _ _ | ExecWrite _ _ | ExecClose _ | ExecWait _ => true
  | _ => false
  end.

(** The output of [run]: the title, or the Markdown link. *)
Definition formatted (markdown : bool) (title url : gostring) : gostring :=
  if markdown then lit "[" ++ title ++ lit "](" ++ url ++ lit ")" else title.

(** The server answers the request for [rawURL] with a 2xx status and
    the program reads [body] without error. *)
Definition served (w : World) (rawURL body : gostring) : Prop :=
  exists resp,
    Get w (withScheme rawURL) = inl resp
    /\ 200 <= StatusCode resp < 300
    /\ io.ReadAll (io.LimitReader (Body resp) (Z.shiftl 2 20)) = (body, None).

(** ** Further definitions for the statements *)

(** [q] is [l] with some elements left out, the order kept. *)
Inductive subseq {A : Type} : list A -> list A -> Prop :=
| subseq_nil (l : list A) : subseq [] l
| subseq_skip (a : A) (q l : list A) : subseq q l -> subseq q (a :: l)
| subseq_take (a : A) (q l : list A) : subseq q l -> subseq (a :: q) (a :: l).

(** An argument that [parseArgs] reads as a positional one wherever it
    reads it as an argument of its own: it does not start with ['-'], or
    it is ['-'] alone. *)
Definition plainArg (arg : gostring) : Prop :=
  (strings.HasPrefix arg (lit "-") && (1 <? length arg)%nat) = false.

(** What the loop of [parseArgs] keeps, from a state [h m c u p] with
    [args] still to read, in its result [r]: a failure has one of the two
    errors and zero values; otherwise a flag that was set is set, and the
    positional arguments have grown by plain arguments of [args], in
    their order. *)
Definition parseInv (args : list gostring) (h m c : bool) (u : stringFlag)
           (p : list gostring) (r : parseResult) : Prop :=
  match err r with
  | Some e =>
    r = parseFailed e /\ (e = errMissingValue \/ e = errUnknownOption)
  | None =>
    (h = true -> help r = true)
    /\ (m = true -> markdown r = true)
    /\ (c = true -> copyOut r = true)
    /\ (set u = true -> set (urlArg r) = true)
    /\ exists q, positional r = p ++ q /\ subseq q args /\ Forall plainArg q
  end.

(** A Linux machine without clipboard helpers where every request is
    answered with the given status and body. *)
Definition answering (status : Z) (statusText : gostring) (body : io.Reader) : World :=
  {| GOOS := lit "linux";
     Get := fun _ => inl {| StatusCode := status; Status := statusText; Body := body |};
     LookPath := fun _ => Some Sample.notFound;
     Command := fun _ _ => Sample.helper |}.

(** A rune as the decoder delivers it: it has bytes, and a byte below 128
    in it is the rune itself. *)
Definition wellRune (rb : Z * gostring) : Prop :=
  snd rb <> [] /\ forall b, In b (snd rb) -> code b < 128 -> fst rb = code b.

(** Runes in which every space is a single [U+0020] that does not follow
    another; [afterSpace] tells that the rune before was a space. *)
Fixpoint spaced (afterSpace : bool) (rs : list (Z * gostring)) : Prop :=
  match rs with
  | [] => True
  | (r, bs) :: rs' =>
    if unicode.IsSpace r
    then afterSpace = false /\ bs = [x20] /\ spaced true rs'
    else spaced false rs'
  end.

(** Bytes without two spaces in a row. *)
Fixpoint singleSpaced (l : gostring) : Prop :=
  match l with
  | x :: t =>
    match t with
    | y :: _ => ~ (x = x20 /\ y = x20)
    | [] => True
    end /\ singleSpaced t
  | [] => True
  end.

(** What has been written to the standard input of helpers, in order. *)
Fixpoint writes_of (t : list event) : list gostring :=
  match t with
  | [] => []
  | ExecWrite _ input :: t' => input :: writes_of t'
  | _ :: t' => writes_of t'
  end.

(** The events of one candidate of the clipboard writer. *)
Definition attempt (w : World) (text : gostring) (c : clipboardCmd) : list event :=
  fst (pipeToCommand w text (name c) (args c)).

(** A machine whose helpers are all on the search path and start, but
    break when written to and exit with an error. *)
Definition brokenHelpers : World :=
  {| GOOS := lit "darwin";
     Get := fun _ => inr (lit "offline");
     LookPath := fun _ => None;
     Command := fun _ _ =>
       {| StdinPipe := None; Start := None;
          WriteString := fun _ => Some (lit "broken pipe");
          Close := None;
          Wait := fun _ => Some (lit "exit status 1") |} |}.

(** * Properties *)

(** ** Strings *)

Lemma strings_eqb_eq (a b : gostring) : strings.eqb a b = true <-> a = b.
Proof.
  revert b; induction a as [|x a IH]; intros [|y b]; simpl; split;
    try congruence; try reflexivity.
  - intros H. apply andb_prop in H as [Hx Hab].
    apply Byte.byte_dec_bl in Hx. apply IH in Hab. congruence.
  - intros H. injection H as -> ->.
    rewrite (Byte.byte_dec_lb eq_refl). simpl. now apply IH.
Qed.

Lemma strings_eqb_neq (a b : gostring) : strings.eqb a b = false <-> a <> b.
Proof.
  split.
  - intros H E. apply strings_eqb_eq in E. congruence.
  - intros H. destruct (strings.eqb a b) eqn:E; [|reflexivity].
    apply strings_eqb_eq in E. contradiction.
Qed.

Lemma byte_eqb_eq (x y : byte) : Byte.eqb x y = true <-> x = y.
Proof.
  split; [apply Byte.byte_dec_bl | intros ->; now apply Byte.byte_dec_lb].
Qed.

Lemma HasPrefix_app (p t : gostring) : strings.HasPrefix (p ++ t) p = true.
Proof.
  induction p as [|x p IH]; simpl; [reflexivity|].
  rewrite (Byte.byte_dec_lb eq_refl). exact IH.
Qed.

Lemma HasPrefix_inv (s p : gostring) :
  strings.HasPrefix s p = true -> exists t, s = p ++ t.
Proof.
  revert s; induction p as [|x p IH]; intros s H; simpl in *.
  - now exists s.
  - destruct s as [|c s]; [discriminate|].
    apply andb_prop in H as [Hc Hs]. apply byte_eqb_eq in Hc. subst c.
    destruct (IH _ Hs) as [t ->]. now exists t.
Qed.

Lemma has_In (x : byte) (l : gostring) : has x l = true <-> In x l.
Proof.
  unfold has. rewrite existsb_exists. split.
  - intros [y [Hy E]]. apply byte_eqb_eq in E. now subst.
  - intros H. exists x. split; [exact H | now apply byte_eqb_eq].
Qed.

Lemma has_same (x : byte) (l1 l2 : gostring) :
  (In x l1 <-> In x l2) -> has x l1 = has x l2.
Proof.
  intros H. destruct (has x l1) eqn:E1, (has x l2) eqn:E2; try reflexivity.
  - apply has_In, H, has_In in E1. congruence.
  - apply has_In, H, has_In in E2. congruence.
Qed.

Lemma has_app (x : byte) (l1 l2 : gostring) :
  has x (l1 ++ l2) = has x l1 || has x l2.
Proof. unfold has. apply existsb_app. Qed.

(** Source literals, evaluated to their bytes. *)
Ltac eval_lit :=
  repeat match goal with
         | |- context [lit ?s] =>
           let v := eval vm_compute in (lit s) in change (lit s) with v
         end.

(** ** The argument parser *)

Ltac flag_letters :=
  eval_lit; split; [discriminate|];
  repeat (apply Forall_cons || apply Forall_nil); unfold Spec.flagLetter; auto.

Section Parser.

Variables (h m c : bool) (u : stringFlag) (p : list gostring).

(** Reading one letter of a combination. *)
Lemma parseLoop_letter (args : list gostring) (r : byte) (letters : gostring)
      (h' m' c' : bool) (u' : stringFlag) (p' : list gostring) :
  parseLoop args (r :: letters) h' m' c' u' p' =
  if Byte.eqb r "h"%byte then parseLoop args letters true m' c' u' p'
  else if Byte.eqb r "m"%byte then parseLoop args letters h' true c' u' p'
  else if Byte.eqb r "c"%byte then parseLoop args letters h' m' true u' p'
  else if Byte.eqb r "u"%byte then
    match args with
    | [] => parseFailed errMissingValue
    | v :: args' =>
      parseLoop args' letters h' m' c' {| value := v; set := true |} p'
    end
  else parseFailed errUnknownOption.
Proof. destruct args; reflexivity. Qed.

(** A combination of the letters h, m, c sets the three flags and
    nothing else. *)
Lemma parseLoop_flagLetters (letters : gostring) :
  Forall Spec.flagLetter letters ->
  forall (args : list gostring) (h' m' c' : bool),
    parseLoop args letters h' m' c' u p =
    parseLoop args [] (h' || has "h"%byte letters) (m' || has "m"%byte letters)
              (c' || has "c"%byte letters) u p.
Proof.
  induction 1 as [|r letters Hr _ IH]; intros args h' m' c'.
  - unfold has; simpl. now rewrite !orb_false_r.
  - rewrite parseLoop_letter.
    destruct Hr as [-> | [-> | ->]]; simpl; rewrite IH; unfold has; simpl;
      rewrite ?orb_true_r; reflexivity.
Qed.

(** Reading one argument. *)
Lemma parseLoop_arg (arg : gostring) (rest : list gostring) :
  parseLoop (arg :: rest) [] h m c u p =
  if strings.eqb arg (lit "-h") || strings.eqb arg (lit "--help") then
    parseLoop rest [] true m c u p
  else if strings.eqb arg (lit "-m") || strings.eqb arg (lit "--markdown") then
    parseLoop rest [] h true c u p
  else if strings.eqb arg (lit "-c") || strings.eqb arg (lit "--copy") then
    parseLoop rest [] h m true u p
  else if strings.eqb arg (lit "-u") || strings.eqb arg (lit "--url") then
    match rest with
    | [] => parseFailed errMissingValue
    | v :: rest' => parseLoop rest' [] h m c {| value := v; set := true |} p
    end
  else if strings.HasPrefix arg (lit "--url=") then
    parseLoop rest [] h m c
              {| value := strings.TrimPrefix arg (lit "--url="); set := true |} p
  else if strings.HasPrefix arg (lit "-u=") then
    parseLoop rest [] h m c
              {| value := strings.TrimPrefix arg (lit "-u="); set := true |} p
  else if strings.HasPrefix arg (lit "-") && (1 <? length arg)%nat then
    parseLoop rest (skipn 1 arg) h m c u p
  else
    parseLoop rest [] h m c u (p ++ [arg]).
Proof. reflexivity. Qed.

(** A combination of the letters h, m, c, as an argument. *)
Lemma parseLoop_cluster (letters : gostring) (rest : list gostring) :
  Spec.flagLetters letters ->
  parseLoop (Spec.cluster letters :: rest) [] h m c u p =
  parseLoop rest [] (h || has "h"%byte letters) (m || has "m"%byte letters)
            (c || has "c"%byte letters) u p.
Proof.
  intros [Hne Hall]. rewrite parseLoop_arg.
  destruct letters as [|a letters]; [contradiction|].
  assert (Ha : Spec.flagLetter a) by now inversion Hall.
  destruct letters as [|b letters].
  - destruct Ha as [-> | [-> | ->]]; vm_compute strings.eqb; simpl;
      unfold has; simpl; rewrite ?orb_true_r, ?orb_false_r; reflexivity.
  - replace (strings.eqb (Spec.cluster (a :: b :: letters)) (lit "-h")) with false
      by (unfold Spec.cluster; simpl; now rewrite !andb_false_r).
    replace (strings.eqb (Spec.cluster (a :: b :: letters)) (lit "-m")) with false
      by (unfold Spec.cluster; simpl; now rewrite !andb_false_r).
    replace (strings.eqb (Spec.cluster (a :: b :: letters)) (lit "-c")) with false
      by (unfold Spec.cluster; simpl; now rewrite !andb_false_r).
    replace (strings.eqb (Spec.cluster (a :: b :: letters)) (lit "-u")) with false
      by (unfold Spec.cluster; simpl; now rewrite !andb_false_r).
    rewrite <- (parseLoop_flagLetters (a :: b :: letters) Hall).
    destruct Ha as [-> | [-> | ->]]; reflexivity.
Qed.

End Parser.

(** A sequence of combinations sets the flags of all their letters. *)
Lemma parseLoop_clusters (parts : list gostring) (rest : list gostring) :
  Forall Spec.flagLetters parts ->
  forall (h m c : bool) (u : stringFlag) (p : list gostring),
    parseLoop (map Spec.cluster parts ++ rest) [] h m c u p =
    parseLoop rest [] (h || has "h"%byte (concat parts))
              (m || has "m"%byte (concat parts))
              (c || has "c"%byte (concat parts)) u p.
Proof.
  induction 1 as [|letters parts Hl _ IH]; intros h m c u p; cbn [map app concat].
  - unfold has; simpl. now rewrite !orb_false_r.
  - rewrite parseLoop_cluster by exact Hl. rewrite IH.
    now rewrite !has_app, !orb_assoc.
Qed.

(** Arguments that the loop reads to their end are read in the same way
    when more arguments follow, and the loop goes on from there.  The one
    exception is an option [u] still waiting for its value. *)
Lemma parseLoop_app_lt (n : nat) :
  forall (pre : list gostring), (length pre < n)%nat ->
  forall (letters : gostring) (h m c : bool) (u : stringFlag)
         (p rest : list gostring),
    err (parseLoop pre letters h m c u p) <> Some errMissingValue ->
    parseLoop (pre ++ rest) letters h m c u p =
    resume (parseLoop pre letters h m c u p) rest.
Proof.
  induction n as [|n IHn]; intros pre Hlen; [lia|].
  induction letters as [|r letters IHl]; intros h m c u p rest Hok.
  - destruct pre as [|arg pre].
    + reflexivity.
    + simpl app. simpl in Hlen. rewrite !parseLoop_arg. rewrite parseLoop_arg in Hok.
      repeat match goal with
             | |- context [if ?b then _ else _] => destruct b
             end;
        try (apply IHn; [lia | exact Hok]).
      destruct pre as [|v pre].
      * exfalso. now apply Hok.
      * simpl in Hlen. apply IHn; [lia | exact Hok].
  - rewrite !parseLoop_letter. rewrite parseLoop_letter in Hok.
    destruct (Byte.eqb r "h"%byte); [now apply IHl|].
    destruct (Byte.eqb r "m"%byte); [now apply IHl|].
    destruct (Byte.eqb r "c"%byte); [now apply IHl|].
    destruct (Byte.eqb r "u"%byte); [|reflexivity].
    destruct pre as [|v pre].
    + exfalso. now apply Hok.
    + simpl in Hlen. apply IHn; [lia | exact Hok].
Qed.

Lemma parseLoop_app (pre rest : list gostring) (letters : gostring)
      (h m c : bool) (u : stringFlag) (p : list gostring) :
  err (parseLoop pre letters h m c u p) <> Some errMissingValue ->
  parseLoop (pre ++ rest) letters h m c u p =
  resume (parseLoop pre letters h m c u p) rest.
Proof. apply (parseLoop_app_lt (S (length pre))). lia. Qed.

(** C8, as amended.  Wherever the parser reads a combination of the
    letters h, m, c (such as [-mc]) as an option, that is after any
    arguments [pre] that do not end in an option [u] still waiting for
    its value, the combination can be replaced by any sequence of such
    combinations with the same letters (such as [-m -c], or [-c -m], or
    [-cm]): the six results of [parseArgs], the flags, the URL flag, the
    positional arguments and the error, are the same. *)
Theorem combined_short_flags
        (pre post : list gostring) (letters : gostring) (parts : list gostring) :
  Spec.flagLetters letters ->
  Forall Spec.flagLetters parts ->
  (forall x, In x letters <-> In x (concat parts)) ->
  err (parseArgs pre) <> Some errMissingValue ->
  parseArgs (pre ++ Spec.cluster letters :: post) =
  parseArgs (pre ++ map Spec.cluster parts ++ post).
Proof.
  intros Hl Hparts Hsame Hpre. unfold parseArgs in *.
  rewrite !parseLoop_app by exact Hpre.
  unfold resume. destruct (err (parseLoop pre [] false false false _ [])); [reflexivity|].
  rewrite parseLoop_cluster by exact Hl.
  rewrite parseLoop_clusters by exact Hparts.
  now rewrite !(has_same _ _ _ (Hsame _)).
Qed.

Lemma combined_short_flags_witness :
  parseArgs ([lit "example.com"] ++ Spec.cluster (lit "mc") :: [lit "-u"; lit "x"]) =
  parseArgs ([lit "example.com"] ++ map Spec.cluster [lit "c"; lit "m"]
               ++ [lit "-u"; lit "x"]).
Proof.
  apply (combined_short_flags [lit "example.com"] [lit "-u"; lit "x"]
                              (lit "mc") [lit "c"; lit "m"]).
  - flag_letters.
  - repeat (apply Forall_cons || apply Forall_nil); flag_letters.
  - intros x. eval_lit. simpl. tauto.
  - vm_compute. discriminate.
Defined.

(** C8 as stated fails: after [-u] the argument [-mc] is the value of
    the URL flag and sets no flag, while of [-m -c] in its place [-m] is
    the value and [-c] sets the copy flag. *)
Lemma combined_short_flags_counterexample :
  parseArgs [lit "-u"; Spec.cluster (lit "mc")]
  = {| help := false; markdown := false; copyOut := false;
       urlArg := {| value := lit "-mc"; set := true |};
       positional := []; err := None |}
  /\ parseArgs (lit "-u" :: map Spec.cluster [lit "m"; lit "c"])
     = {| help := false; markdown := false; copyOut := true;
          urlArg := {| value := lit "-m"; set := true |};
          positional := []; err := None |}
  /\ parseArgs [lit "-u"; Spec.cluster (lit "mc")]
     <> parseArgs (lit "-u" :: map Spec.cluster [lit "m"; lit "c"]).
Proof.
  repeat split; try (vm_compute; reflexivity).
  vm_compute. discriminate.
Qed.

(** ** Help and parse errors *)

(** C10.  When the arguments parse without error and set the help flag,
    the program prints the usage text to standard output and exits with
    status 0, and does nothing else: no URL is resolved or fetched and no
    clipboard helper is looked for, whatever the other flags and
    positional arguments are.  When the arguments do not parse, the
    program prints the usage text to standard error and exits with status
    2, whether or not help was asked for. *)
Theorem help_or_parse_error (T : html.Tables) (w : World) (args args' : list gostring) :
  (err (parseArgs args) = None -> help (parseArgs args) = true ->
   run T w args = ([Stdout usageText], 0))
  /\ (err (parseArgs args') <> None ->
      run T w args' = ([Stderr usageText], 2)).
Proof.
  split.
  - intros He Hh. unfold run. now rewrite He, Hh.
  - intros He. unfold run. destruct (err (parseArgs args')); [reflexivity|].
    now contradiction He.
Qed.

Lemma help_or_parse_error_witness :
  run Sample.tables (Sample.world Sample.page [])
      [lit "-hc"; lit "a"; lit "b"; lit "--url= "] = ([Stdout usageText], 0)
  /\ run Sample.tables (Sample.world Sample.page [])
         [lit "-h"; lit "-x"; lit "example.com"] = ([Stderr usageText], 2).
Proof.
  destruct (help_or_parse_error Sample.tables (Sample.world Sample.page [])
              [lit "-hc"; lit "a"; lit "b"; lit "--url= "]
              [lit "-h"; lit "-x"; lit "example.com"]) as [Hhelp Herr].
  split.
  - apply Hhelp; vm_compute; reflexivity.
  - apply Herr. vm_compute. discriminate.
Defined.

(** ** Runes and white space *)


(** Decoding a non-empty string consumes at least one byte. *)
Lemma DecodeRune_width (b : byte) (t : gostring) :
  (1 <= snd (utf8.DecodeRune (b :: t)))%nat.
Proof.
  unfold utf8.DecodeRune.
  repeat match goal with
         | |- context [if ?c then _ else _] => destruct c
         | |- context [match ?l with [] => _ | _ :: _ => _ end] => destruct l
         end; simpl; lia.
Qed.

Lemma runes_fuel_nonEmpty (fuel : nat) (s : gostring) :
  Forall nonEmptyRune (utf8.runes_fuel fuel s).
Proof.
  revert s; induction fuel as [|fuel IH]; intros s; simpl; [constructor|].
  destruct s as [|b t]; [constructor|].
  pose proof (DecodeRune_width b t) as Hw.
  destruct (utf8.DecodeRune (b :: t)) as [r n]. simpl in Hw.
  constructor; [|apply IH].
  unfold nonEmptyRune. destruct n; [lia|]. simpl. discriminate.
Qed.

Lemma trimLeft_nil (rs : list (Z * gostring)) :
  strings.trimLeft rs = [] <-> Forall isSpaceRune rs.
Proof.
  induction rs as [|[r bs] rs IH]; simpl.
  - split; constructor.
  - destruct (unicode.IsSpace r) eqn:E.
    + rewrite IH. split; intros H.
      * constructor; assumption.
      * now inversion H.
    + split; [discriminate|]. intros H. inversion H as [|? ? Hr _]; subst.
      unfold isSpaceRune in Hr; simpl in Hr. congruence.
Qed.

Lemma trimLeft_all_space (rs : list (Z * gostring)) :
  Forall isSpaceRune (strings.trimLeft rs) -> strings.trimLeft rs = [].
Proof.
  induction rs as [|[r bs] rs IH]; simpl; [reflexivity|].
  destruct (unicode.IsSpace r) eqn:E; [exact IH|].
  intros H. inversion H as [|? ? Hr _]; subst.
  unfold isSpaceRune in Hr; simpl in Hr. congruence.
Qed.

Lemma trimRight_nil (rs : list (Z * gostring)) :
  strings.trimRight rs = [] <-> Forall isSpaceRune rs.
Proof.
  induction rs as [|[r bs] rs IH]; simpl.
  - split; constructor.
  - destruct (strings.trimRight rs) as [|k kept] eqn:Ek.
    + destruct (unicode.IsSpace r) eqn:E.
      * split; intros _; [|reflexivity]. constructor; [exact E | now apply IH].
      * split; [discriminate|]. intros H. inversion H as [|? ? Hr _]; subst.
        unfold isSpaceRune in Hr; simpl in Hr. congruence.
    + split; [discriminate|]. intros H. inversion H as [|? ? _ Hrs]; subst.
      apply IH in Hrs. discriminate.
Qed.

Lemma trimLeft_nonEmpty (rs : list (Z * gostring)) :
  Forall nonEmptyRune rs -> Forall nonEmptyRune (strings.trimLeft rs).
Proof.
  induction 1 as [|[r bs] rs Hr Hrs IH]; simpl; [constructor|].
  destruct (unicode.IsSpace r); [exact IH | now constructor].
Qed.

Lemma trimRight_nonEmpty (rs : list (Z * gostring)) :
  Forall nonEmptyRune rs -> Forall nonEmptyRune (strings.trimRight rs).
Proof.
  induction 1 as [|[r bs] rs Hr Hrs IH]; simpl; [constructor|].
  destruct (strings.trimRight rs) as [|k kept].
  - destruct (unicode.IsSpace r); [constructor | now repeat constructor].
  - now constructor.
Qed.

Lemma bytes_of_nil (rs : list (Z * gostring)) :
  Forall nonEmptyRune rs -> strings.bytes_of rs = [] -> rs = [].
Proof.
  destruct 1 as [|[r bs] rs Hr _]; [reflexivity|].
  unfold strings.bytes_of; simpl. intros H.
  apply app_eq_nil in H as [H _]. now contradiction Hr.
Qed.

(** [strings.TrimSpace v == ""] exactly when [v] is white space only. *)
Lemma TrimSpace_empty (v : gostring) :
  strings.TrimSpace v = [] <-> Spec.whitespaceOnly v.
Proof.
  unfold strings.TrimSpace, Spec.whitespaceOnly, utf8.runes.
  pose proof (runes_fuel_nonEmpty (length v) v) as Hne.
  split.
  - intros H. apply bytes_of_nil in H.
    + apply trimRight_nil, trimLeft_all_space in H. now apply trimLeft_nil.
    + now apply trimRight_nonEmpty, trimLeft_nonEmpty.
  - intros H. apply trimLeft_nil in H. now rewrite H.
Qed.

Lemma TrimSpace_eqb (v : gostring) :
  strings.eqb (strings.TrimSpace v) [] = true <-> Spec.whitespaceOnly v.
Proof. now rewrite strings_eqb_eq, TrimSpace_empty. Qed.

Lemma TrimSpace_eqb_false (v : gostring) :
  strings.eqb (strings.TrimSpace v) [] = false <-> ~ Spec.whitespaceOnly v.
Proof.
  rewrite <- TrimSpace_eqb. destruct (strings.eqb (strings.TrimSpace v) []).
  - split; [discriminate | intros H; now contradiction H].
  - split; [discriminate | reflexivity].
Qed.

(** ** The URL resolver *)

Lemma resolveURL_conflict (positional : list gostring) (urlArg : stringFlag) :
  set urlArg = true -> positional <> [] ->
  resolveURL positional urlArg = ([], Some errConflict).
Proof.
  intros Hset Hpos. unfold resolveURL. rewrite Hset.
  destruct positional; [contradiction|]. reflexivity.
Qed.

(** What [run] does when the URL resolver fails. *)
Lemma run_resolve_error (T : html.Tables) (w : World) (args : list gostring)
      (e : error) :
  err (parseArgs args) = None -> help (parseArgs args) = false ->
  snd (resolveURL (positional (parseArgs args)) (urlArg (parseArgs args))) = Some e ->
  run T w args = ([Stderr (e ++ newline); Stderr usageText], 2).
Proof.
  intros He Hh Hr. unfold run. rewrite He, Hh.
  destruct (resolveURL _ _) as [url e']. simpl in Hr. now subst e'.
Qed.

(** C3, as amended.  Whenever the URL flag was supplied together with at
    least one positional argument, the URL resolver returns the conflict
    error, whatever the value of the flag and the positional arguments
    are; and when the arguments parse without error and do not set the
    help flag, the program then prints the message and the usage text to
    standard error and exits with status 2. *)
Theorem url_flag_and_positional_conflict
        (T : html.Tables) (w : World) (args : list gostring)
        (positional' : list gostring) (urlArg' : stringFlag) :
  (set urlArg' = true -> positional' <> [] ->
   resolveURL positional' urlArg' = ([], Some errConflict))
  /\ (err (parseArgs args) = None -> help (parseArgs args) = false ->
      set (urlArg (parseArgs args)) = true -> positional (parseArgs args) <> [] ->
      run T w args = ([Stderr (errConflict ++ newline); Stderr usageText], 2)).
Proof.
  split.
  - apply resolveURL_conflict.
  - intros He Hh Hset Hpos. apply run_resolve_error; try assumption.
    now rewrite resolveURL_conflict.
Qed.

Lemma url_flag_and_positional_conflict_witness :
  resolveURL [lit "b.example"] {| value := lit "a.example"; set := true |}
  = ([], Some errConflict)
  /\ run Sample.tables (Sample.world Sample.page [])
         [lit "-m"; lit "--url=a.example"; lit "b.example"]
     = ([Stderr (errConflict ++ newline); Stderr usageText], 2).
Proof.
  destruct (url_flag_and_positional_conflict
              Sample.tables (Sample.world Sample.page [])
              [lit "-m"; lit "--url=a.example"; lit "b.example"]
              [lit "b.example"] {| value := lit "a.example"; set := true |})
    as [Hresolve Hrun].
  split.
  - apply Hresolve; [reflexivity | discriminate].
  - apply Hrun; vm_compute; try reflexivity; discriminate.
Defined.

(** C3 as stated fails: with the help flag set as well, the URL flag and
    a positional argument are both supplied, yet the program prints the
    usage text to standard output and exits with status 0, not 2. *)
Lemma url_flag_and_positional_help_counterexample :
  let args := [lit "-h"; lit "-u"; lit "a.example"; lit "b.example"] in
  err (parseArgs args) = None
  /\ urlArg (parseArgs args) = {| value := lit "a.example"; set := true |}
  /\ positional (parseArgs args) = [lit "b.example"]
  /\ run Sample.tables (Sample.world Sample.page []) args = ([Stdout usageText], 0)
  /\ snd (run Sample.tables (Sample.world Sample.page []) args) <> 2.
Proof.
  cbv zeta. repeat split; try (vm_compute; reflexivity).
  vm_compute. discriminate.
Qed.

(** C4, as amended.  A URL value of white space only is rejected by the
    URL resolver with the empty-URL error when it is supplied by the URL
    flag without positional arguments, or as the single positional
    argument without the URL flag; when the arguments parse without error
    and do not set the help flag, the program then prints the message and
    the usage text to standard error and exits with status 2.  A value
    with a character that is not white space passes this check: the
    resolver returns it. *)
Theorem blank_url_rejected
        (T : html.Tables) (w : World) (args : list gostring)
        (v v' : gostring) (noFlag : stringFlag) :
  (Spec.whitespaceOnly v ->
   resolveURL [] {| value := v; set := true |} = ([], Some errEmptyURL)
   /\ (set noFlag = false -> resolveURL [v] noFlag = ([], Some errEmptyURL))
   /\ (err (parseArgs args) = None -> help (parseArgs args) = false ->
       (urlArg (parseArgs args) = {| value := v; set := true |}
        /\ positional (parseArgs args) = [])
       \/ (set (urlArg (parseArgs args)) = false
           /\ positional (parseArgs args) = [v]) ->
       run T w args = ([Stderr (errEmptyURL ++ newline); Stderr usageText], 2)))
  /\ (~ Spec.whitespaceOnly v' ->
      resolveURL [] {| value := v'; set := true |} = (v', None)
      /\ (set noFlag = false -> resolveURL [v'] noFlag = (v', None))).
Proof.
  split.
  - intros Hv. apply TrimSpace_eqb in Hv.
    assert (Hflag : resolveURL [] {| value := v; set := true |}
                    = ([], Some errEmptyURL))
      by (unfold resolveURL; simpl; now rewrite Hv).
    assert (Hpos : forall f, set f = false -> resolveURL [v] f = ([], Some errEmptyURL))
      by (intros f Hf; unfold resolveURL; rewrite Hf; simpl; now rewrite Hv).
    split; [exact Hflag|]. split; [apply Hpos|].
    intros He Hh Hsrc. apply run_resolve_error; try assumption.
    destruct Hsrc as [[Hu Hp] | [Hu Hp]]; rewrite Hp.
    + rewrite Hu. now rewrite Hflag.
    + now rewrite Hpos.
  - intros Hv. apply TrimSpace_eqb_false in Hv. split.
    + unfold resolveURL; simpl. now rewrite Hv.
    + intros Hf. unfold resolveURL. rewrite Hf. simpl. now rewrite Hv.
Qed.

Lemma blank_whitespaceOnly : Spec.whitespaceOnly Sample.blank.
Proof.
  unfold Spec.whitespaceOnly.
  let rs := eval vm_compute in (utf8.runes Sample.blank) in
  change (utf8.runes Sample.blank) with rs.
  repeat constructor.
Qed.

Lemma blank_url_rejected_witness :
  (resolveURL [] {| value := Sample.blank; set := true |} = ([], Some errEmptyURL)
   /\ resolveURL [Sample.blank] {| value := []; set := false |}
      = ([], Some errEmptyURL)
   /\ run Sample.tables (Sample.world Sample.page [])
          [lit "-c"; lit "-u"; Sample.blank]
      = ([Stderr (errEmptyURL ++ newline); Stderr usageText], 2))
  /\ resolveURL [] {| value := lit " a.example "; set := true |}
     = (lit " a.example ", None)
  /\ resolveURL [lit " a.example "] {| value := []; set := false |}
     = (lit " a.example ", None).
Proof.
  destruct (blank_url_rejected
              Sample.tables (Sample.world Sample.page [])
              [lit "-c"; lit "-u"; Sample.blank]
              Sample.blank (lit " a.example ") {| value := []; set := false |})
    as [Hblank Hother].
  split.
  - destruct (Hblank blank_whitespaceOnly) as [Hflag [Hpos Hrun]].
    split; [exact Hflag|]. split; [now apply Hpos|].
    apply Hrun; try (vm_compute; reflexivity).
    left. split; vm_compute; reflexivity.
  - destruct Hother as [Hflag Hpos].
    + unfold Spec.whitespaceOnly.
      let rs := eval vm_compute in (utf8.runes (lit " a.example ")) in
      change (utf8.runes (lit " a.example ")) with rs.
      intros H. inversion H as [|? ? _ H']; subst.
      inversion H' as [|? ? Ha _]; subst. vm_compute in Ha. discriminate.
    + split; [exact Hflag | now apply Hpos].
Defined.

(** C4 as stated fails in two ways.  A blank value of the URL flag next
    to a positional argument is rejected with the conflict error, not the
    empty-URL error; and with the help flag set the program exits with
    status 0 although the URL is blank. *)
Lemma blank_url_counterexample :
  Spec.whitespaceOnly Sample.blank
  /\ resolveURL [lit "b.example"] {| value := Sample.blank; set := true |}
     = ([], Some errConflict)
  /\ errConflict <> errEmptyURL
  /\ urlArg (parseArgs [lit "-h"; lit "-u"; Sample.blank])
     = {| value := Sample.blank; set := true |}
  /\ positional (parseArgs [lit "-h"; lit "-u"; Sample.blank]) = []
  /\ run Sample.tables (Sample.world Sample.page [])
         [lit "-h"; lit "-u"; Sample.blank] = ([Stdout usageText], 0).
Proof.
  split; [exact blank_whitespaceOnly|].
  repeat split; try (vm_compute; reflexivity).
  vm_compute. discriminate.
Qed.

(** ** The fetcher: the request and the body *)

Lemma withScheme_bare (rawURL : gostring) :
  strings.HasPrefix rawURL (lit "http://") = false ->
  strings.HasPrefix rawURL (lit "https://") = false ->
  withScheme rawURL = lit "https://" ++ rawURL.
Proof. intros H1 H2. unfold withScheme. now rewrite H1, H2. Qed.

Lemma withScheme_qualified (rawURL : gostring) :
  strings.HasPrefix rawURL (lit "http://") = true
  \/ strings.HasPrefix rawURL (lit "https://") = true ->
  withScheme rawURL = rawURL.
Proof.
  intros [H | H]; unfold withScheme; rewrite H; simpl;
    [reflexivity | now rewrite andb_false_r].
Qed.

(** The fetcher sends exactly one request, for [withScheme rawURL]. *)
Lemma fetchTitle_gets (T : html.Tables) (w : World) (rawURL : gostring) :
  gets_of (fst (fetchTitle T w rawURL)) = [withScheme rawURL].
Proof.
  unfold fetchTitle. destruct (Get w (withScheme rawURL)) as [resp | e];
    [|reflexivity].
  destruct ((StatusCode resp <? 200) || (300 <=? StatusCode resp));
    [reflexivity|].
  destruct (io.ReadAll _) as [body [e|]]; reflexivity.
Qed.

(** The fetcher looks at the world only through the answer to that
    request. *)
Lemma fetchTitle_frame (T : html.Tables) (w w' : World) (rawURL : gostring) :
  Get w' (withScheme rawURL) = Get w (withScheme rawURL) ->
  fetchTitle T w' rawURL = fetchTitle T w rawURL.
Proof. intros H. unfold fetchTitle. now rewrite H. Qed.

Lemma fetchTitle_served (T : html.Tables) (w : World) (rawURL body : gostring) :
  served w rawURL body ->
  fetchTitle T w rawURL
  = ([HttpGet (withScheme rawURL); BodyClose], extractTitle T body).
Proof.
  intros [resp [HG [Hs Hr]]]. unfold fetchTitle. rewrite HG.
  replace ((StatusCode resp <? 200) || (300 <=? StatusCode resp)) with false
    by (symmetry; apply orb_false_intro; [apply Z.ltb_ge | apply Z.leb_gt]; lia).
  rewrite Hr. unfold extractTitle.
  destruct (length _ <? 2)%nat; [reflexivity|].
  destruct (strings.eqb _ []); reflexivity.
Qed.

(** C5.  The fetcher prepends [https://] to a URL that has neither the
    prefix [http://] nor the prefix [https://] and requests that; a URL
    with one of the prefixes is requested as it is.  That is the only
    request, and the only thing the result depends on is the answer to
    it.  The bare host [example.com] is requested as
    [https://example.com]. *)
Theorem scheme_prepended (T : html.Tables) (w w' : World) (rawURL : gostring) :
  (strings.HasPrefix rawURL (lit "http://") = false ->
   strings.HasPrefix rawURL (lit "https://") = false ->
   gets_of (fst (fetchTitle T w rawURL)) = [lit "https://" ++ rawURL])
  /\ (strings.HasPrefix rawURL (lit "http://") = true
      \/ strings.HasPrefix rawURL (lit "https://") = true ->
      gets_of (fst (fetchTitle T w rawURL)) = [rawURL])
  /\ (Get w' (withScheme rawURL) = Get w (withScheme rawURL) ->
      fetchTitle T w' rawURL = fetchTitle T w rawURL)
  /\ gets_of (fst (fetchTitle T w (lit "example.com"))) = [lit "https://example.com"].
Proof.
  rewrite !fetchTitle_gets. repeat split.
  - intros H1 H2. now rewrite withScheme_bare.
  - intros H. now rewrite withScheme_qualified.
  - apply fetchTitle_frame.
Qed.

Lemma scheme_prepended_witness :
  gets_of (fst (fetchTitle Sample.tables (Sample.world Sample.page [])
                           (lit "example.com/a?b=http://c")))
  = [lit "https://example.com/a?b=http://c"]
  /\ gets_of (fst (fetchTitle Sample.tables (Sample.world Sample.page [])
                              (lit "http://example.com")))
     = [lit "http://example.com"].
Proof.
  split.
  - apply (scheme_prepended Sample.tables (Sample.world Sample.page [])
                            (Sample.world Sample.page [])
                            (lit "example.com/a?b=http://c"));
      vm_compute; reflexivity.
  - apply (scheme_prepended Sample.tables (Sample.world Sample.page [])
                            (Sample.world Sample.page [])
                            (lit "http://example.com")).
    left. vm_compute. reflexivity.
Defined.

(** ** The limit on the body *)

Lemma take_firstn (l : gostring) :
  forall n, io.take n l = firstn (Z.to_nat n) l.
Proof.
  induction l as [|b l IH]; intros n; simpl.
  - now rewrite firstn_nil.
  - destruct (n <=? 0) eqn:E.
    + apply Z.leb_le in E. replace (Z.to_nat n) with O by lia. reflexivity.
    + apply Z.leb_gt in E. replace (Z.to_nat n) with (S (Z.to_nat (n - 1))) by lia.
      simpl. now rewrite IH.
Qed.

Lemma reaches_length (l : gostring) :
  forall n, io.reaches n l = true <-> n <= Z.of_nat (length l).
Proof.
  induction l as [|b l IH]; intros n; simpl.
  - destruct (n <=? 0) eqn:E.
    + apply Z.leb_le in E. split; [lia | reflexivity].
    + apply Z.leb_gt in E. split; [discriminate | lia].
  - destruct (n <=? 0) eqn:E.
    + apply Z.leb_le in E. split; [lia | reflexivity].
    + apply Z.leb_gt in E. rewrite IH. lia.
Qed.

(** What [io.ReadAll (io.LimitReader r n)] returns. *)
Lemma ReadAll_LimitReader (r : io.Reader) (n : Z) :
  io.ReadAll (io.LimitReader r n)
  = (firstn (Z.to_nat n) (io.data r),
     if io.reaches n (io.data r) then None else io.fail r).
Proof. unfold io.ReadAll, io.LimitReader; simpl. now rewrite take_firstn. Qed.

(** C6.  Of a response body the fetcher reads the first 2 MiB (2^21
    bytes) at most.  A body of 2 MiB or more is cut there without any
    error, whatever would have come next, and the title is extracted from
    its first 2 MiB only; a shorter body that ends without a read error is
    read whole. *)
Theorem body_limited_to_2MiB
        (T : html.Tables) (w : World) (rawURL : gostring) (resp : Response) :
  Get w (withScheme rawURL) = inl resp ->
  200 <= StatusCode resp < 300 ->
  let body := io.data (Body resp) in
  let read := io.ReadAll (io.LimitReader (Body resp) (Z.shiftl 2 20)) in
  Z.shiftl 2 20 = 2 ^ 21
  /\ fst read = firstn (Z.to_nat (2 ^ 21)) body
  /\ Z.of_nat (length (fst read)) <= 2 ^ 21
  /\ (2 ^ 21 <= Z.of_nat (length body) ->
      snd read = None
      /\ snd (fetchTitle T w rawURL)
         = extractTitle T (firstn (Z.to_nat (2 ^ 21)) body))
  /\ (Z.of_nat (length body) < 2 ^ 21 -> io.fail (Body resp) = None ->
      snd (fetchTitle T w rawURL) = extractTitle T body).
Proof.
  intros HG Hs body read.
  assert (H221 : Z.shiftl 2 20 = 2 ^ 21) by reflexivity.
  assert (Hread : read = (firstn (Z.to_nat (2 ^ 21)) body,
                          if io.reaches (2 ^ 21) body then None
                          else io.fail (Body resp)))
    by (unfold read; rewrite H221; apply ReadAll_LimitReader).
  split; [exact H221|]. split; [rewrite Hread; reflexivity|]. split.
  - rewrite Hread. cbn [fst]. rewrite length_firstn. lia.
  - split.
    + intros Hlong. apply reaches_length in Hlong.
      rewrite Hlong in Hread. split; [rewrite Hread; reflexivity|].
      rewrite (fetchTitle_served T w rawURL (firstn (Z.to_nat (2 ^ 21)) body));
        [reflexivity|].
      exists resp. split; [exact HG|]. split; [exact Hs|]. exact Hread.
    + intros Hshort Hfail.
      rewrite (fetchTitle_served T w rawURL body); [reflexivity|].
      exists resp. split; [exact HG|]. split; [exact Hs|].
      fold read. rewrite Hread, Hfail.
      rewrite firstn_all2 by lia. destruct (io.reaches _ _); reflexivity.
Qed.

(** No title element starts with a space. *)
Lemma FindSubmatch_spaces (n : nat) :
  regexp.FindSubmatch titlePattern (repeat x20 n) = [].
Proof. induction n as [|n IH]; [reflexivity | exact IH]. Qed.

Lemma bigBody_length : 2 ^ 21 <= Z.of_nat (length Sample.bigBody).
Proof. unfold Sample.bigBody. rewrite length_app, repeat_length. lia. Qed.

(** The title of the sample page lies beyond the first 2 MiB: the body
    is cut without error, and the title is not found. *)
Lemma body_limited_to_2MiB_witness :
  snd (io.ReadAll (io.LimitReader {| io.data := Sample.bigBody; io.fail := None |}
                                  (Z.shiftl 2 20))) = None
  /\ snd (fetchTitle Sample.tables (Sample.world Sample.bigBody []) (lit "example.com"))
     = extractTitle Sample.tables (firstn (Z.to_nat (2 ^ 21)) Sample.bigBody)
  /\ snd (fetchTitle Sample.tables (Sample.world Sample.bigBody []) (lit "example.com"))
     = ([], Some errTitleNotFound).
Proof.
  assert (Hs : 200 <= 200 < 300) by lia.
  pose proof (body_limited_to_2MiB
                Sample.tables (Sample.world Sample.bigBody []) (lit "example.com")
                {| StatusCode := 200; Status := lit "200 OK";
                   Body := {| io.data := Sample.bigBody; io.fail := None |} |}
                eq_refl Hs)
    as H.
  cbv zeta in H. cbn [Body io.data] in H.
  destruct H as (_ & _ & _ & Hlong & _).
  destruct (Hlong bigBody_length) as [Hnone Hfetch].
  split; [exact Hnone|]. split; [exact Hfetch|].
  rewrite Hfetch. unfold Sample.bigBody.
  rewrite firstn_app, repeat_length, Nat.sub_diag, firstn_O, app_nil_r.
  rewrite firstn_all2 by (rewrite repeat_length; lia).
  unfold extractTitle. rewrite FindSubmatch_spaces. reflexivity.
Defined.


(** ** The title pattern *)

Section Matcher.

Import regexp.

Variable k : gostring -> option result.

Lemma greedyNot_inv (c : byte) (s m : gostring) (g : option gostring) :
  greedyNot c k s = Some (m, g) ->
  exists attrs s' m',
    s = attrs ++ s' /\ m = attrs ++ m'
    /\ Forall (fun b => b <> c) attrs /\ k s' = Some (m', g).
Proof.
  revert m; induction s as [|b s IH]; intros m H; simpl in H.
  - exists [], [], m. now repeat split.
  - destruct (Byte.eqb b c) eqn:E.
    + exists [], (b :: s), m. now repeat split.
    + destruct (greedyNot c k s) as [[m1 g1]|] eqn:E1.
      * injection H as <- <-.
        destruct (IH m1 eq_refl) as (attrs & s' & m' & -> & -> & Hall & Hk).
        exists (b :: attrs), s', m'. repeat split; try assumption.
        constructor; [|exact Hall]. intros ->.
        now rewrite (Byte.byte_dec_lb eq_refl) in E.
      * exists [], (b :: s), m. now repeat split.
Qed.

Lemma greedyNot_complete (c : byte) (attrs s' : gostring) :
  Forall (fun b => b <> c) attrs -> k s' <> None ->
  greedyNot c k (attrs ++ s') <> None.
Proof.
  intros Hall Hk. induction Hall as [|b attrs Hb _ IH]; simpl.
  - destruct s' as [|b s']; [exact Hk|]. simpl.
    destruct (Byte.eqb b c); [exact Hk|].
    destruct (greedyNot c k s') as [[m g]|]; [discriminate | exact Hk].
  - destruct (Byte.eqb b c) eqn:E.
    + apply byte_eqb_eq in E. contradiction.
    + destruct (greedyNot c k (attrs ++ s')) as [[m g]|]; [discriminate|].
      now contradiction IH.
Qed.

Lemma lazyAny_inv (s cap : gostring) (r : result) :
  lazyAny k s = Some (cap, r) ->
  exists s', s = cap ++ s' /\ k s' = Some r
             /\ forall n, (n < length cap)%nat -> k (skipn n s) = None.
Proof.
  revert cap; induction s as [|b s IH]; intros cap H; simpl in H.
  - destruct (k []) eqn:E; [|discriminate]. injection H as <- <-.
    exists []. repeat split; [exact E|]. simpl; lia.
  - destruct (k (b :: s)) eqn:E.
    + injection H as <- <-. exists (b :: s). repeat split; [exact E|]. simpl; lia.
    + destruct (lazyAny k s) as [[cap1 r1]|] eqn:E1; [|discriminate].
      injection H as <- <-.
      destruct (IH cap1 eq_refl) as (s' & -> & Hk & Hmin).
      exists s'. repeat split; [exact Hk|].
      intros [|n] Hn; [exact E|]. simpl in Hn. simpl. apply Hmin. lia.
Qed.

Lemma lazyAny_complete (inner s' : gostring) :
  k s' <> None -> lazyAny k (inner ++ s') <> None.
Proof.
  intros Hk. induction inner as [|b inner IH]; simpl.
  - destruct s' as [|b s']; simpl; destruct (k _); try discriminate;
      now contradiction Hk.
  - destruct (k (b :: inner ++ s')); [discriminate|].
    destruct (lazyAny k (inner ++ s')) as [[cap r]|]; [discriminate|].
    now contradiction IH.
Qed.

End Matcher.

Lemma fold_eqb_lower (b c : byte) :
  regexp.fold_eqb b c = true <-> regexp.lower b = regexp.lower c.
Proof. unfold regexp.fold_eqb. apply byte_eqb_eq. Qed.

(** Only ['>'] folds to ['>']. *)
Lemma fold_eqb_gt (b : byte) : regexp.fold_eqb b ">"%byte = true -> b = ">"%byte.
Proof. destruct b; vm_compute; intros H; try reflexivity; discriminate H. Qed.

Lemma matchHere_chr_inv (c : byte) (p : list regexp.atom)
      (s m : gostring) (g : option gostring) :
  regexp.matchHere (regexp.Chr c :: p) s = Some (m, g) ->
  exists b s' m',
    s = b :: s' /\ m = b :: m' /\ regexp.fold_eqb b c = true
    /\ regexp.matchHere p s' = Some (m', g).
Proof.
  simpl. destruct s as [|b s']; [discriminate|].
  destruct (regexp.fold_eqb b c) eqn:E; [|discriminate].
  destruct (regexp.matchHere p s') as [[m' g']|] eqn:E'; [|discriminate].
  intros H; injection H as <- <-. now exists b, s', m'.
Qed.

Lemma matchHere_star (c : byte) (p : list regexp.atom) (s : gostring) :
  regexp.matchHere (regexp.StarNot c :: p) s
  = regexp.greedyNot c (regexp.matchHere p) s.
Proof. reflexivity. Qed.

Lemma matchHere_cap (p : list regexp.atom) (s : gostring) :
  regexp.matchHere (regexp.CapLazyAny :: p) s
  = match regexp.lazyAny (regexp.matchHere p) s with
    | Some (cap, (m, _)) => Some (cap ++ m, Some cap)
    | None => None
    end.
Proof. reflexivity. Qed.

(** A run of literals matches a text equal to it up to case. *)
Lemma matchHere_chrs_inv (lits : gostring) (p : list regexp.atom) :
  forall (s m : gostring) (g : option gostring),
    regexp.matchHere (map regexp.Chr lits ++ p) s = Some (m, g) ->
    exists o s' m',
      s = o ++ s' /\ m = o ++ m' /\ Spec.foldEq o lits
      /\ regexp.matchHere p s' = Some (m', g).
Proof.
  induction lits as [|c lits IH]; intros s m g H.
  - exists [], s, m. now repeat split.
  - apply matchHere_chr_inv in H as (b & s1 & m1 & -> & -> & Hb & H1).
    apply IH in H1 as (o & s' & m' & -> & -> & Ho & Hp).
    exists (b :: o), s', m'. repeat split; [|exact Hp].
    unfold Spec.foldEq in *; simpl. apply fold_eqb_lower in Hb. congruence.
Qed.

Lemma matchHere_chrs (lits : gostring) (p : list regexp.atom) :
  forall (o s' : gostring),
    Spec.foldEq o lits ->
    regexp.matchHere (map regexp.Chr lits ++ p) (o ++ s')
    = match regexp.matchHere p s' with
      | Some (m', g) => Some (o ++ m', g)
      | None => None
      end.
Proof.
  induction lits as [|c lits IH]; intros o s' Ho.
  - destruct o; [|discriminate Ho]. simpl.
    now destruct (regexp.matchHere p s') as [[m' g]|].
  - destruct o as [|b o]; [discriminate Ho|].
    unfold Spec.foldEq in Ho; simpl in Ho. injection Ho as Hb Ho.
    apply fold_eqb_lower in Hb. simpl. rewrite Hb.
    rewrite (IH o s' Ho). now destruct (regexp.matchHere p s') as [[m' g]|].
Qed.

(** The closing tag matches exactly at a text that starts with
    [</title>] in some case. *)
Lemma closing_tag_matches (s : gostring) :
  regexp.matchHere (map regexp.Chr (lit "</title>")) s <> None
  <-> exists close post, s = close ++ post /\ Spec.foldEq close (lit "</title>").
Proof.
  split.
  - destruct (regexp.matchHere _ s) as [[m g]|] eqn:E; [intros _ | congruence].
    rewrite <- (app_nil_r (map _ _)) in E.
    apply matchHere_chrs_inv in E as (o & s' & m' & -> & _ & Ho & _).
    now exists o, s'.
  - intros (close & post & -> & Hc).
    rewrite <- (app_nil_r (map _ _)), (matchHere_chrs _ _ _ _ Hc). discriminate.
Qed.

(** The pattern split at its atoms. *)
Lemma titlePattern_eq :
  titlePattern
  = map regexp.Chr (lit "<title")
    ++ regexp.StarNot ">"%byte :: regexp.Chr ">"%byte :: regexp.CapLazyAny
    :: map regexp.Chr (lit "</title>").
Proof. reflexivity. Qed.

(** What a match of the pattern at the start of [s] looks like: a title
    element, and no closing tag inside its inner text. *)
Lemma matchHere_title_inv (s m : gostring) (g : option gostring) :
  regexp.matchHere titlePattern s = Some (m, g) ->
  exists open attrs inner close post,
    s = m ++ post
    /\ m = open ++ attrs ++ [">"%byte] ++ inner ++ close
    /\ g = Some inner
    /\ Spec.foldEq open (lit "<title")
    /\ Forall (fun b => b <> ">"%byte) attrs
    /\ Spec.foldEq close (lit "</title>")
    /\ forall n, (n < length inner)%nat ->
         regexp.matchHere (map regexp.Chr (lit "</title>"))
                          (skipn n (inner ++ close ++ post)) = None.
Proof.
  rewrite titlePattern_eq. intros H.
  apply matchHere_chrs_inv in H as (open & s1 & m1 & -> & -> & Hopen & H).
  rewrite matchHere_star in H.
  apply greedyNot_inv in H as (attrs & s2 & m2 & -> & -> & Hattrs & H).
  apply matchHere_chr_inv in H as (b & s3 & m3 & -> & -> & Hb & H).
  apply fold_eqb_gt in Hb. subst b.
  rewrite matchHere_cap in H.
  destruct (regexp.lazyAny _ s3) as [[inner [m4 g4]]|] eqn:E; [|discriminate].
  injection H as <- <-.
  apply lazyAny_inv in E as (s4 & -> & Hclose & Hmin).
  rewrite <- (app_nil_r (map _ _)) in Hclose.
  apply matchHere_chrs_inv in Hclose as (close & post & m5 & -> & -> & Hc & H5).
  simpl in H5. injection H5 as <-.
  exists open, attrs, inner, close, post.
  rewrite app_nil_r. repeat split; try assumption.
  repeat (rewrite <- app_assoc || rewrite <- app_comm_cons). reflexivity.
Qed.

Lemma matchHere_title_complete (m inner post : gostring) :
  Spec.titleElement m inner ->
  regexp.matchHere titlePattern (m ++ post) <> None.
Proof.
  intros (open & attrs & close & -> & Hopen & Hattrs & Hclose).
  rewrite titlePattern_eq.
  repeat (rewrite <- app_assoc || rewrite <- app_comm_cons).
  rewrite (matchHere_chrs _ _ _ _ Hopen), matchHere_star.
  assert (Hrest : regexp.greedyNot ">"%byte
            (regexp.matchHere (regexp.Chr ">"%byte :: regexp.CapLazyAny
                               :: map regexp.Chr (lit "</title>")))
            (attrs ++ [">"%byte] ++ inner ++ close ++ post) <> None).
  { apply greedyNot_complete; [exact Hattrs|].
    cbn [app]. 
    change (regexp.matchHere (regexp.Chr ">"%byte :: ?p) (">"%byte :: ?t))
      with (match regexp.matchHere p t with
            | Some (m, g) => Some (">"%byte :: m, g)
            | None => None
            end).
    rewrite matchHere_cap.
    assert (Hlazy : regexp.lazyAny
              (regexp.matchHere (map regexp.Chr (lit "</title>")))
              (inner ++ close ++ post) <> None).
    { apply lazyAny_complete, closing_tag_matches. now exists close, post. }
    destruct (regexp.lazyAny _ _) as [[cap [m' g']]|]; [discriminate|].
    now contradiction Hlazy. }
  destruct (regexp.greedyNot _ _ _) as [[m' g']|]; [discriminate|].
  now contradiction Hrest.
Qed.

(** ** The leftmost match *)

Lemma FindSubmatch_nil (p : list regexp.atom) (body : gostring) :
  regexp.FindSubmatch p body = [] <->
  forall pre rest, body = pre ++ rest -> regexp.matchHere p rest = None.
Proof.
  induction body as [|b body IH]; simpl.
  - destruct (regexp.matchHere p []) as [[m g]|] eqn:E.
    + split; [discriminate|]. intros H. now rewrite (H [] []) in E.
    + split; [|reflexivity]. intros _ pre rest H.
      symmetry in H. apply app_eq_nil in H as [_ ->]. exact E.
  - destruct (regexp.matchHere p (b :: body)) as [[m g]|] eqn:E.
    + split; [discriminate|]. intros H. now rewrite (H [] (b :: body)) in E.
    + rewrite IH. split; intros H pre rest Hb.
      * destruct pre as [|b' pre]; simpl in Hb.
        -- now subst rest.
        -- injection Hb as _ ->. now apply (H pre).
      * apply (H (b :: pre)). simpl. now rewrite Hb.
Qed.

Lemma FindSubmatch_found (p : list regexp.atom) (body : gostring) :
  regexp.FindSubmatch p body <> [] ->
  exists pre rest m g,
    body = pre ++ rest
    /\ regexp.matchHere p rest = Some (m, g)
    /\ regexp.FindSubmatch p body = [m; match g with Some c => c | None => [] end]
    /\ forall pre1 rest1, body = pre1 ++ rest1 ->
         (length pre1 < length pre)%nat -> regexp.matchHere p rest1 = None.
Proof.
  induction body as [|b body IH]; simpl.
  - destruct (regexp.matchHere p []) as [[m g]|] eqn:E; [intros _ | congruence].
    exists [], [], m, g. repeat split; [exact E|]. simpl; lia.
  - destruct (regexp.matchHere p (b :: body)) as [[m g]|] eqn:E.
    + intros _. exists [], (b :: body), m, g. repeat split; [exact E|]. simpl; lia.
    + intros H. destruct (IH H) as (pre & rest & m & g & -> & Hm & Hf & Hleft).
      exists (b :: pre), rest, m, g. repeat split; try assumption.
      intros [|b1 pre1] rest1 Hb Hlen; simpl in Hb.
      * now subst rest1.
      * injection Hb as _ Hb. simpl in Hlen. apply (Hleft pre1); [exact Hb | lia].
Qed.

(** ** Lists *)

Lemma app_eq_same_length {A} (a b x y : list A) :
  a ++ x = b ++ y -> length a = length b -> a = b /\ x = y.
Proof.
  revert b; induction a as [|u a IH]; intros [|v b] H Hlen;
    simpl in *; try discriminate.
  - now split.
  - injection H as -> H. injection Hlen as Hlen.
    destruct (IH b H Hlen) as [-> ->]. now split.
Qed.

Lemma app_eq_first {A} (c : A) (a b x y : list A) :
  Forall (fun u => u <> c) a -> Forall (fun u => u <> c) b ->
  a ++ c :: x = b ++ c :: y -> a = b /\ x = y.
Proof.
  intros Ha; revert b; induction Ha as [|u a Hu _ IH]; intros b Hb H.
  - destruct Hb as [|v b Hv _]; simpl in H.
    + injection H as ->. now split.
    + injection H as <- _. contradiction.
  - destruct Hb as [|v b Hv Hb]; simpl in H.
    + injection H as -> _. contradiction.
    + injection H as -> H. destruct (IH b Hb H) as [-> ->]. now split.
Qed.

Lemma skipn_length_app {A} (a x : list A) : skipn (length a) (a ++ x) = x.
Proof. induction a; simpl; [reflexivity | assumption]. Qed.

Lemma foldEq_length (a b : gostring) : Spec.foldEq a b -> length a = length b.
Proof.
  intros H. apply (f_equal (@length byte)) in H. now rewrite !length_map in H.
Qed.

(** ** The first title element *)

Lemma FindSubmatch_title_none (body : gostring) :
  regexp.FindSubmatch titlePattern body = [] <-> ~ Spec.containsTitle body.
Proof.
  rewrite FindSubmatch_nil. split.
  - intros H (pre & m & inner & post & -> & Hel).
    apply (matchHere_title_complete m inner post Hel). now apply (H pre).
  - intros H pre rest ->.
    destruct (regexp.matchHere titlePattern rest) as [[m g]|] eqn:E; [|reflexivity].
    exfalso. apply H.
    apply matchHere_title_inv in E
      as (open & attrs & inner & close & post & -> & Hm & _ & Ho & Ha & Hc & _).
    exists pre, m, inner, post. split; [reflexivity|].
    now exists open, attrs, close.
Qed.

(** Two title elements that start at the same place have the same
    opening tag; their inner texts start at the same place. *)
Lemma titleElement_same_start
      (open attrs inner close post m' inner' post' : gostring) :
  open ++ attrs ++ [">"%byte] ++ inner ++ close ++ post = m' ++ post' ->
  Spec.foldEq open (lit "<title") ->
  Forall (fun b => b <> ">"%byte) attrs ->
  Spec.titleElement m' inner' ->
  exists close',
    m' = open ++ attrs ++ [">"%byte] ++ inner' ++ close'
    /\ inner ++ close ++ post = inner' ++ close' ++ post'
    /\ Spec.foldEq close' (lit "</title>").
Proof.
  intros H Ho Ha (open' & attrs' & close' & -> & Ho' & Ha' & Hc').
  repeat (rewrite <- app_assoc in H || rewrite <- app_comm_cons in H).
  apply app_eq_same_length in H as [<- H];
    [|now rewrite (foldEq_length _ _ Ho), (foldEq_length _ _ Ho')].
  simpl in H. apply app_eq_first in H as [<- H]; try assumption.
  exists close'. now repeat split.
Qed.

Lemma FindSubmatch_title_first (body m inner : gostring) :
  regexp.FindSubmatch titlePattern body = [m; inner] ->
  Spec.firstTitle body m inner.
Proof.
  intros H.
  destruct (FindSubmatch_found titlePattern body) as
      (pre & rest & m0 & g & -> & Hm & Hf & Hleft); [congruence|].
  rewrite Hf in H. injection H as -> Hg.
  pose proof Hm as Hinv.
  apply matchHere_title_inv in Hinv
    as (open & attrs & inner0 & close & post & -> & Hm0 & -> & Ho & Ha & Hc & Hmin).
  subst inner0.
  assert (Hel : Spec.titleElement m inner) by now exists open, attrs, close.
  exists pre, post. repeat split; try assumption.
  - intros pre' m' inner' post' Hb Hel'.
    destruct (Nat.le_gt_cases (length pre) (length pre')) as [Hle | Hlt];
      [exact Hle | exfalso].
    apply (matchHere_title_complete m' inner' post' Hel').
    now apply (Hleft pre').
  - intros m' inner' post' Hs Hel'.
    destruct (Nat.le_gt_cases (length inner) (length inner')) as [Hle | Hlt];
      [exact Hle | exfalso].
    rewrite Hm0 in Hs.
    repeat (rewrite <- app_assoc in Hs || rewrite <- app_comm_cons in Hs).
    destruct (titleElement_same_start _ _ _ _ _ _ _ _ Hs Ho Ha Hel')
      as (close' & _ & Heq & Hc').
    cbn [app] in Heq.
    specialize (Hmin (length inner') Hlt).
    rewrite Heq, skipn_length_app in Hmin.
    revert Hmin. apply closing_tag_matches. now exists close', post'.
Qed.

Lemma firstTitle_unique (body m inner m' inner' : gostring) :
  Spec.firstTitle body m inner -> Spec.firstTitle body m' inner' ->
  m = m' /\ inner = inner'.
Proof.
  intros (pre & post & -> & Hel & Hleft & Hshort)
         (pre' & post' & Hb & Hel' & Hleft' & Hshort').
  pose proof (Hleft _ _ _ _ Hb Hel') as H1.
  pose proof (Hleft' _ _ _ _ eq_refl Hel) as H2.
  apply app_eq_same_length in Hb as [<- Hb]; [|lia].
  pose proof (Hshort _ _ _ Hb Hel') as H3.
  pose proof (Hshort' _ _ _ (eq_sym Hb) Hel) as H4.
  destruct Hel as (open & attrs & close & -> & Ho & Ha & Hc).
  repeat (rewrite <- app_assoc in Hb || rewrite <- app_comm_cons in Hb).
  destruct (titleElement_same_start _ _ _ _ _ _ _ _ Hb Ho Ha Hel')
    as (close' & -> & Heq & Hc').
  cbn [app] in Heq.
  apply app_eq_same_length in Heq as [<- Heq]; [|lia].
  apply app_eq_same_length in Heq as [<- _];
    [|now rewrite (foldEq_length _ _ Hc), (foldEq_length _ _ Hc')].
  now split.
Qed.

(** [FindSubmatch] finds the first title element of the body. *)
Lemma FindSubmatch_title (body m inner : gostring) :
  regexp.FindSubmatch titlePattern body = [m; inner]
  <-> Spec.firstTitle body m inner.
Proof.
  split; [apply FindSubmatch_title_first|]. intros Hfirst.
  destruct (FindSubmatch_found titlePattern body)
    as (pre & rest & m0 & g & _ & _ & Hf & _).
  - intros Hnil. apply FindSubmatch_title_none in Hnil. apply Hnil.
    destruct Hfirst as (pre & post & -> & Hel & _).
    now exists pre, m, inner, post.
  - rewrite Hf. apply FindSubmatch_title_first in Hf.
    destruct (firstTitle_unique _ _ _ _ _ Hf Hfirst) as [-> ->]. reflexivity.
Qed.

(** ** White space in the title *)

Lemma trimRight_keep (r : Z) (bs : gostring) (rs : list (Z * gostring)) :
  unicode.IsSpace r = false ->
  strings.trimRight ((r, bs) :: rs) = (r, bs) :: strings.trimRight rs.
Proof. intros H. simpl. rewrite H. now destruct (strings.trimRight rs). Qed.

Lemma fieldsFrom_some (w : gostring) (rs : list (Z * gostring)) :
  strings.fieldsFrom (Some w) rs <> [].
Proof.
  revert w; induction rs as [|[r bs] rs IH]; intros w; simpl; [discriminate|].
  destruct (unicode.IsSpace r); [discriminate | apply IH].
Qed.

(** After a space, the collapsed text starts with the next field. *)
Lemma trimLeft_collapse (rs : list (Z * gostring)) :
  strings.trimLeft (Spec.collapse false rs) = Spec.collapse true rs.
Proof.
  assert (Hrun : forall rs',
             strings.trimLeft (Spec.collapse true rs') = Spec.collapse true rs').
  { induction rs' as [|[r bs] rs' IH]; simpl; [reflexivity|].
    destruct (unicode.IsSpace r) eqn:E; [exact IH|]. simpl. now rewrite E. }
  destruct rs as [|[r bs] rs]; simpl; [reflexivity|].
  destruct (unicode.IsSpace r) eqn:E; simpl.
  - apply Hrun.
  - now rewrite E.
Qed.

(** The fields joined by single spaces are the collapsed text without
    its trailing space; [w] is the field being read. *)
Lemma fields_collapse (rs : list (Z * gostring)) :
  (strings.Join (strings.fieldsFrom None rs) [x20]
   = strings.bytes_of (strings.trimRight (Spec.collapse true rs))
   /\ (strings.fieldsFrom None rs = []
       <-> strings.trimRight (Spec.collapse true rs) = []))
  /\ (forall w,
        strings.Join (strings.fieldsFrom (Some w) rs) [x20]
        = w ++ strings.bytes_of (strings.trimRight (Spec.collapse false rs))).
Proof.
  induction rs as [|[r bs] rs [[IHjoin IHnil] IHword]].
  - simpl. repeat split; intros; now rewrite ?app_nil_r.
  - cbn [strings.fieldsFrom Spec.collapse].
    destruct (unicode.IsSpace r) eqn:E.
    + split; [now split|]. intros w.
      cbn [strings.trimRight].
      change (unicode.IsSpace 32) with true.
      destruct (strings.trimRight (Spec.collapse true rs)) as [|kept rest] eqn:Ek.
      * rewrite (proj2 IHnil eq_refl). simpl. now rewrite app_nil_r.
      * destruct (strings.fieldsFrom None rs) as [|f fs] eqn:Ef.
        -- now discriminate (proj1 IHnil eq_refl).
        -- change (strings.Join (w :: f :: fs) [x20])
             with (w ++ [x20] ++ strings.Join (f :: fs) [x20]).
           rewrite IHjoin. reflexivity.
    + rewrite !trimRight_keep by exact E. split; [split|].
      * rewrite IHword. reflexivity.
      * split; intros H; [|discriminate H].
        now contradiction (fieldsFrom_some bs rs).
      * intros w. rewrite IHword. unfold strings.bytes_of; simpl.
        now rewrite app_assoc.
Qed.

(** What [strings.Join(strings.Fields(title), " ")] computes is the
    text with its white space runs collapsed and its ends trimmed. *)
Lemma Join_Fields_normalize (s : gostring) :
  strings.Join (strings.Fields s) (lit " ") = Spec.normalize s.
Proof.
  unfold strings.Fields, Spec.normalize. rewrite trimLeft_collapse.
  apply fields_collapse.
Qed.

(** ** Entities *)

(** A reference consumes at least its ['&']. *)
Lemma unescapeEntity_consumed (T : html.Tables) (s : gostring) :
  (1 <= snd (html.unescapeEntity T s))%nat.
Proof.
  unfold html.unescapeEntity.
  destruct (length s <=? 1)%nat; [simpl; lia|].
  destruct (Byte.eqb (nth 1 s x00) "#"%byte).
  - destruct (length s <=? 3)%nat; [simpl; lia|].
    destruct (html.scanNumber _ 0 _) as [x n].
    destruct (_ <=? 3)%nat eqn:E; [simpl; lia|].
    apply Nat.leb_gt in E. simpl. lia.
  - destruct (length _ =? 0)%nat; [simpl; lia|].
    destruct (negb _); [simpl; lia|].
    destruct (negb _); [simpl; lia|].
    destruct (html.longestPrefix _ _ _) as [[x j]|]; simpl; lia.
Qed.

(** More fuel than the length of the text changes nothing. *)
Lemma unescapeFrom_fuel (T : html.Tables) (f1 : nat) :
  forall (f2 : nat) (s : gostring),
    (length s <= f1)%nat -> (length s <= f2)%nat ->
    html.unescapeFrom T f1 s = html.unescapeFrom T f2 s.
Proof.
  induction f1 as [|f1 IH]; intros f2 s H1 H2.
  - destruct s; [|simpl in H1; lia]. now destruct f2.
  - destruct s as [|c s]; [now destruct f2|].
    destruct f2 as [|f2]; [simpl in H2; lia|].
    simpl in H1, H2. cbn [html.unescapeFrom].
    destruct (Byte.eqb c "&"%byte).
    + pose proof (unescapeEntity_consumed T (c :: s)) as Hn.
      destruct (html.unescapeEntity T (c :: s)) as [out n]. simpl in Hn.
      f_equal. apply IH; rewrite length_skipn; cbn [length]; lia.
    + f_equal. apply IH; lia.
Qed.

(** Text without ['&'] is left as it is. *)
Lemma unescapeFrom_plain (T : html.Tables) (t s : gostring) :
  Forall (fun b => b <> "&"%byte) t ->
  forall fuel, (length t <= fuel)%nat ->
    html.unescapeFrom T fuel (t ++ s) = t ++ html.unescapeFrom T (fuel - length t) s.
Proof.
  induction 1 as [|c t Hc _ IH]; intros fuel Hf; simpl.
  - now rewrite Nat.sub_0_r.
  - destruct fuel as [|fuel]; [simpl in Hf; lia|]. simpl in Hf.
    cbn [html.unescapeFrom Nat.sub].
    destruct (Byte.eqb c "&"%byte) eqn:E.
    + apply byte_eqb_eq in E. contradiction.
    + f_equal. apply IH. lia.
Qed.

Lemma UnescapeString_plain (T : html.Tables) (t : gostring) :
  Forall (fun b => b <> "&"%byte) t -> html.UnescapeString T t = t.
Proof.
  intros H. unfold html.UnescapeString.
  rewrite <- (app_nil_r t) at 2. rewrite (unescapeFrom_plain T t [] H) by lia.
  rewrite Nat.sub_diag. simpl. now rewrite app_nil_r.
Qed.

(** [&amp;] is replaced by ['&']. *)
Lemma unescapeEntity_amp (T : html.Tables) (t : gostring) :
  html.entity T (lit "amp;") = 38 ->
  html.unescapeEntity T (lit "&amp;" ++ t) = (["&"%byte], 5%nat).
Proof.
  intros H.
  let v := eval vm_compute in (lit "amp;") in change (lit "amp;") with v in H.
  let v := eval vm_compute in (lit "&amp;") in change (lit "&amp;") with v.
  unfold html.unescapeEntity.
  cbn [app length Nat.leb nth skipn firstn html.scanName].
  change (Byte.eqb "a" "#") with false.
  change (html.isAlnum "a") with true.
  change (html.isAlnum "m") with true.
  change (html.isAlnum "p") with true.
  change (html.isAlnum ";") with false.
  change (Byte.eqb ";" ";") with true.
  cbn [firstn skipn length Nat.eqb].
  rewrite H. reflexivity.
Qed.

Lemma UnescapeString_amp (T : html.Tables) (t1 t2 : gostring) :
  html.entity T (lit "amp;") = 38 ->
  Forall (fun b => b <> "&"%byte) t1 ->
  html.UnescapeString T (t1 ++ lit "&amp;" ++ t2)
  = t1 ++ lit "&" ++ html.UnescapeString T t2.
Proof.
  intros Hamp Ht1. unfold html.UnescapeString.
  rewrite (unescapeFrom_plain T t1 _ Ht1) by (rewrite length_app; lia).
  f_equal. rewrite !length_app.
  replace (length t1 + (length (lit "&amp;") + length t2) - length t1)%nat
    with (S (4 + length t2)) by (change (length (lit "&amp;")) with 5%nat; lia).
  change (lit "&amp;" ++ t2) with ("&"%byte :: (lit "amp;" ++ t2)) at 1.
  cbn [html.unescapeFrom]. change (Byte.eqb "&" "&") with true. cbv iota.
  change ("&"%byte :: (lit "amp;" ++ t2)) with (lit "&amp;" ++ t2).
  rewrite (unescapeEntity_amp T t2 Hamp).
  change (skipn 5 (lit "&amp;" ++ t2)) with t2.
  change (lit "&") with ["&"%byte]. cbn [app]. f_equal.
  apply unescapeFrom_fuel; lia.
Qed.

(** The scan of a reference stops at the next ['&'] at the latest. *)
Lemma scanNumber_stop (hex : bool) (a rest : gostring) :
  forall x, (snd (html.scanNumber hex x (a ++ "&"%byte :: rest)) <= length a)%nat.
Proof.
  induction a as [|c a IH]; intros x.
  - destruct hex; reflexivity.
  - cbn [app html.scanNumber length].
    repeat match goal with
           | |- context [if ?b then _ else _] => destruct b
           | |- context [html.scanNumber hex ?y (a ++ ?r)] =>
             let H := fresh in
             pose proof (IH y) as H;
             destruct (html.scanNumber hex y (a ++ r)) as [? ?]
           end; cbn [snd] in *; lia.
Qed.

Lemma scanName_stop (a rest : gostring) :
  (html.scanName (a ++ "&"%byte :: rest) <= length a)%nat.
Proof.
  induction a as [|c a IH]; [reflexivity|].
  cbn [app html.scanName length].
  destruct (html.isAlnum c); [lia|]. destruct (Byte.eqb c ";"%byte); lia.
Qed.

Lemma longestPrefix_bound (T : html.Tables) (name : gostring) (j : nat) :
  forall x k, html.longestPrefix T name j = Some (x, k) -> (k <= j)%nat.
Proof.
  induction j as [|j IH]; intros x k H; [discriminate|].
  cbn [html.longestPrefix] in H.
  destruct (S j <=? 1)%nat; [discriminate|].
  destruct (html.entity T (firstn (S j) name) =? 0).
  - apply IH in H. lia.
  - injection H as _ <-. lia.
Qed.

Lemma unescapeEntity_within (T : html.Tables) (t rest : gostring) :
  (snd (html.unescapeEntity T ("&"%byte :: t ++ "&"%byte :: rest)) <= S (length t))%nat.
Proof.
  unfold html.unescapeEntity.
  destruct (length _ <=? 1)%nat; [cbn [snd]; lia|].
  destruct (Byte.eqb (nth 1 _ x00) "#"%byte) eqn:Ehash.
  - destruct t as [|c1 t]; [discriminate Ehash|].
    destruct (length _ <=? 3)%nat; [cbn [snd]; lia|].
    destruct t as [|c2 t].
    + cbn. lia.
    + cbn [app nth skipn length].
      destruct (Byte.eqb c2 "x"%byte || Byte.eqb c2 "X"%byte).
      * pose proof (scanNumber_stop true t rest 0) as Hn.
        cbn [skipn]. destruct (html.scanNumber true 0 _) as [x n].
        cbn [snd] in Hn. destruct (_ <=? 3)%nat; cbn [snd]; lia.
      * pose proof (scanNumber_stop false (c2 :: t) rest 0) as Hn.
        cbn [skipn]. cbn [app] in Hn.
        destruct (html.scanNumber false 0 _) as [x n].
        cbn [snd length] in Hn. destruct (_ <=? 3)%nat; cbn [snd]; lia.
  - cbn [skipn].
    pose proof (scanName_stop t rest) as Hn.
    remember (S (html.scanName (t ++ "&"%byte :: rest))) as i eqn:Hi.
    remember ("&"%byte :: t ++ "&"%byte :: rest) as s eqn:Hs.
    destruct (length _ =? 0)%nat; [cbn [snd]; lia|].
    destruct (negb _); [cbn [snd]; lia|].
    destruct (negb _); [cbn [snd]; lia|].
    destruct (html.longestPrefix _ _ _) as [[x j]|] eqn:El; [|cbn [snd]; lia].
    apply longestPrefix_bound in El. cbn [snd].
    assert (length (skipn 1 (firstn i s)) <= i - 1)%nat
      by (rewrite length_skipn, length_firstn; lia).
    change (match firstn i s with [] => [] | _ :: l => l end)
      with (skipn 1 (firstn i s)) in El.
    lia.
Qed.

(** Whatever comes before it, [&amp;] is replaced by ['&']. *)
Lemma unescapeFrom_amp (T : html.Tables) (t2 : gostring) (n : nat) :
  html.entity T (lit "amp;") = 38 ->
  forall (t1 : gostring) (fuel : nat),
    (length t1 < n)%nat -> (length t1 + 5 + length t2 <= fuel)%nat ->
    exists done,
      html.unescapeFrom T fuel (t1 ++ lit "&amp;" ++ t2)
      = done ++ "&"%byte :: html.UnescapeString T t2.
Proof.
  intros Hamp. induction n as [|n IH]; intros t1 fuel Hn Hfuel; [lia|].
  destruct fuel as [|fuel]; [lia|].
  destruct t1 as [|c t1].
  - exists []. cbn [app].
    change (lit "&amp;" ++ t2) with ("&"%byte :: (lit "amp;" ++ t2)) at 1.
    cbn [html.unescapeFrom]. change (Byte.eqb "&" "&") with true. cbv iota.
    change ("&"%byte :: (lit "amp;" ++ t2)) with (lit "&amp;" ++ t2).
    rewrite (unescapeEntity_amp T t2 Hamp).
    change (skipn 5 (lit "&amp;" ++ t2)) with t2. cbn [app]. f_equal.
    apply unescapeFrom_fuel; simpl in Hfuel; lia.
  - cbn [app html.unescapeFrom length] in *.
    destruct (Byte.eqb c "&"%byte) eqn:Ec.
    + apply byte_eqb_eq in Ec. subst c.
      pose proof (unescapeEntity_within T t1 (lit "amp;" ++ t2)) as Hk.
      pose proof (unescapeEntity_consumed T ("&"%byte :: t1 ++ lit "&amp;" ++ t2)) as Hk1.
      change ("&"%byte :: lit "amp;" ++ t2) with (lit "&amp;" ++ t2) in Hk.
      destruct (html.unescapeEntity T _) as [out k]. cbn [snd] in Hk, Hk1.
      change ("&"%byte :: t1 ++ lit "&amp;" ++ t2)
        with (("&"%byte :: t1) ++ lit "&amp;" ++ t2).
      rewrite skipn_app.
      replace (k - length ("&"%byte :: t1))%nat with O by (cbn [length]; lia).
      cbn [skipn].
      destruct (IH (skipn k ("&"%byte :: t1)) fuel) as [done Hdone].
      * rewrite length_skipn. cbn [length]. lia.
      * rewrite length_skipn. cbn [length]. lia.
      * exists (out ++ done). rewrite Hdone. now rewrite app_assoc.
    + destruct (IH t1 fuel) as [done Hdone]; [lia | lia |].
      exists (c :: done). now rewrite Hdone.
Qed.

Lemma UnescapeString_amp_anywhere (T : html.Tables) (t1 t2 : gostring) :
  html.entity T (lit "amp;") = 38 ->
  In "&"%byte (html.UnescapeString T (t1 ++ lit "&amp;" ++ t2)).
Proof.
  intros Hamp.
  destruct (unescapeFrom_amp T t2 (S (length t1)) Hamp t1
                             (length (t1 ++ lit "&amp;" ++ t2)))
    as [done Hdone].
  - lia.
  - rewrite !length_app. change (length (lit "&amp;")) with 5%nat. lia.
  - unfold html.UnescapeString. rewrite Hdone.
    apply in_or_app. right. now left.
Qed.

(** ** ASCII characters survive the normalization *)

(** A byte below 128 is a rune of its own. *)
Lemma DecodeRune_ascii (b0 : byte) (t : gostring) (b : byte) :
  In b (firstn (snd (utf8.DecodeRune (b0 :: t))) (b0 :: t)) ->
  code b < 128 ->
  fst (utf8.DecodeRune (b0 :: t)) = code b.
Proof.
  unfold utf8.DecodeRune, utf8.in_range.
  repeat match goal with
         | |- context [if ?c then _ else _] => destruct c eqn:?
         | |- context [match ?l with [] => _ | _ :: _ => _ end] => destruct l
         end;
    cbn [fst snd firstn In]; intros Hin Hlt;
    repeat (destruct Hin as [<- | Hin]; [try reflexivity; try lia|]);
    try contradiction.
Qed.

Lemma runes_fuel_ascii (fuel : nat) :
  forall (s : gostring) (r : Z) (bs : gostring) (b : byte),
    In (r, bs) (utf8.runes_fuel fuel s) -> In b bs -> code b < 128 -> r = code b.
Proof.
  induction fuel as [|fuel IH]; intros s r bs b Hin Hb Hlt; simpl in Hin;
    [contradiction|].
  destruct s as [|b0 t]; [contradiction|].
  pose proof (DecodeRune_ascii b0 t b) as Hd.
  destruct (utf8.DecodeRune (b0 :: t)) as [r0 n]. simpl in Hd.
  destruct Hin as [Heq | Hin].
  - injection Heq as <- <-. now apply Hd.
  - now apply (IH _ _ _ _ Hin).
Qed.

(** The runes of a string are a partition of its bytes. *)
Lemma runes_fuel_bytes (fuel : nat) :
  forall (s : gostring), (length s <= fuel)%nat ->
    strings.bytes_of (utf8.runes_fuel fuel s) = s.
Proof.
  induction fuel as [|fuel IH]; intros s Hlen.
  - destruct s; [reflexivity | simpl in Hlen; lia].
  - destruct s as [|b0 t]; [reflexivity|]. cbn [utf8.runes_fuel].
    pose proof (DecodeRune_width b0 t) as Hw.
    destruct (utf8.DecodeRune (b0 :: t)) as [r n]. cbn [snd] in Hw.
    unfold strings.bytes_of in *. cbn [map concat snd].
    rewrite IH; [apply firstn_skipn|].
    rewrite length_skipn. simpl in Hlen. cbn [length]. lia.
Qed.

Lemma collapse_keeps (c : Z * gostring) (rs : list (Z * gostring)) :
  unicode.IsSpace (fst c) = false -> In c rs ->
  forall inRun, In c (Spec.collapse inRun rs).
Proof.
  intros Hc. induction rs as [|[r bs] rs IH]; intros Hin inRun; [contradiction|].
  cbn [Spec.collapse]. destruct Hin as [<- | Hin].
  - cbn [fst] in Hc. rewrite Hc. now left.
  - destruct (unicode.IsSpace r); [destruct inRun|]; try right; now apply IH.
Qed.

Lemma trimLeft_keeps (c : Z * gostring) (rs : list (Z * gostring)) :
  unicode.IsSpace (fst c) = false -> In c rs -> In c (strings.trimLeft rs).
Proof.
  intros Hc. induction rs as [|[r bs] rs IH]; intros Hin; [contradiction|].
  cbn [strings.trimLeft]. destruct (unicode.IsSpace r) eqn:E; [|exact Hin].
  destruct Hin as [<- | Hin]; [|now apply IH].
  cbn [fst] in Hc. congruence.
Qed.

Lemma trimRight_keeps (c : Z * gostring) (rs : list (Z * gostring)) :
  unicode.IsSpace (fst c) = false -> In c rs -> In c (strings.trimRight rs).
Proof.
  intros Hc. induction rs as [|[r bs] rs IH]; intros Hin; [contradiction|].
  cbn [strings.trimRight]. destruct Hin as [<- | Hin].
  - cbn [fst] in Hc. rewrite Hc.
    destruct (strings.trimRight rs); now left.
  - specialize (IH Hin). destruct (strings.trimRight rs); [contradiction|].
    now right.
Qed.

Lemma bytes_of_In (b : byte) (rs : list (Z * gostring)) :
  In b (strings.bytes_of rs) <-> exists r bs, In (r, bs) rs /\ In b bs.
Proof.
  unfold strings.bytes_of. rewrite in_concat. split.
  - intros (bs & Hbs & Hb). apply in_map_iff in Hbs as ([r bs'] & <- & Hin).
    now exists r, bs'.
  - intros (r & bs & Hin & Hb). exists bs. split; [|exact Hb].
    apply in_map_iff. now exists (r, bs).
Qed.

(** An ASCII character that is not white space is still there after the
    white space has been normalized. *)
Lemma normalize_keeps_ascii (s : gostring) (b : byte) :
  code b < 128 -> unicode.IsSpace (code b) = false ->
  In b s -> In b (Spec.normalize s).
Proof.
  intros Hlt Hns Hin. unfold Spec.normalize.
  rewrite <- (runes_fuel_bytes (length s) s (le_n _)) in Hin.
  apply bytes_of_In in Hin as (r & bs & Hrs & Hb).
  assert (r = code b) as -> by now apply (runes_fuel_ascii _ _ _ _ _ Hrs).
  apply bytes_of_In. exists (code b), bs. split; [|exact Hb].
  apply trimRight_keeps, trimLeft_keeps, collapse_keeps; try assumption.
Qed.

(** ** The fetcher: the title *)

Lemma extractTitle_none (T : html.Tables) (body : gostring) :
  regexp.FindSubmatch titlePattern body = [] ->
  extractTitle T body = ([], Some errTitleNotFound).
Proof. intros H. unfold extractTitle. now rewrite H. Qed.

Lemma extractTitle_found (T : html.Tables) (body m t : gostring) :
  regexp.FindSubmatch titlePattern body = [m; t] ->
  extractTitle T body
  = if strings.eqb (Spec.normalize (html.UnescapeString T t)) []
    then ([], Some errTitleEmpty)
    else (Spec.normalize (html.UnescapeString T t), None).
Proof.
  intros H. unfold extractTitle. rewrite H. cbn [length Nat.ltb Nat.leb nth].
  now rewrite Join_Fields_normalize.
Qed.

(** C2.  When the first title element of the body has inner text [t],
    the fetcher returns [t] with its entities decoded and then its white
    space runs collapsed to single spaces and its ends trimmed (an empty
    result comes with the title-was-empty error, any other without
    error).  The body [<TITLE>  Hello   World  </TITLE>] gives exactly
    [Hello World]; and where the inner text has [&amp;], the title
    returned has a literal ['&'], in the place of the reference when no
    other ['&'] comes before it. *)
Theorem title_decoded_and_normalized
        (T : html.Tables) (w : World) (rawURL body m t t1 t2 : gostring) :
  served w rawURL body ->
  Spec.firstTitle body m t ->
  let title := Spec.normalize (html.UnescapeString T t) in
  fst (snd (fetchTitle T w rawURL)) = title
  /\ (title <> [] -> snd (fetchTitle T w rawURL) = (title, None))
  /\ (body = lit "<TITLE>  Hello   World  </TITLE>" -> title = lit "Hello World")
  /\ (html.entity T (lit "amp;") = 38 -> t = t1 ++ lit "&amp;" ++ t2 ->
      In "&"%byte title
      /\ snd (fetchTitle T w rawURL) = (title, None)
      /\ (Forall (fun b => b <> "&"%byte) t1 ->
          title = Spec.normalize (t1 ++ lit "&" ++ html.UnescapeString T t2))).
Proof.
  intros Hserved Hfirst title.
  rewrite (fetchTitle_served T w rawURL body Hserved). cbn [snd].
  pose proof (proj2 (FindSubmatch_title body m t) Hfirst) as Hfind.
  rewrite (extractTitle_found T body m t Hfind). fold title.
  assert (Hok : title <> [] ->
                (if strings.eqb title [] then ([], Some errTitleEmpty)
                 else (title, None)) = (title, None)).
  { intros Hne. apply strings_eqb_neq in Hne. now rewrite Hne. }
  split; [|split; [exact Hok | split]].
  - destruct (strings.eqb title []) eqn:E; [|reflexivity].
    apply strings_eqb_eq in E. now rewrite E.
  - intros ->. vm_compute in Hfind. injection Hfind as _ <-.
    unfold title. rewrite UnescapeString_plain; [vm_compute; reflexivity|].
    vm_compute. repeat constructor; discriminate.
  - intros Hamp Ht.
    assert (Hin : In "&"%byte title).
    { unfold title. rewrite Ht.
      apply normalize_keeps_ascii; [reflexivity | reflexivity |].
      now apply UnescapeString_amp_anywhere. }
    split; [exact Hin|]. split.
    + apply Hok. intros Hnil. now rewrite Hnil in Hin.
    + intros Ht1. unfold title. now rewrite Ht, UnescapeString_amp.
Qed.

(** The sample world serves a short body whole. *)
Lemma sample_served (body : gostring) (installed : list gostring) :
  Z.of_nat (length body) < 2 ^ 21 ->
  served (Sample.world body installed) (lit "example.com") body.
Proof.
  intros Hlen.
  exists {| StatusCode := 200; Status := lit "200 OK";
            Body := {| io.data := body; io.fail := None |} |}.
  split; [reflexivity|]. split; [cbn [StatusCode]; lia|].
  rewrite ReadAll_LimitReader. cbn [Body io.data io.fail].
  rewrite firstn_all2 by (change (Z.shiftl 2 20) with (2 ^ 21); lia).
  now destruct (io.reaches _ _).
Qed.

Lemma title_decoded_and_normalized_witness :
  snd (fetchTitle Sample.tables (Sample.world Sample.helloPage []) (lit "example.com"))
  = (lit "Hello World", None)
  /\ snd (fetchTitle Sample.tables (Sample.world Sample.tomPage []) (lit "example.com"))
     = (lit "Tom & Jerry", None).
Proof.
  split.
  - assert (Hs : served (Sample.world Sample.helloPage []) (lit "example.com")
                        Sample.helloPage)
      by (apply sample_served; vm_compute; reflexivity).
    assert (Hf : Spec.firstTitle Sample.helloPage Sample.helloPage
                                 (lit "  Hello   World  "))
      by (apply FindSubmatch_title; vm_compute; reflexivity).
    pose proof (title_decoded_and_normalized
                  Sample.tables _ _ _ _ _ [] [] Hs Hf) as H.
    cbv zeta in H. destruct H as (_ & Hok & Hhello & _).
    rewrite Hok; rewrite (Hhello eq_refl); [reflexivity | discriminate].
  - assert (Hs : served (Sample.world Sample.tomPage []) (lit "example.com")
                        Sample.tomPage)
      by (apply sample_served; vm_compute; reflexivity).
    assert (Hf : Spec.firstTitle Sample.tomPage Sample.tomElement Sample.tomTitle)
      by (apply FindSubmatch_title; vm_compute; reflexivity).
    pose proof (title_decoded_and_normalized
                  Sample.tables _ _ _ _ _
                  (lit "  Tom ") (newline ++ lit " Jerry  ") Hs Hf) as H.
    cbv zeta in H. destruct H as (_ & _ & _ & Hamp).
    destruct Hamp as (_ & Hok & Htitle).
    + vm_compute. reflexivity.
    + vm_compute. reflexivity.
    + rewrite Hok, Htitle; [vm_compute; reflexivity|].
      vm_compute. repeat constructor; discriminate.
Defined.

(** ** The whole run *)

Lemma stdout_of_app (t1 t2 : list event) :
  stdout_of (t1 ++ t2) = stdout_of t1 ++ stdout_of t2.
Proof.
  induction t1 as [|e t1 IH]; [reflexivity|].
  destruct e; simpl; rewrite IH; try reflexivity. now rewrite app_assoc.
Qed.

Lemma gets_of_app (t1 t2 : list event) :
  gets_of (t1 ++ t2) = gets_of t1 ++ gets_of t2.
Proof.
  induction t1 as [|e t1 IH]; [reflexivity|].
  destruct e; simpl; now rewrite IH.
Qed.

Lemma clipboardEvents_silent (t : list event) :
  Forall (fun e => clipboardEvent e = true) t ->
  stdout_of t = [] /\ stderr_of t = [] /\ gets_of t = [].
Proof.
  induction 1 as [|e t He _ IH]; [now repeat split|].
  destruct e; try discriminate He; exact IH.
Qed.

(** The fetcher sends its request, and closes the body it was given. *)
Lemma fetchTitle_trace (T : html.Tables) (w : World) (rawURL : gostring) :
  fst (fetchTitle T w rawURL) = [HttpGet (withScheme rawURL)]
  \/ fst (fetchTitle T w rawURL) = [HttpGet (withScheme rawURL); BodyClose].
Proof.
  unfold fetchTitle. destruct (Get w (withScheme rawURL)) as [resp | e];
    [right | now left].
  destruct ((StatusCode resp <? 200) || (300 <=? StatusCode resp));
    [reflexivity|].
  destruct (io.ReadAll _) as [body [e|]]; reflexivity.
Qed.

Lemma fetchTitle_silent (T : html.Tables) (w : World) (rawURL : gostring) :
  stdout_of (fst (fetchTitle T w rawURL)) = []
  /\ Forall (fun e => clipboardEvent e = false) (fst (fetchTitle T w rawURL)).
Proof.
  destruct (fetchTitle_trace T w rawURL) as [-> | ->];
    split; try reflexivity; repeat constructor.
Qed.

Lemma pipeToCommand_events (w : World) (input name : gostring) (args : list gostring) :
  Forall (fun e => clipboardEvent e = true) (fst (pipeToCommand w input name args)).
Proof.
  unfold pipeToCommand.
  destruct (LookPath w name); [repeat constructor|].
  destruct (StdinPipe _); [repeat constructor|].
  destruct (Start _); [repeat constructor|].
  destruct (WriteString _ _); [repeat constructor|].
  destruct (Close _); repeat constructor.
Qed.

(** A helper that is not on the search path is not started. *)
Lemma pipeToCommand_absent (w : World) (input name : gostring)
      (args : list gostring) (e : error) :
  LookPath w name = Some e ->
  pipeToCommand w input name args = ([ExecLookPath name], Some e).
Proof. intros H. unfold pipeToCommand. now rewrite H. Qed.

Lemma tryCandidates_events (w : World) (text : gostring)
      (candidates : list clipboardCmd) :
  Forall (fun e => clipboardEvent e = true) (fst (tryCandidates w text candidates)).
Proof.
  induction candidates as [|cmd rest IH]; [constructor|].
  cbn [tryCandidates]. unfold bind.
  pose proof (pipeToCommand_events w text (name cmd) (args cmd)) as Hp.
  destruct (pipeToCommand w text (name cmd) (args cmd)) as [t1 [e|]].
  - destruct (tryCandidates w text rest) as [t2 r]. cbn [fst] in *.
    apply Forall_app. now split.
  - cbn [ret fst] in *. now rewrite app_nil_r.
Qed.

(** The copy fails exactly when every candidate fails, and then with the
    one aggregate error. *)
Lemma tryCandidates_result (w : World) (text : gostring)
      (candidates : list clipboardCmd) :
  (snd (tryCandidates w text candidates) = None
   /\ Exists (fun c => snd (pipeToCommand w text (name c) (args c)) = None) candidates)
  \/ (snd (tryCandidates w text candidates) = Some errNoClipboard
      /\ Forall (fun c => snd (pipeToCommand w text (name c) (args c)) <> None)
                candidates).
Proof.
  induction candidates as [|cmd rest IH]; [right; now split|].
  cbn [tryCandidates]. unfold bind.
  destruct (pipeToCommand w text (name cmd) (args cmd)) as [t1 [e|]] eqn:E.
  - destruct (tryCandidates w text rest) as [t2 r]. cbn [snd] in *.
    destruct IH as [[-> Hex] | [-> Hall]].
    + left. split; [reflexivity|]. now apply Exists_cons_tl.
    + right. split; [reflexivity|]. constructor; [|exact Hall].
      rewrite E. discriminate.
  - left. split; [reflexivity|]. apply Exists_cons_hd. now rewrite E.
Qed.

(** [run] once the title has been fetched. *)
Lemma run_fetched (T : html.Tables) (w : World) (args : list gostring)
      (url title : gostring) :
  err (parseArgs args) = None -> help (parseArgs args) = false ->
  resolveURL (positional (parseArgs args)) (urlArg (parseArgs args)) = (url, None) ->
  snd (fetchTitle T w url) = (title, None) ->
  let output := formatted (markdown (parseArgs args)) title url in
  let clip := copyToClipboard w output in
  run T w args =
  if copyOut (parseArgs args) then
    (fst (fetchTitle T w url) ++ [Stdout (output ++ newline)] ++ fst clip
       ++ match snd clip with
          | Some e => [Stderr (lit "clipboard copy failed: " ++ e ++ newline)]
          | None => []
          end,
     match snd clip with Some _ => 1 | None => 0 end)
  else (fst (fetchTitle T w url) ++ [Stdout (output ++ newline)], 0).
Proof.
  intros He Hh Hr Hf output clip. unfold run. rewrite He, Hh, Hr.
  destruct (fetchTitle T w url) as [tr [title' e]]. cbn [snd fst] in *.
  injection Hf as -> ->. unfold bind at 1.
  fold (formatted (markdown (parseArgs args)) title url). fold output.
  destruct (copyOut (parseArgs args)).
  - unfold bind, emit, ret. fold clip.
    destruct clip as [tc [e|]]; cbn [fst snd app]; now rewrite ?app_nil_r.
  - reflexivity.
Qed.

(** [run] when the fetcher fails. *)
Lemma run_fetch_error (T : html.Tables) (w : World) (args : list gostring)
      (url title : gostring) (e : error) :
  err (parseArgs args) = None -> help (parseArgs args) = false ->
  resolveURL (positional (parseArgs args)) (urlArg (parseArgs args)) = (url, None) ->
  snd (fetchTitle T w url) = (title, Some e) ->
  run T w args = (fst (fetchTitle T w url) ++ [Stderr (e ++ newline)], 1).
Proof.
  intros He Hh Hr Hf. unfold run. rewrite He, Hh, Hr.
  destruct (fetchTitle T w url) as [tr [title' e']]. cbn [snd fst] in *.
  injection Hf as -> ->. reflexivity.
Qed.

(** C7.  In a run that has read the response body without error: when
    the body contains no title element (in any case of the tag name, the
    inner text any characters, newlines included), the fetcher fails with
    the title-not-found error; when its first title element has an inner
    text that is empty once its entities are decoded and its white space
    normalized, the fetcher fails with the title-was-empty error.  In
    both cases the program prints the error to standard error and nothing
    to standard output, and exits with status 1. *)
Theorem title_missing_or_empty
        (T : html.Tables) (w : World) (args : list gostring)
        (url body m t : gostring) :
  err (parseArgs args) = None -> help (parseArgs args) = false ->
  resolveURL (positional (parseArgs args)) (urlArg (parseArgs args)) = (url, None) ->
  served w url body ->
  (~ Spec.containsTitle body ->
   snd (fetchTitle T w url) = ([], Some errTitleNotFound)
   /\ run T w args
      = ([HttpGet (withScheme url); BodyClose; Stderr (errTitleNotFound ++ newline)], 1)
   /\ stdout_of (fst (run T w args)) = [])
  /\ (Spec.firstTitle body m t ->
      Spec.normalize (html.UnescapeString T t) = [] ->
      snd (fetchTitle T w url) = ([], Some errTitleEmpty)
      /\ run T w args
         = ([HttpGet (withScheme url); BodyClose; Stderr (errTitleEmpty ++ newline)], 1)
      /\ stdout_of (fst (run T w args)) = []).
Proof.
  intros He Hh Hr Hserved.
  pose proof (fetchTitle_served T w url body Hserved) as Hfetch.
  assert (Hrun : forall e, extractTitle T body = ([], Some e) ->
            snd (fetchTitle T w url) = ([], Some e)
            /\ run T w args
               = ([HttpGet (withScheme url); BodyClose; Stderr (e ++ newline)], 1)
            /\ stdout_of (fst (run T w args)) = []).
  { intros e Hex. rewrite Hex in Hfetch.
    assert (Hsnd : snd (fetchTitle T w url) = ([], Some e)) by now rewrite Hfetch.
    rewrite (run_fetch_error T w args url [] e He Hh Hr Hsnd), Hfetch.
    now repeat split. }
  split.
  - intros Hno. apply Hrun, extractTitle_none. now apply FindSubmatch_title_none.
  - intros Hfirst Hempty. apply Hrun.
    rewrite (extractTitle_found T body m t) by now apply FindSubmatch_title.
    now rewrite Hempty.
Qed.

Lemma title_missing_or_empty_witness :
  run Sample.tables (Sample.world (lit "<html><titel>x</titel></html>") [])
      [lit "-m"; lit "example.com"]
  = ([HttpGet (lit "https://example.com"); BodyClose;
      Stderr (errTitleNotFound ++ newline)], 1)
  /\ run Sample.tables (Sample.world (lit "<title> &#32;&#x9; </title>") [])
         [lit "-m"; lit "example.com"]
     = ([HttpGet (lit "https://example.com"); BodyClose;
         Stderr (errTitleEmpty ++ newline)], 1).
Proof.
  split.
  - pose proof (title_missing_or_empty
                  Sample.tables (Sample.world (lit "<html><titel>x</titel></html>") [])
                  [lit "-m"; lit "example.com"] (lit "example.com")
                  (lit "<html><titel>x</titel></html>") [] []) as H.
    destruct H as [Hmissing _].
    + vm_compute. reflexivity.
    + vm_compute. reflexivity.
    + vm_compute. reflexivity.
    + apply sample_served. vm_compute. reflexivity.
    + apply Hmissing. apply FindSubmatch_title_none. vm_compute. reflexivity.
  - pose proof (title_missing_or_empty
                  Sample.tables (Sample.world (lit "<title> &#32;&#x9; </title>") [])
                  [lit "-m"; lit "example.com"] (lit "example.com")
                  (lit "<title> &#32;&#x9; </title>")
                  (lit "<title> &#32;&#x9; </title>") (lit " &#32;&#x9; ")) as H.
    destruct H as [_ Hempty].
    + vm_compute. reflexivity.
    + vm_compute. reflexivity.
    + vm_compute. reflexivity.
    + apply sample_served. vm_compute. reflexivity.
    + apply Hempty.
      * apply FindSubmatch_title. vm_compute. reflexivity.
      * vm_compute. reflexivity.
Defined.

Lemma withScheme_changes (rawURL : gostring) :
  strings.HasPrefix rawURL (lit "http://") = false ->
  strings.HasPrefix rawURL (lit "https://") = false ->
  withScheme rawURL <> rawURL.
Proof.
  intros H1 H2. rewrite withScheme_bare by assumption. intros H.
  apply (f_equal (@length byte)) in H. rewrite length_app in H.
  change (length (lit "https://")) with 8%nat in H. lia.
Qed.

(** C1, as amended.  In a run with the markdown flag set that fetches a
    title, the line written to standard output is [[<title>](<url>)]
    where [<url>] is the resolved URL as the user supplied it.  The
    request is sent for that URL with [https://] prepended when it lacks
    a scheme prefix: the URL printed is the URL requested when it has the
    prefix [http://] or [https://], and differs from it when it has
    neither. *)
Theorem markdown_link_has_resolved_url
        (T : html.Tables) (w : World) (args : list gostring) (url title : gostring) :
  err (parseArgs args) = None -> help (parseArgs args) = false ->
  markdown (parseArgs args) = true ->
  resolveURL (positional (parseArgs args)) (urlArg (parseArgs args)) = (url, None) ->
  snd (fetchTitle T w url) = (title, None) ->
  stdout_of (fst (run T w args))
  = lit "[" ++ title ++ lit "](" ++ url ++ lit ")" ++ newline
  /\ gets_of (fst (run T w args)) = [withScheme url]
  /\ (strings.HasPrefix url (lit "http://") = true
      \/ strings.HasPrefix url (lit "https://") = true ->
      withScheme url = url)
  /\ (strings.HasPrefix url (lit "http://") = false ->
      strings.HasPrefix url (lit "https://") = false ->
      withScheme url = lit "https://" ++ url /\ withScheme url <> url).
Proof.
  intros He Hh Hm Hr Hf.
  pose proof (run_fetched T w args url title He Hh Hr Hf) as Hrun.
  cbv zeta in Hrun. rewrite Hm in Hrun. unfold formatted in Hrun.
  destruct (fetchTitle_silent T w url) as [Hout _].
  pose proof (fetchTitle_gets T w url) as Hgets.
  set (output := lit "[" ++ title ++ lit "](" ++ url ++ lit ")") in *.
  destruct (clipboardEvents_silent _ (tryCandidates_events w output (clipboardCommands w)))
    as (Hc1 & _ & Hc3).
  fold (copyToClipboard w output) in Hc1, Hc3.
  assert (Hstd : stdout_of (fst (run T w args)) = output ++ newline
                 /\ gets_of (fst (run T w args)) = [withScheme url]).
  { rewrite Hrun. destruct (copyOut (parseArgs args)); cbn [fst].
    - rewrite !stdout_of_app, !gets_of_app, Hout, Hgets, Hc1, Hc3.
      destruct (snd (copyToClipboard w output)); simpl;
        now rewrite ?app_nil_r.
    - rewrite !stdout_of_app, !gets_of_app, Hout, Hgets. simpl.
      now rewrite ?app_nil_r. }
  destruct Hstd as [Hstd Hget].
  split; [|split; [exact Hget | split]].
  - rewrite Hstd. unfold output. now rewrite <- !app_assoc.
  - apply withScheme_qualified.
  - intros H1 H2. split; [now apply withScheme_bare | now apply withScheme_changes].
Qed.

Lemma markdown_link_has_resolved_url_witness :
  stdout_of (fst (run Sample.tables (Sample.world Sample.page [])
                      [lit "--markdown"; lit "https://example.com"]))
  = lit "[Example](https://example.com)" ++ newline.
Proof.
  pose proof (markdown_link_has_resolved_url
                Sample.tables (Sample.world Sample.page [])
                [lit "--markdown"; lit "https://example.com"]
                (lit "https://example.com") (lit "Example")) as H.
  destruct H as [Hout _].
  - vm_compute. reflexivity.
  - vm_compute. reflexivity.
  - vm_compute. reflexivity.
  - vm_compute. reflexivity.
  - vm_compute. reflexivity.
  - rewrite Hout. vm_compute. reflexivity.
Defined.

(** C1 as stated fails: for the bare host [example.com] the request goes
    to [https://example.com], but the Markdown link printed carries
    [example.com], the URL as it was given. *)
Lemma markdown_link_counterexample :
  let args := [lit "-m"; lit "example.com"] in
  let w := Sample.world Sample.page [] in
  markdown (parseArgs args) = true
  /\ resolveURL (positional (parseArgs args)) (urlArg (parseArgs args))
     = (lit "example.com", None)
  /\ strings.HasPrefix (lit "example.com") (lit "http://") = false
  /\ strings.HasPrefix (lit "example.com") (lit "https://") = false
  /\ gets_of (fst (run Sample.tables w args)) = [lit "https://example.com"]
  /\ stdout_of (fst (run Sample.tables w args)) = lit "[Example](example.com)" ++ newline
  /\ stdout_of (fst (run Sample.tables w args))
     <> lit "[Example](https://example.com)" ++ newline.
Proof.
  cbv zeta. repeat split; try (vm_compute; reflexivity).
  vm_compute. discriminate.
Qed.

(** C9.  In a run with the copy flag set that fetches a title, the
    formatted title is written to standard output before the clipboard
    writer does anything: the events of the run are those of the fetcher,
    the line on standard output, and only then those of the clipboard
    writer.  The copy fails exactly when every candidate fails (as when
    none is on the search path), with the one aggregate error; the
    program then prints a warning to standard error and exits with status
    1, and what is on standard output is the same line as when the copy
    succeeds and the program exits with status 0. *)
Theorem stdout_before_clipboard
        (T : html.Tables) (w : World) (argv : list gostring) (url title : gostring) :
  err (parseArgs argv) = None -> help (parseArgs argv) = false ->
  copyOut (parseArgs argv) = true ->
  resolveURL (positional (parseArgs argv)) (urlArg (parseArgs argv)) = (url, None) ->
  snd (fetchTitle T w url) = (title, None) ->
  let output := formatted (markdown (parseArgs argv)) title url in
  let clip := copyToClipboard w output in
  fst (run T w argv)
  = fst (fetchTitle T w url) ++ [Stdout (output ++ newline)] ++ fst clip
      ++ match snd clip with
         | Some e => [Stderr (lit "clipboard copy failed: " ++ e ++ newline)]
         | None => []
         end
  /\ Forall (fun e => clipboardEvent e = false) (fst (fetchTitle T w url))
  /\ Forall (fun e => clipboardEvent e = true) (fst clip)
  /\ stdout_of (fst (run T w argv)) = output ++ newline
  /\ (snd clip = None /\ snd (run T w argv) = 0
      /\ Exists (fun c => snd (pipeToCommand w output (name c) (args c)) = None)
                (clipboardCommands w)
      \/ snd clip = Some errNoClipboard /\ snd (run T w argv) = 1
         /\ Forall (fun c => snd (pipeToCommand w output (name c) (args c)) <> None)
                   (clipboardCommands w))
  /\ ((forall c, In c (clipboardCommands w) -> LookPath w (name c) <> None) ->
      snd (run T w argv) = 1
      /\ fst (run T w argv)
         = fst (fetchTitle T w url) ++ [Stdout (output ++ newline)]
             ++ map (fun c => ExecLookPath (name c)) (clipboardCommands w)
             ++ [Stderr (lit "clipboard copy failed: " ++ errNoClipboard ++ newline)]).
Proof.
  intros He Hh Hc Hr Hf output clip.
  pose proof (run_fetched T w argv url title He Hh Hr Hf) as Hrun.
  cbv zeta in Hrun. rewrite Hc in Hrun. fold output in Hrun.
  unfold clip; clear clip. unfold copyToClipboard in *.
  set (clip := tryCandidates w output (clipboardCommands w)) in *.
  destruct (fetchTitle_silent T w url) as [Hout Hquiet].
  pose proof (tryCandidates_events w output (clipboardCommands w)) as Hev.
  fold clip in Hev.
  destruct (clipboardEvents_silent _ Hev) as (Hc1 & _ & _).
  split; [now rewrite Hrun|]. split; [exact Hquiet|]. split; [exact Hev|].
  split; [|split].
  - rewrite Hrun. cbn [fst]. rewrite !stdout_of_app, Hout, Hc1.
    destruct (snd clip); simpl; now rewrite ?app_nil_r.
  - rewrite Hrun. cbn [snd].
    destruct (tryCandidates_result w output (clipboardCommands w))
      as [[Hn Hex] | [Hs Hall]]; fold clip in Hn || fold clip in Hs.
    + left. rewrite Hn. now repeat split.
    + right. rewrite Hs. now repeat split.
  - intros Habsent.
    assert (Hall : forall cs, (forall c, In c cs -> LookPath w (name c) <> None) ->
              tryCandidates w output cs
              = (map (fun c => ExecLookPath (name c)) cs, Some errNoClipboard)).
    { induction cs as [|c cs IH]; intros Hcs; [reflexivity|].
      cbn [tryCandidates map].
      destruct (LookPath w (name c)) as [e|] eqn:El;
        [|now contradiction (Hcs c (or_introl eq_refl))].
      rewrite (pipeToCommand_absent w output (name c) (args c) e El).
      unfold bind. rewrite IH by (intros c' Hc'; apply Hcs; now right).
      reflexivity. }
    specialize (Hall _ Habsent). fold clip in Hall.
    rewrite Hrun, Hall. now split.
Qed.

Lemma stdout_before_clipboard_witness :
  run Sample.tables (Sample.world Sample.page []) [lit "-c"; lit "example.com"]
  = ([HttpGet (lit "https://example.com"); BodyClose;
      Stdout (lit "Example" ++ newline);
      ExecLookPath (lit "wl-copy"); ExecLookPath (lit "xclip");
      ExecLookPath (lit "xsel");
      Stderr (lit "clipboard copy failed: " ++ errNoClipboard ++ newline)], 1)
  /\ stdout_of (fst (run Sample.tables (Sample.world Sample.page [lit "xsel"])
                         [lit "-c"; lit "example.com"]))
     = stdout_of (fst (run Sample.tables (Sample.world Sample.page [])
                           [lit "-c"; lit "example.com"])).
Proof.
  pose proof (stdout_before_clipboard
                Sample.tables (Sample.world Sample.page [])
                [lit "-c"; lit "example.com"] (lit "example.com") (lit "Example"))
    as Hnone.
  pose proof (stdout_before_clipboard
                Sample.tables (Sample.world Sample.page [lit "xsel"])
                [lit "-c"; lit "example.com"] (lit "example.com") (lit "Example"))
    as Hxsel.
  cbv zeta in Hnone, Hxsel.
  destruct Hnone as (_ & _ & _ & Hout & _ & Habsent); try (vm_compute; reflexivity).
  destruct Hxsel as (_ & _ & _ & Hout' & _); try (vm_compute; reflexivity).
  split.
  - destruct Habsent as [Hexit Htrace].
    + intros c Hc. vm_compute in Hc.
      destruct Hc as [<- | [<- | [<- | []]]]; vm_compute; discriminate.
    + rewrite (surjective_pairing (run _ _ _)), Hexit, Htrace. reflexivity.
  - rewrite Hout, Hout'. reflexivity.
Defined.

(** * Further properties *)

(** ** The argument parser: what it keeps *)

Lemma parseInv_step (args rest : list gostring) (h m c h' m' c' : bool)
      (u u' : stringFlag) (p q0 : list gostring) (r : parseResult) :
  parseInv rest h' m' c' u' (p ++ q0) r ->
  (h = true -> h' = true) -> (m = true -> m' = true) -> (c = true -> c' = true) ->
  (set u = true -> set u' = true) ->
  (forall q, subseq q rest -> subseq (q0 ++ q) args) ->
  Forall plainArg q0 ->
  parseInv args h m c u p r.
Proof.
  unfold parseInv. intros Hinv Hh Hm Hc Hu Hsub Hplain.
  destruct (err r); [exact Hinv|].
  destruct Hinv as (Ih & Im & Ic & Iu & q & Hq & Hs & Hf).
  repeat split; auto.
  exists (q0 ++ q). rewrite app_assoc. repeat split; auto.
  apply Forall_app. now split.
Qed.

Lemma parseInv_failed (args : list gostring) (h m c : bool) (u : stringFlag)
      (p : list gostring) (e : error) :
  e = errMissingValue \/ e = errUnknownOption ->
  parseInv args h m c u p (parseFailed e).
Proof. intros He. unfold parseInv. cbn [err parseFailed]. now split. Qed.

Lemma parseLoop_inv_lt (n : nat) :
  forall (args : list gostring), (length args < n)%nat ->
  forall (letters : gostring) (h m c : bool) (u : stringFlag) (p : list gostring),
    parseInv args h m c u p (parseLoop args letters h m c u p).
Proof.
  induction n as [|n IHn]; intros args Hlen; [lia|].
  induction letters as [|r letters IHl]; intros h m c u p.
  - destruct args as [|arg rest].
    + unfold parseInv. cbn. repeat split; auto.
      exists []. rewrite app_nil_r. repeat split; constructor.
    + simpl in Hlen. rewrite parseLoop_arg.
      destruct (_ || _);
        [apply (parseInv_step _ rest _ _ _ true m c u u p []);
         rewrite ?app_nil_r; auto; [apply IHn; lia | intros q Hq; now constructor]|].
      destruct (_ || _);
        [apply (parseInv_step _ rest _ _ _ h true c u u p []);
         rewrite ?app_nil_r; auto; [apply IHn; lia | intros q Hq; now constructor]|].
      destruct (_ || _);
        [apply (parseInv_step _ rest _ _ _ h m true u u p []);
         rewrite ?app_nil_r; auto; [apply IHn; lia | intros q Hq; now constructor]|].
      destruct (_ || _).
      { destruct rest as [|v rest]; [apply parseInv_failed; now left|].
        simpl in Hlen.
        apply (parseInv_step _ rest _ _ _ h m c u {| value := v; set := true |} p []);
          rewrite ?app_nil_r; auto; [apply IHn; lia|].
        intros q Hq. now repeat constructor. }
      destruct (strings.HasPrefix arg (lit "--url=")).
      { apply (parseInv_step _ rest _ _ _ h m c u
                 {| value := strings.TrimPrefix arg (lit "--url="); set := true |} p []);
          rewrite ?app_nil_r; auto; [apply IHn; lia | intros q Hq; now constructor]. }
      destruct (strings.HasPrefix arg (lit "-u=")).
      { apply (parseInv_step _ rest _ _ _ h m c u
                 {| value := strings.TrimPrefix arg (lit "-u="); set := true |} p []);
          rewrite ?app_nil_r; auto; [apply IHn; lia | intros q Hq; now constructor]. }
      destruct (strings.HasPrefix arg (lit "-") && (1 <? length arg)%nat) eqn:Eopt.
      { apply (parseInv_step _ rest _ _ _ h m c u u p []);
          rewrite ?app_nil_r; auto; [apply IHn; lia | intros q Hq; now constructor]. }
      apply (parseInv_step _ rest _ _ _ h m c u u p [arg]); auto.
      * apply IHn. lia.
      * intros q Hq. now constructor.
  - rewrite parseLoop_letter.
    destruct (Byte.eqb r "h"%byte);
      [apply (parseInv_step _ args _ _ _ true m c u u p []);
       rewrite ?app_nil_r; auto|].
    destruct (Byte.eqb r "m"%byte);
      [apply (parseInv_step _ args _ _ _ h true c u u p []);
       rewrite ?app_nil_r; auto|].
    destruct (Byte.eqb r "c"%byte);
      [apply (parseInv_step _ args _ _ _ h m true u u p []);
       rewrite ?app_nil_r; auto|].
    destruct (Byte.eqb r "u"%byte); [|apply parseInv_failed; now right].
    destruct args as [|v args]; [apply parseInv_failed; now left|].
    simpl in Hlen.
    apply (parseInv_step _ args _ _ _ h m c u {| value := v; set := true |} p []);
      rewrite ?app_nil_r; auto; [apply IHn; lia|].
    intros q Hq. now constructor.
Qed.

Lemma parseLoop_inv (args : list gostring) (letters : gostring) (h m c : bool)
      (u : stringFlag) (p : list gostring) :
  parseInv args h m c u p (parseLoop args letters h m c u p).
Proof. apply (parseLoop_inv_lt (S (length args))). lia. Qed.

Lemma parseArgs_failed (args : list gostring) (e : error) :
  err (parseArgs args) = Some e ->
  parseArgs args = parseFailed e
  /\ (e = errMissingValue \/ e = errUnknownOption).
Proof.
  intros He. pose proof (parseLoop_inv args [] false false false
                           {| value := []; set := false |} []) as H.
  unfold parseInv in H. fold (parseArgs args) in H. now rewrite He in H.
Qed.

(** X1.  When [parseArgs] fails, its error is "missing URL value" or
    "unknown option", and its other results are zero values: no flag, no
    URL flag, no positional argument, whatever was read before. *)
Theorem parseArgs_failure (args : list gostring) (e : error) :
  err (parseArgs args) = Some e ->
  parseArgs args = parseFailed e
  /\ (e = errMissingValue \/ e = errUnknownOption).
Proof. apply parseArgs_failed. Qed.

Lemma parseArgs_failure_witness :
  parseArgs [lit "-m"; lit "example.com"; lit "-cu"] = parseFailed errMissingValue
  /\ parseArgs [lit "-m"; lit "example.com"; lit "-cx"; lit "-u"]
     = parseFailed errUnknownOption.
Proof.
  split.
  - apply (parseArgs_failure [lit "-m"; lit "example.com"; lit "-cu"]).
    vm_compute. reflexivity.
  - apply (parseArgs_failure [lit "-m"; lit "example.com"; lit "-cx"; lit "-u"]).
    vm_compute. reflexivity.
Defined.

(** X2.  When [parseArgs] succeeds, the positional arguments it returns
    are arguments of the command line, in their order, and none of them
    starts with ['-'], except ['-'] alone. *)
Theorem parseArgs_positionals (args : list gostring) :
  err (parseArgs args) = None ->
  subseq (positional (parseArgs args)) args
  /\ Forall plainArg (positional (parseArgs args)).
Proof.
  intros He. pose proof (parseLoop_inv args [] false false false
                           {| value := []; set := false |} []) as H.
  unfold parseInv in H. fold (parseArgs args) in H. rewrite He in H.
  destruct H as (_ & _ & _ & _ & q & -> & Hs & Hf). now split.
Qed.

Lemma parseArgs_positionals_witness :
  subseq (positional (parseArgs [lit "a"; lit "-u"; lit "b"; lit "-"; lit "-m"; lit "c"]))
         [lit "a"; lit "-u"; lit "b"; lit "-"; lit "-m"; lit "c"]
  /\ Forall plainArg
            (positional (parseArgs [lit "a"; lit "-u"; lit "b"; lit "-"; lit "-m"; lit "c"])).
Proof.
  apply (parseArgs_positionals [lit "a"; lit "-u"; lit "b"; lit "-"; lit "-m"; lit "c"]).
  vm_compute. reflexivity.
Defined.

Lemma plainArg_arg (arg : gostring) (rest : list gostring) (h m c : bool)
      (u : stringFlag) (p : list gostring) :
  plainArg arg ->
  parseLoop (arg :: rest) [] h m c u p = parseLoop rest [] h m c u (p ++ [arg]).
Proof.
  unfold plainArg. intros Hplain. rewrite parseLoop_arg, Hplain.
  assert (Hne : forall s, (strings.HasPrefix s (lit "-") && (1 <? length s)%nat) = true ->
                          strings.eqb arg s = false).
  { intros s Hs. apply strings_eqb_neq. intros ->. congruence. }
  assert (Hnp : forall s, (strings.HasPrefix s (lit "-") && (1 <? length s)%nat) = true ->
                          strings.HasPrefix arg s = false).
  { intros s Hs. destruct (strings.HasPrefix arg s) eqn:E; [|reflexivity].
    apply HasPrefix_inv in E as [t ->]. apply andb_prop in Hs as [Hs1 Hs2].
    apply HasPrefix_inv in Hs1 as [t' ->].
    rewrite <- app_assoc, HasPrefix_app in Hplain. rewrite !length_app in *.
    cbn [andb] in Hplain. lia. }
  rewrite !Hne, !Hnp by reflexivity. reflexivity.
Qed.

Lemma parseLoop_plain (args : list gostring) :
  Forall plainArg args ->
  forall (h m c : bool) (u : stringFlag) (p : list gostring),
    parseLoop args [] h m c u p
    = {| help := h; markdown := m; copyOut := c; urlArg := u;
         positional := p ++ args; err := None |}.
Proof.
  induction 1 as [|arg args Harg _ IH]; intros h m c u p.
  - now rewrite app_nil_r.
  - rewrite plainArg_arg by exact Harg. rewrite IH. now rewrite <- app_assoc.
Qed.

(** X3.  Arguments none of which starts with ['-'] (['-'] alone is
    allowed) are all positional: [parseArgs] returns them as they are,
    in their order, with no flag set and no error. *)
Theorem parseArgs_plain (args : list gostring) :
  Forall plainArg args ->
  parseArgs args
  = {| help := false; markdown := false; copyOut := false;
       urlArg := {| value := []; set := false |};
       positional := args; err := None |}.
Proof. intros Hall. unfold parseArgs. now rewrite parseLoop_plain. Qed.

Lemma parseArgs_plain_witness :
  parseArgs [lit "example.com"; lit "-"; []; lit "a-b"]
  = {| help := false; markdown := false; copyOut := false;
       urlArg := {| value := []; set := false |};
       positional := [lit "example.com"; lit "-"; []; lit "a-b"]; err := None |}.
Proof.
  apply parseArgs_plain. repeat constructor.
Defined.

(** X4.  Later arguments never undo earlier ones: when the whole command
    line parses, every flag that its first arguments [pre] set is set,
    the URL flag stays set once it is (its value may have been replaced),
    and the positional arguments of [pre] are the first positional
    arguments of the whole. *)
Theorem parseArgs_monotone (pre post : list gostring) :
  err (parseArgs (pre ++ post)) = None ->
  (help (parseArgs pre) = true -> help (parseArgs (pre ++ post)) = true)
  /\ (markdown (parseArgs pre) = true -> markdown (parseArgs (pre ++ post)) = true)
  /\ (copyOut (parseArgs pre) = true -> copyOut (parseArgs (pre ++ post)) = true)
  /\ (set (urlArg (parseArgs pre)) = true ->
      set (urlArg (parseArgs (pre ++ post))) = true)
  /\ exists q, positional (parseArgs (pre ++ post)) = positional (parseArgs pre) ++ q.
Proof.
  intros Hok. destruct (err (parseArgs pre)) as [e|] eqn:Epre.
  - destruct (parseArgs_failed pre e Epre) as [-> _]. cbn.
    repeat split; try discriminate. now exists (positional (parseArgs (pre ++ post))).
  - assert (Hpre : err (parseArgs pre) <> Some errMissingValue) by congruence.
    unfold parseArgs in Hok, Hpre |- *.
    rewrite (parseLoop_app pre post [] _ _ _ _ _ Hpre) in Hok |- *.
    fold (parseArgs pre) in Hok |- *. unfold resume in Hok |- *.
    rewrite Epre in Hok |- *.
    pose proof (parseLoop_inv post [] (help (parseArgs pre)) (markdown (parseArgs pre))
                  (copyOut (parseArgs pre)) (urlArg (parseArgs pre))
                  (positional (parseArgs pre))) as H.
    unfold parseInv in H. rewrite Hok in H.
    destruct H as (Hh & Hm & Hc & Hu & q & Hq & _). repeat split; auto.
    now exists q.
Qed.

Lemma parseArgs_monotone_witness :
  markdown (parseArgs ([lit "-m"; lit "a"] ++ [lit "b"; lit "--url=c"])) = true
  /\ exists q, positional (parseArgs ([lit "-m"; lit "a"] ++ [lit "b"; lit "--url=c"]))
               = positional (parseArgs [lit "-m"; lit "a"]) ++ q.
Proof.
  destruct (parseArgs_monotone [lit "-m"; lit "a"] [lit "b"; lit "--url=c"])
    as (_ & Hm & _ & _ & Hq).
  - vm_compute. reflexivity.
  - split; [apply Hm; vm_compute; reflexivity | exact Hq].
Defined.

(** The four ways to write the URL flag. *)
Lemma parseLoop_url_forms (v : gostring) (rest : list gostring) (h m c : bool)
      (u : stringFlag) (p : list gostring) :
  let next := parseLoop rest [] h m c {| value := v; set := true |} p in
  parseLoop (lit "-u" :: v :: rest) [] h m c u p = next
  /\ parseLoop (lit "--url" :: v :: rest) [] h m c u p = next
  /\ parseLoop ((lit "-u=" ++ v) :: rest) [] h m c u p = next
  /\ parseLoop ((lit "--url=" ++ v) :: rest) [] h m c u p = next.
Proof.
  cbv zeta. rewrite !parseLoop_arg. eval_lit. cbn [app].
  repeat split; reflexivity.
Qed.

(** X5.  The URL flag can be written [-u v], [--url v], [-u=v] or
    [--url=v]: wherever the parser reads it as an option (after
    arguments [pre] that do not end in an option [u] waiting for its
    value), the four forms give the same results, for every value [v],
    also one that looks like an option or is empty. *)
Theorem url_flag_forms (pre post : list gostring) (v : gostring) :
  err (parseArgs pre) <> Some errMissingValue ->
  parseArgs (pre ++ lit "--url" :: v :: post) = parseArgs (pre ++ lit "-u" :: v :: post)
  /\ parseArgs (pre ++ (lit "-u=" ++ v) :: post) = parseArgs (pre ++ lit "-u" :: v :: post)
  /\ parseArgs (pre ++ (lit "--url=" ++ v) :: post)
     = parseArgs (pre ++ lit "-u" :: v :: post).
Proof.
  intros Hpre. unfold parseArgs in *. rewrite !parseLoop_app by exact Hpre.
  unfold resume. destruct (err (parseLoop pre [] false false false _ []));
    [now repeat split|].
  destruct (parseLoop_url_forms v post
              (help (parseLoop pre [] false false false {| value := []; set := false |} []))
              (markdown (parseLoop pre [] false false false {| value := []; set := false |} []))
              (copyOut (parseLoop pre [] false false false {| value := []; set := false |} []))
              (urlArg (parseLoop pre [] false false false {| value := []; set := false |} []))
              (positional (parseLoop pre [] false false false {| value := []; set := false |} [])))
    as (H1 & H2 & H3 & H4).
  cbv zeta in *. rewrite H1, H2, H3, H4. now repeat split.
Qed.

Lemma url_flag_forms_witness :
  parseArgs ([lit "-c"; lit "x"] ++ lit "--url" :: lit "-m" :: [lit "-h"])
  = parseArgs ([lit "-c"; lit "x"] ++ lit "-u" :: lit "-m" :: [lit "-h"])
  /\ parseArgs ([lit "-c"; lit "x"] ++ (lit "-u=" ++ lit "-m") :: [lit "-h"])
     = parseArgs ([lit "-c"; lit "x"] ++ lit "-u" :: lit "-m" :: [lit "-h"])
  /\ parseArgs ([lit "-c"; lit "x"] ++ (lit "--url=" ++ lit "-m") :: [lit "-h"])
     = parseArgs ([lit "-c"; lit "x"] ++ lit "-u" :: lit "-m" :: [lit "-h"]).
Proof.
  apply (url_flag_forms [lit "-c"; lit "x"] [lit "-h"] (lit "-m")).
  vm_compute. discriminate.
Defined.

(** X6.  The URL flag given last wins: after arguments [pre] that parse,
    a URL flag with value [v] at the end replaces the value of any
    earlier URL flag and changes nothing else. *)
Theorem last_url_flag_wins (pre : list gostring) (v : gostring) :
  err (parseArgs pre) = None ->
  parseArgs (pre ++ [lit "-u"; v])
  = {| help := help (parseArgs pre); markdown := markdown (parseArgs pre);
       copyOut := copyOut (parseArgs pre);
       urlArg := {| value := v; set := true |};
       positional := positional (parseArgs pre); err := None |}.
Proof.
  intros Hpre. unfold parseArgs in *.
  rewrite parseLoop_app by congruence. unfold resume. rewrite Hpre.
  reflexivity.
Qed.

Lemma last_url_flag_wins_witness :
  parseArgs ([lit "--url=a.example"; lit "-m"] ++ [lit "-u"; lit "b.example"])
  = {| help := false; markdown := true; copyOut := false;
       urlArg := {| value := lit "b.example"; set := true |};
       positional := []; err := None |}.
Proof.
  rewrite (last_url_flag_wins [lit "--url=a.example"; lit "-m"] (lit "b.example"));
    vm_compute; reflexivity.
Defined.

(** X7.  An argument that starts with [--] and is none of [--help],
    [--markdown], [--copy], [--url] and [--url=...] is an unknown
    option, [--] itself included: read as an option (after arguments
    [pre] that do not end in an option [u] waiting for its value), it
    makes [parseArgs] fail with that error, whatever follows. *)
Theorem unknown_long_option (pre post : list gostring) (x : gostring) :
  err (parseArgs pre) <> Some errMissingValue ->
  ~ In (lit "--" ++ x) [lit "--help"; lit "--markdown"; lit "--copy"; lit "--url"] ->
  strings.HasPrefix (lit "--" ++ x) (lit "--url=") = false ->
  parseArgs (pre ++ (lit "--" ++ x) :: post) = parseFailed errUnknownOption.
Proof.
  intros Hpre Hlong Hurl.
  destruct (err (parseArgs pre)) as [e|] eqn:Epre.
  { destruct (parseArgs_failed pre e Epre) as [Hf [-> | ->]]; [congruence|].
    unfold parseArgs in *. rewrite parseLoop_app by congruence.
    unfold resume. now rewrite Epre. }
  unfold parseArgs in *.
  rewrite parseLoop_app by congruence. unfold resume. rewrite Epre.
  rewrite parseLoop_arg, Hurl.
  assert (Hne : forall s, In s [lit "--help"; lit "--markdown"; lit "--copy"; lit "--url"] ->
                          strings.eqb (lit "--" ++ x) s = false).
  { intros s Hs. apply strings_eqb_neq. intros E. apply Hlong. now rewrite E. }
  rewrite (Hne (lit "--help")), (Hne (lit "--markdown")), (Hne (lit "--copy")),
    (Hne (lit "--url")) by (cbn [In]; tauto).
  eval_lit. cbn [app strings.eqb strings.HasPrefix length skipn].
  repeat (change (Byte.eqb "-" "-") with true
          || change (Byte.eqb "-" "h") with false
          || change (Byte.eqb "-" "m") with false
          || change (Byte.eqb "-" "c") with false
          || change (Byte.eqb "-" "u") with false).
  cbn [andb orb Nat.ltb Nat.leb]. rewrite parseLoop_letter. reflexivity.
Qed.

Lemma unknown_long_option_witness :
  parseArgs ([lit "-h"] ++ (lit "--" ++ []) :: [lit "example.com"])
  = parseFailed errUnknownOption
  /\ parseArgs ([] ++ (lit "--" ++ lit "Help") :: [])
     = parseFailed errUnknownOption.
Proof.
  split.
  - apply (unknown_long_option [lit "-h"] [lit "example.com"] []).
    + vm_compute. discriminate.
    + vm_compute. intros [H | [H | [H | [H | []]]]]; discriminate H.
    + vm_compute. reflexivity.
  - apply (unknown_long_option [] [] (lit "Help")).
    + vm_compute. discriminate.
    + vm_compute. intros [H | [H | [H | [H | []]]]]; discriminate H.
    + vm_compute. reflexivity.
Defined.

(** ** The URL resolver and the fetcher: the other cases *)

(** X8.  [resolveURL] succeeds exactly when the URL has one source, the
    URL flag without positional arguments or a single positional
    argument without the URL flag, and its value is not white space
    only.  It then returns that value as it is: white space around it is
    not removed.  When it fails it returns the empty string. *)
Theorem resolveURL_success (positional' : list gostring) (urlArg' : stringFlag) :
  (snd (resolveURL positional' urlArg') = None <->
   (set urlArg' = true /\ positional' = []
    /\ ~ Spec.whitespaceOnly (value urlArg'))
   \/ (set urlArg' = false
       /\ exists v, positional' = [v] /\ ~ Spec.whitespaceOnly v))
  /\ (snd (resolveURL positional' urlArg') = None ->
      fst (resolveURL positional' urlArg')
      = if set urlArg' then value urlArg' else nth 0 positional' [])
  /\ (snd (resolveURL positional' urlArg') <> None ->
      fst (resolveURL positional' urlArg') = []).
Proof.
  unfold resolveURL. destruct (set urlArg') eqn:Eset.
  - destruct positional' as [|a l]; cbn [length Nat.ltb Nat.leb].
    + destruct (strings.eqb (strings.TrimSpace (value urlArg')) []) eqn:E.
      * apply TrimSpace_eqb in E. cbn [fst snd]. repeat split; try congruence.
        intros [(_ & _ & H) | (H & _)]; [contradiction | discriminate].
      * apply TrimSpace_eqb_false in E. cbn [fst snd]. repeat split; try congruence.
        intros _. left. now repeat split.
    + cbn [fst snd]. repeat split; try congruence.
      intros [(_ & H & _) | (H & _)]; discriminate.
  - destruct positional' as [|a [|b l]]; cbn [length Nat.eqb Nat.ltb Nat.leb nth].
    + cbn [fst snd]. repeat split; try congruence.
      intros [(H & _) | (_ & v & H & _)]; discriminate.
    + destruct (strings.eqb (strings.TrimSpace a) []) eqn:E.
      * apply TrimSpace_eqb in E. cbn [fst snd]. repeat split; try congruence.
        intros [(H & _) | (_ & v & Hv & H)]; [discriminate|].
        injection Hv as <-. contradiction.
      * apply TrimSpace_eqb_false in E. cbn [fst snd]. repeat split; try congruence.
        intros _. right. split; [reflexivity|]. now exists a.
    + cbn [fst snd]. repeat split; try congruence.
      intros [(H & _) | (_ & v & H & _)]; discriminate.
Qed.

Lemma resolveURL_success_witness :
  fst (resolveURL [lit " example.com "] {| value := []; set := false |})
  = lit " example.com "
  /\ fst (resolveURL [lit "a"; lit "b"] {| value := []; set := false |}) = [].
Proof.
  destruct (resolveURL_success [lit " example.com "] {| value := []; set := false |})
    as (_ & Hok & _).
  destruct (resolveURL_success [lit "a"; lit "b"] {| value := []; set := false |})
    as (_ & _ & Herr).
  split.
  - rewrite Hok; [reflexivity | vm_compute; reflexivity].
  - apply Herr. vm_compute. discriminate.
Defined.

(** X9.  Without options the program wants exactly one argument: run
    with no argument at all it asks for a URL, run with two or more
    arguments none of which starts with ['-'] it asks for only one, and
    in both cases it prints the usage text after the message, exits with
    status 2 and sends no request. *)
Theorem one_url_wanted (T : html.Tables) (w : World) (argv : list gostring) :
  Forall plainArg argv ->
  (argv = [] ->
   run T w argv = ([Stderr (errURLRequired ++ newline); Stderr usageText], 2))
  /\ ((2 <= length argv)%nat ->
      run T w argv = ([Stderr (errOnlyOneURL ++ newline); Stderr usageText], 2)).
Proof.
  intros Hplain.
  assert (Hp : parseLoop argv [] false false false {| value := []; set := false |} []
               = {| help := false; markdown := false; copyOut := false;
                    urlArg := {| value := []; set := false |};
                    positional := argv; err := None |})
    by (now rewrite parseLoop_plain).
  fold (parseArgs argv) in Hp.
  split; intros Hlen; apply run_resolve_error; rewrite ?Hp; try reflexivity.
  - now subst argv.
  - unfold resolveURL. cbn [set positional urlArg].
    destruct argv as [|a [|b l]]; simpl in Hlen; try lia. reflexivity.
Qed.

Lemma one_url_wanted_witness :
  run Sample.tables (Sample.world Sample.page []) []
  = ([Stderr (errURLRequired ++ newline); Stderr usageText], 2)
  /\ run Sample.tables (Sample.world Sample.page []) [lit "a.example"; Sample.blank]
     = ([Stderr (errOnlyOneURL ++ newline); Stderr usageText], 2).
Proof.
  split.
  - apply (one_url_wanted Sample.tables (Sample.world Sample.page []) []);
      [constructor | reflexivity].
  - apply (one_url_wanted Sample.tables (Sample.world Sample.page [])
                          [lit "a.example"; Sample.blank]).
    + repeat constructor.
    + cbn [length]. lia.
Defined.

(** X10.  The URL that the fetcher requests always starts with [http://]
    or [https://]; a URL that does is requested as it is, so that
    fetching the URL with its scheme is fetching the URL. *)
Theorem withScheme_qualifies (T : html.Tables) (w : World) (rawURL : gostring) :
  (strings.HasPrefix (withScheme rawURL) (lit "http://") = true
   \/ strings.HasPrefix (withScheme rawURL) (lit "https://") = true)
  /\ withScheme (withScheme rawURL) = withScheme rawURL
  /\ fetchTitle T w (withScheme rawURL) = fetchTitle T w rawURL.
Proof.
  assert (Hq : strings.HasPrefix (withScheme rawURL) (lit "http://") = true
               \/ strings.HasPrefix (withScheme rawURL) (lit "https://") = true).
  { unfold withScheme.
    destruct (strings.HasPrefix rawURL (lit "http://")) eqn:E1; [now left|].
    destruct (strings.HasPrefix rawURL (lit "https://")) eqn:E2; [now right|].
    right. apply HasPrefix_app. }
  assert (Hi : withScheme (withScheme rawURL) = withScheme rawURL)
    by now apply withScheme_qualified.
  repeat split; try assumption.
  unfold fetchTitle. now rewrite Hi.
Qed.

(** What the fetcher returns when the request fails. *)
Lemma fetchTitle_request_failed (T : html.Tables) (w : World) (rawURL : gostring)
      (e : error) :
  Get w (withScheme rawURL) = inr e ->
  fetchTitle T w rawURL
  = ([HttpGet (withScheme rawURL)], ([], Some (errFetchPrefix ++ e))).
Proof. intros H. unfold fetchTitle. now rewrite H. Qed.

(** What the fetcher returns on a status outside 200..299. *)
Lemma fetchTitle_bad_status (T : html.Tables) (w : World) (rawURL : gostring)
      (resp : Response) :
  Get w (withScheme rawURL) = inl resp ->
  StatusCode resp < 200 \/ 300 <= StatusCode resp ->
  fetchTitle T w rawURL
  = ([HttpGet (withScheme rawURL); BodyClose],
     ([], Some (errHTTPPrefix ++ Status resp))).
Proof.
  intros H Hs. unfold fetchTitle. rewrite H.
  replace ((StatusCode resp <? 200) || (300 <=? StatusCode resp)) with true by lia.
  reflexivity.
Qed.

(** X11.  When the request fails, or is answered with a status outside
    200..299, the program prints the error (with the status text of the
    answer) to standard error and exits with status 1: nothing goes to
    standard output and no clipboard helper is looked for, whatever the
    flags are; the body of such an answer is closed without being read,
    so that a title in it changes nothing. *)
Theorem request_or_status_failure
        (T : html.Tables) (w : World) (argv : list gostring) (url : gostring) :
  err (parseArgs argv) = None -> help (parseArgs argv) = false ->
  resolveURL (positional (parseArgs argv)) (urlArg (parseArgs argv)) = (url, None) ->
  (forall e, Get w (withScheme url) = inr e ->
     run T w argv
     = ([HttpGet (withScheme url); Stderr ((errFetchPrefix ++ e) ++ newline)], 1))
  /\ (forall resp, Get w (withScheme url) = inl resp ->
        StatusCode resp < 200 \/ 300 <= StatusCode resp ->
        run T w argv
        = ([HttpGet (withScheme url); BodyClose;
            Stderr ((errHTTPPrefix ++ Status resp) ++ newline)], 1)).
Proof.
  intros He Hh Hr. split.
  - intros e HG.
    pose proof (fetchTitle_request_failed T w url e HG) as Hf.
    rewrite (run_fetch_error T w argv url [] (errFetchPrefix ++ e) He Hh Hr);
      now rewrite Hf.
  - intros resp HG Hs.
    pose proof (fetchTitle_bad_status T w url resp HG Hs) as Hf.
    rewrite (run_fetch_error T w argv url [] (errHTTPPrefix ++ Status resp) He Hh Hr);
      now rewrite Hf.
Qed.

Lemma request_or_status_failure_witness :
  run Sample.tables (Sample.world Sample.page [lit "xsel"])
      [lit "-c"; lit "other.example"]
  = ([HttpGet (lit "https://other.example");
      Stderr ((errFetchPrefix ++ lit "no such host") ++ newline)], 1)
  /\ run Sample.tables
         (answering 404 (lit "404 Not Found")
                    {| io.data := Sample.page; io.fail := None |})
         [lit "-m"; lit "example.com"]
     = ([HttpGet (lit "https://example.com"); BodyClose;
         Stderr ((errHTTPPrefix ++ lit "404 Not Found") ++ newline)], 1).
Proof.
  split.
  - apply (request_or_status_failure
             Sample.tables (Sample.world Sample.page [lit "xsel"])
             [lit "-c"; lit "other.example"] (lit "other.example"));
      vm_compute; reflexivity.
  - destruct (request_or_status_failure
                Sample.tables
                (answering 404 (lit "404 Not Found")
                           {| io.data := Sample.page; io.fail := None |})
                [lit "-m"; lit "example.com"] (lit "example.com")
                eq_refl eq_refl eq_refl) as [_ Hstatus].
    apply (Hstatus {| StatusCode := 404; Status := lit "404 Not Found";
                      Body := {| io.data := Sample.page; io.fail := None |} |}).
    + reflexivity.
    + right. cbn [StatusCode]. lia.
Defined.

(** X12.  A read error before 2 MiB of the body have been read is an
    error of the fetcher, also when the part that was read holds a
    title: the program prints it to standard error and exits with status
    1. *)
Theorem read_failure
        (T : html.Tables) (w : World) (argv : list gostring) (url : gostring)
        (resp : Response) (e : error) :
  err (parseArgs argv) = None -> help (parseArgs argv) = false ->
  resolveURL (positional (parseArgs argv)) (urlArg (parseArgs argv)) = (url, None) ->
  Get w (withScheme url) = inl resp ->
  200 <= StatusCode resp < 300 ->
  Z.of_nat (length (io.data (Body resp))) < 2 ^ 21 ->
  io.fail (Body resp) = Some e ->
  snd (fetchTitle T w url) = ([], Some (errReadPrefix ++ e))
  /\ run T w argv
     = ([HttpGet (withScheme url); BodyClose;
         Stderr ((errReadPrefix ++ e) ++ newline)], 1).
Proof.
  intros He Hh Hr HG Hs Hlen Hfail.
  assert (Hf : fetchTitle T w url
               = ([HttpGet (withScheme url); BodyClose],
                  ([], Some (errReadPrefix ++ e)))).
  { unfold fetchTitle. rewrite HG.
    replace ((StatusCode resp <? 200) || (300 <=? StatusCode resp)) with false by lia.
    rewrite ReadAll_LimitReader, Hfail.
    destruct (io.reaches (Z.shiftl 2 20) (io.data (Body resp))) eqn:E;
      [|reflexivity].
    apply reaches_length in E. change (Z.shiftl 2 20) with (2 ^ 21) in E. lia. }
  split; [now rewrite Hf|].
  rewrite (run_fetch_error T w argv url [] (errReadPrefix ++ e) He Hh Hr);
    now rewrite Hf.
Qed.

Lemma read_failure_witness :
  run Sample.tables
      (answering 200 (lit "200 OK")
                 {| io.data := Sample.page; io.fail := Some (lit "unexpected EOF") |})
      [lit "example.com"]
  = ([HttpGet (lit "https://example.com"); BodyClose;
      Stderr ((errReadPrefix ++ lit "unexpected EOF") ++ newline)], 1).
Proof.
  apply (read_failure
           Sample.tables
           (answering 200 (lit "200 OK")
                      {| io.data := Sample.page; io.fail := Some (lit "unexpected EOF") |})
           [lit "example.com"] (lit "example.com")
           {| StatusCode := 200; Status := lit "200 OK";
              Body := {| io.data := Sample.page;
                         io.fail := Some (lit "unexpected EOF") |} |}
           (lit "unexpected EOF")); try reflexivity.
  cbn [StatusCode]. lia.
Defined.


Lemma FindSubmatch_shape (p : list regexp.atom) (b : gostring) :
  regexp.FindSubmatch p b = []
  \/ exists m g, regexp.FindSubmatch p b = [m; g].
Proof.
  induction b as [|x b IH]; cbn [regexp.FindSubmatch].
  - destruct (regexp.matchHere p []) as [[m g]|]; [right; eauto | now left].
  - destruct (regexp.matchHere p (x :: b)) as [[m g]|]; [right; eauto | exact IH].
Qed.

(** X22.  The fetcher returns a title without error exactly when the
    request is answered with a status in 200..299, the body is read
    without error, and the first title element of what was read has an
    inner text that is not empty once decoded and normalized; the title
    returned is that text. *)
Theorem fetch_succeeds_iff (T : html.Tables) (w : World) (rawURL title : gostring) :
  snd (fetchTitle T w rawURL) = (title, None) <->
  exists body m t,
    served w rawURL body
    /\ Spec.firstTitle body m t
    /\ title = Spec.normalize (html.UnescapeString T t)
    /\ title <> [].
Proof.
  split.
  - unfold fetchTitle. destruct (Get w (withScheme rawURL)) as [resp | e] eqn:HG;
      [|discriminate].
    destruct ((StatusCode resp <? 200) || (300 <=? StatusCode resp)) eqn:Hs;
      [discriminate|].
    destruct (io.ReadAll _) as [body [e|]] eqn:Hr; [discriminate|].
    cbn [bind emit ret snd]. destruct (extractTitle T body) as [t1 e1] eqn:Hex.
    cbn [snd]. intros H. injection H as -> ->.
    destruct (FindSubmatch_shape titlePattern body) as [Hn | (m & t & Hf)].
    + rewrite (extractTitle_none T body Hn) in Hex. discriminate Hex.
    + rewrite (extractTitle_found T body m t Hf) in Hex.
      destruct (strings.eqb _ []) eqn:E; [discriminate Hex|].
      injection Hex as <-. apply strings_eqb_neq in E.
      exists body, m, t. repeat split; try assumption.
      * exists resp. repeat split; try assumption; lia.
      * now apply FindSubmatch_title.
  - intros (body & m & t & Hserved & Hfirst & -> & Hne).
    rewrite (fetchTitle_served T w rawURL body Hserved). cbn [snd].
    rewrite (extractTitle_found T body m t) by now apply FindSubmatch_title.
    apply strings_eqb_neq in Hne. now rewrite Hne.
Qed.

(** ** The shape of a title *)

Lemma runes_wellRune (s : gostring) : Forall wellRune (utf8.runes s).
Proof.
  unfold utf8.runes. apply Forall_forall. intros [r bs] Hin. split.
  - pose proof (runes_fuel_nonEmpty (length s) s) as H.
    rewrite Forall_forall in H. exact (H _ Hin).
  - intros b Hb Hlt. now apply (runes_fuel_ascii _ _ _ _ _ Hin).
Qed.

Lemma collapse_wellRune (rs : list (Z * gostring)) :
  Forall wellRune rs -> forall inRun, Forall wellRune (Spec.collapse inRun rs).
Proof.
  induction 1 as [|[r bs] rs Hr _ IH]; intros inRun; cbn [Spec.collapse];
    [constructor|].
  destruct (unicode.IsSpace r); [destruct inRun|]; try apply IH.
  - constructor; [|apply IH]. split; [discriminate|].
    intros b [<- | []] _. reflexivity.
  - constructor; [exact Hr | apply IH].
Qed.

Lemma collapse_spaced (rs : list (Z * gostring)) :
  forall inRun, spaced inRun (Spec.collapse inRun rs).
Proof.
  induction rs as [|[r bs] rs IH]; intros inRun; cbn [Spec.collapse]; [exact I|].
  destruct (unicode.IsSpace r) eqn:E.
  - destruct inRun; [apply IH|]. cbn [spaced].
    change (unicode.IsSpace 32) with true. cbv iota. repeat split. apply IH.
  - cbn [spaced]. rewrite E. apply IH.
Qed.

Lemma trimRight_wellRune (rs : list (Z * gostring)) :
  Forall wellRune rs -> Forall wellRune (strings.trimRight rs).
Proof.
  induction 1 as [|[r bs] rs Hr _ IH]; cbn [strings.trimRight]; [constructor|].
  destruct (strings.trimRight rs) as [|k kept].
  - destruct (unicode.IsSpace r); [constructor|].
    constructor; [exact Hr | constructor].
  - now constructor.
Qed.

Lemma trimRight_spaced (rs : list (Z * gostring)) :
  forall f, spaced f rs -> spaced f (strings.trimRight rs).
Proof.
  induction rs as [|[r bs] rs IH]; intros f H; cbn [strings.trimRight]; [exact I|].
  cbn [spaced] in H. destruct (unicode.IsSpace r) eqn:E.
  - destruct H as (Hf & Hbs & H). specialize (IH true H).
    destruct (strings.trimRight rs) as [|k kept]; [exact I|].
    cbn [spaced]. rewrite E. now repeat split.
  - specialize (IH false H).
    destruct (strings.trimRight rs) as [|k kept]; cbn [spaced]; rewrite E;
      [exact I | exact IH].
Qed.

(** What is left after trimming ends with a rune that is not a space. *)
Lemma trimRight_last (rs : list (Z * gostring)) :
  strings.trimRight rs <> [] ->
  exists front c, strings.trimRight rs = front ++ [c]
                  /\ unicode.IsSpace (fst c) = false.
Proof.
  induction rs as [|[r bs] rs IH]; cbn [strings.trimRight]; [congruence|].
  destruct (strings.trimRight rs) as [|k kept].
  - destruct (unicode.IsSpace r) eqn:E; [congruence|]. intros _.
    now exists [], (r, bs).
  - intros _. destruct IH as (front & c & Hf & Hc); [discriminate|].
    exists ((r, bs) :: front), c. rewrite Hf. now split.
Qed.

Lemma wellRune_no_space (r : Z) (bs : gostring) :
  wellRune (r, bs) -> unicode.IsSpace r = false -> ~ In x20 bs.
Proof.
  intros [_ Ha] Hns Hin. cbn [fst snd] in Ha.
  rewrite (Ha x20 Hin eq_refl) in Hns. discriminate Hns.
Qed.

Lemma singleSpaced_app (bs rest : gostring) :
  ~ In x20 bs -> singleSpaced rest -> singleSpaced (bs ++ rest).
Proof.
  induction bs as [|x bs IH]; intros Hno Hrest; [exact Hrest|].
  cbn [app singleSpaced]. split.
  - destruct (bs ++ rest); [exact I|]. intros [-> _]. apply Hno. now left.
  - apply IH; [|exact Hrest]. intros H. apply Hno. now right.
Qed.

Lemma singleSpaced_decompose (l : gostring) :
  singleSpaced l -> forall a b, l <> a ++ x20 :: x20 :: b.
Proof.
  intros H a; revert l H; induction a as [|x a IH]; intros l H b E; subst l.
  - cbn in H. destruct H as [H _]. now apply H.
  - cbn [app singleSpaced] in H. destruct H as [_ H]. now apply (IH _ H b).
Qed.

(** The bytes of well-spaced runes: no two spaces in a row, and no space
    first after a space. *)
Lemma spaced_bytes (rs : list (Z * gostring)) :
  Forall wellRune rs ->
  forall f, spaced f rs ->
    singleSpaced (strings.bytes_of rs)
    /\ (f = true -> forall a, strings.bytes_of rs <> x20 :: a).
Proof.
  induction 1 as [|[r bs] rs Hr _ IH]; intros f Hsp.
  - split; [exact I | discriminate].
  - cbn [spaced] in Hsp. unfold strings.bytes_of in *. cbn [map concat snd].
    destruct (unicode.IsSpace r) eqn:E.
    + destruct Hsp as (-> & -> & Hsp). destruct (IH true Hsp) as [Hs Hhd].
      split; [|discriminate]. cbn [app singleSpaced]. split; [|exact Hs].
      destruct (concat (map snd rs)) as [|y t] eqn:Ec; [exact I|].
      intros [_ ->]. now apply (Hhd eq_refl t).
    + destruct (IH false Hsp) as [Hs _].
      pose proof (wellRune_no_space r bs Hr E) as Hno. split.
      * now apply singleSpaced_app.
      * intros _ a Ha. destruct Hr as [Hne _]. cbn [snd] in Hne.
        destruct bs as [|x bs]; [contradiction|].
        cbn [app] in Ha. injection Ha as -> _. apply Hno. now left.
Qed.

(** What a normalized text looks like. *)
Lemma normalize_tidy (s : gostring) :
  (forall b, In b (Spec.normalize s) -> code b < 128 ->
             unicode.IsSpace (code b) = true -> b = x20)
  /\ (forall a, Spec.normalize s <> x20 :: a)
  /\ (forall a, Spec.normalize s <> a ++ [x20])
  /\ (forall a b, Spec.normalize s <> a ++ x20 :: x20 :: b).
Proof.
  unfold Spec.normalize. rewrite trimLeft_collapse.
  set (L := strings.trimRight (Spec.collapse true (utf8.runes s))).
  assert (Hw : Forall wellRune L)
    by (apply trimRight_wellRune, collapse_wellRune, runes_wellRune).
  assert (Hs : spaced true L) by (apply trimRight_spaced, collapse_spaced).
  destruct (spaced_bytes L Hw true Hs) as [Hsingle Hhead].
  split; [|split; [|split]].
  - intros b Hb Hlt Hsp. apply bytes_of_In in Hb as (r & bs & Hin & Hbs).
    rewrite Forall_forall in Hw. pose proof (Hw _ Hin) as [_ Ha].
    cbn [fst snd] in Ha. pose proof (Ha b Hbs Hlt) as Hr. subst r.
    clear Hhead Hsingle. revert Hs Hin. generalize true. 
    induction L as [|[r' bs'] L IHL]; intros f Hs Hin; [contradiction|].
    cbn [spaced] in Hs. destruct Hin as [Heq | Hin].
    + injection Heq as -> ->. rewrite Hsp in Hs. destruct Hs as (_ & -> & _).
      now destruct Hbs as [<- | []].
    + destruct (unicode.IsSpace r').
      * destruct Hs as (_ & _ & Hs). apply (IHL (fun x Hx => Hw x (or_intror Hx)) _ Hs Hin).
      * apply (IHL (fun x Hx => Hw x (or_intror Hx)) _ Hs Hin).
  - now apply Hhead.
  - intros a Ha. destruct (trimRight_last (Spec.collapse true (utf8.runes s)))
      as (front & [r bs] & Hf & Hc).
    + fold L. intros HL. rewrite HL in Ha. now destruct a.
    + fold L in Hf. rewrite Hf in Ha, Hw. apply Forall_app in Hw as [_ Hw].
      inversion Hw as [|? ? Hr _]; subst.
      pose proof (wellRune_no_space r bs Hr Hc) as Hno. destruct Hr as [Hne _].
      cbn [snd] in Hne.
      destruct (exists_last Hne) as (bs' & b & ->).
      unfold strings.bytes_of in Ha. rewrite map_app, concat_app in Ha.
      cbn [map concat snd] in Ha. rewrite app_nil_r, app_assoc in Ha.
      apply app_inj_tail in Ha as [_ ->]. apply Hno. apply in_or_app. right. now left.
  - now apply singleSpaced_decompose.
Qed.

Lemma extractTitle_success (T : html.Tables) (body title : gostring) :
  extractTitle T body = (title, None) ->
  title <> [] /\ exists t, title = Spec.normalize t.
Proof.
  unfold extractTitle. destruct (length _ <? 2)%nat; [discriminate|].
  rewrite Join_Fields_normalize.
  destruct (strings.eqb _ []) eqn:E; [discriminate|].
  intros H. injection H as <-. apply strings_eqb_neq in E.
  split; [exact E | eauto].
Qed.

Lemma fetchTitle_success (T : html.Tables) (w : World) (rawURL title : gostring) :
  snd (fetchTitle T w rawURL) = (title, None) ->
  title <> [] /\ exists t, title = Spec.normalize t.
Proof.
  unfold fetchTitle. destruct (Get w (withScheme rawURL)) as [resp | e];
    [|discriminate].
  destruct ((StatusCode resp <? 200) || (300 <=? StatusCode resp));
    [discriminate|].
  destruct (io.ReadAll _) as [body [e|]]; [discriminate|].
  cbn [bind emit ret snd]. destruct (extractTitle T body) as [t e] eqn:E.
  cbn [snd]. intros H. injection H as -> ->. now apply (extractTitle_success T body).
Qed.

(** X14.  A title that the fetcher returns without error is never empty
    and is tidy: the only ASCII white space in it is the space character
    (no tab, line feed, vertical tab, form feed or carriage return), it
    neither starts nor ends with a space, and it has no two spaces in a
    row. *)
Theorem title_tidy (T : html.Tables) (w : World) (rawURL title : gostring) :
  snd (fetchTitle T w rawURL) = (title, None) ->
  title <> []
  /\ (forall b, In b title -> code b < 128 -> unicode.IsSpace (code b) = true ->
                b = x20)
  /\ (forall a, title <> x20 :: a)
  /\ (forall a, title <> a ++ [x20])
  /\ (forall a b, title <> a ++ x20 :: x20 :: b).
Proof.
  intros H. apply fetchTitle_success in H as [Hne [t ->]].
  split; [exact Hne | apply normalize_tidy].
Qed.

Lemma title_tidy_witness :
  snd (fetchTitle Sample.tables (Sample.world Sample.tomPage []) (lit "example.com"))
  = (lit "Tom & Jerry", None)
  /\ forall a b, lit "Tom & Jerry" <> a ++ x20 :: x20 :: b.
Proof.
  assert (H : snd (fetchTitle Sample.tables (Sample.world Sample.tomPage [])
                              (lit "example.com"))
              = (lit "Tom & Jerry", None)) by (vm_compute; reflexivity).
  split; [exact H|].
  apply (title_tidy Sample.tables (Sample.world Sample.tomPage [])
                    (lit "example.com") (lit "Tom & Jerry") H).
Defined.

(** A title has no line feed. *)
Lemma title_no_control (T : html.Tables) (w : World) (rawURL title : gostring) :
  snd (fetchTitle T w rawURL) = (title, None) -> ~ In x0a title.
Proof.
  intros H Hin. apply fetchTitle_success in H as [_ [t ->]].
  destruct (normalize_tidy t) as (Ha & _).
  now discriminate (Ha x0a Hin eq_refl eq_refl).
Qed.

(** The line on standard output of a run that has fetched a title. *)
Lemma run_stdout (T : html.Tables) (w : World) (argv : list gostring)
      (url title : gostring) :
  err (parseArgs argv) = None -> help (parseArgs argv) = false ->
  resolveURL (positional (parseArgs argv)) (urlArg (parseArgs argv)) = (url, None) ->
  snd (fetchTitle T w url) = (title, None) ->
  stdout_of (fst (run T w argv))
  = formatted (markdown (parseArgs argv)) title url ++ newline.
Proof.
  intros He Hh Hr Hf.
  pose proof (run_fetched T w argv url title He Hh Hr Hf) as Hrun.
  cbv zeta in Hrun. unfold copyToClipboard in Hrun.
  set (output := formatted (markdown (parseArgs argv)) title url) in *.
  destruct (fetchTitle_silent T w url) as [Hout _].
  destruct (clipboardEvents_silent _ (tryCandidates_events w output (clipboardCommands w)))
    as (Hc1 & _ & _).
  rewrite Hrun. destruct (copyOut (parseArgs argv)); cbn [fst].
  - rewrite !stdout_of_app, Hout, Hc1.
    destruct (snd (tryCandidates w output (clipboardCommands w))); simpl;
      now rewrite ?app_nil_r.
  - rewrite !stdout_of_app, Hout. simpl. now rewrite ?app_nil_r.
Qed.

(** X15.  A run that has fetched a title writes exactly one line to
    standard output: the title has no line feed in it, so that without
    the markdown flag, or with it when the URL given has no line feed,
    the only line feed written is the one that ends the line. *)
Theorem stdout_one_line
        (T : html.Tables) (w : World) (argv : list gostring) (url title : gostring) :
  err (parseArgs argv) = None -> help (parseArgs argv) = false ->
  resolveURL (positional (parseArgs argv)) (urlArg (parseArgs argv)) = (url, None) ->
  snd (fetchTitle T w url) = (title, None) ->
  (markdown (parseArgs argv) = true -> ~ In x0a url) ->
  exists line,
    stdout_of (fst (run T w argv)) = line ++ [x0a]
    /\ ~ In x0a line
    /\ line = (if markdown (parseArgs argv)
               then lit "[" ++ title ++ lit "](" ++ url ++ lit ")"
               else title).
Proof.
  intros He Hh Hr Hf Hurl.
  exists (formatted (markdown (parseArgs argv)) title url).
  split; [now apply run_stdout|]. split; [|reflexivity].
  pose proof (title_no_control T w url title Hf) as Hnl.
  unfold formatted. destruct (markdown (parseArgs argv)).
  - eval_lit. intros Hin.
    repeat (apply in_app_or in Hin as [Hin | Hin]);
      try (now apply Hnl); try (now apply Hurl);
      cbn [In] in Hin; intuition discriminate.
  - exact Hnl.
Qed.

Lemma stdout_one_line_witness :
  exists line,
    stdout_of (fst (run Sample.tables (Sample.world Sample.tomPage [])
                        [lit "-m"; lit "example.com"])) = line ++ [x0a]
    /\ ~ In x0a line
    /\ line = lit "[" ++ lit "Tom & Jerry" ++ lit "](" ++ lit "example.com" ++ lit ")".
Proof.
  apply (stdout_one_line Sample.tables (Sample.world Sample.tomPage [])
                         [lit "-m"; lit "example.com"] (lit "example.com")
                         (lit "Tom & Jerry")); try (vm_compute; reflexivity).
  intros _. vm_compute. intuition discriminate.
Defined.

(** ** The clipboard writer and the exit status *)

Lemma run_parse_error (T : html.Tables) (w : World) (argv : list gostring) :
  err (parseArgs argv) <> None -> run T w argv = ([Stderr usageText], 2).
Proof.
  intros He. unfold run. destruct (err (parseArgs argv)); [reflexivity|].
  now contradiction He.
Qed.

(** The ways a run can go. *)
Lemma run_cases (T : html.Tables) (w : World) (argv : list gostring) :
  let p := parseArgs argv in
  (err p <> None /\ run T w argv = ([Stderr usageText], 2))
  \/ (err p = None /\ help p = true /\ run T w argv = ([Stdout usageText], 0))
  \/ (err p = None /\ help p = false
      /\ exists e, snd (resolveURL (positional p) (urlArg p)) = Some e
                   /\ run T w argv = ([Stderr (e ++ newline); Stderr usageText], 2))
  \/ (err p = None /\ help p = false
      /\ exists url, resolveURL (positional p) (urlArg p) = (url, None)
         /\ ((exists t e, snd (fetchTitle T w url) = (t, Some e)
                          /\ run T w argv
                             = (fst (fetchTitle T w url) ++ [Stderr (e ++ newline)], 1))
             \/ (exists title, snd (fetchTitle T w url) = (title, None)
                   /\ let output := formatted (markdown p) title url in
                      let clip := copyToClipboard w output in
                      run T w argv =
                      if copyOut p then
                        (fst (fetchTitle T w url) ++ [Stdout (output ++ newline)]
                           ++ fst clip
                           ++ match snd clip with
                              | Some e =>
                                [Stderr (lit "clipboard copy failed: " ++ e ++ newline)]
                              | None => []
                              end,
                         match snd clip with Some _ => 1 | None => 0 end)
                      else (fst (fetchTitle T w url)
                              ++ [Stdout (output ++ newline)], 0)))).
Proof.
  cbv zeta. destruct (err (parseArgs argv)) as [e|] eqn:He.
  - left. split; [discriminate|].
    apply (run_parse_error T w argv). congruence.
  - right. destruct (help (parseArgs argv)) eqn:Hh.
    + left. repeat split. unfold run. now rewrite He, Hh.
    + right.
      destruct (resolveURL (positional (parseArgs argv)) (urlArg (parseArgs argv)))
        as [url [e|]] eqn:Hr.
      * left. repeat split. exists e. split; [reflexivity|].
        apply run_resolve_error; try assumption. now rewrite Hr.
      * right. repeat split. exists url. split; [reflexivity|].
        destruct (snd (fetchTitle T w url)) as [t [e|]] eqn:Hf.
        -- left. exists t, e. split; [reflexivity|].
           now apply (run_fetch_error T w argv url t e).
        -- right. exists t. split; [reflexivity|].
           now apply (run_fetched T w argv url t).
Qed.


Lemma line_not_empty (e : gostring) : e ++ newline <> [].
Proof. intros H. apply app_eq_nil in H as [_ H]. discriminate H. Qed.


Lemma writes_of_app (t1 t2 : list event) :
  writes_of (t1 ++ t2) = writes_of t1 ++ writes_of t2.
Proof.
  induction t1 as [|e t1 IH]; [reflexivity|].
  destruct e; simpl; now rewrite IH.
Qed.

Lemma fetchTitle_quiet (T : html.Tables) (w : World) (rawURL : gostring) :
  stderr_of (fst (fetchTitle T w rawURL)) = []
  /\ writes_of (fst (fetchTitle T w rawURL)) = [].
Proof. destruct (fetchTitle_trace T w rawURL) as [-> | ->]; now split. Qed.

(** A helper is only given the text to copy. *)
Lemma pipeToCommand_writes (w : World) (input name : gostring) (args : list gostring) :
  Forall (eq input) (writes_of (fst (pipeToCommand w input name args))).
Proof.
  unfold pipeToCommand.
  destruct (LookPath w name); [constructor|].
  destruct (StdinPipe _); [constructor|].
  destruct (Start _); [constructor|].
  destruct (WriteString _ _); [repeat constructor|].
  destruct (Close _); repeat constructor.
Qed.

Lemma tryCandidates_writes (w : World) (text : gostring)
      (candidates : list clipboardCmd) :
  Forall (eq text) (writes_of (fst (tryCandidates w text candidates))).
Proof.
  induction candidates as [|cmd rest IH]; [constructor|].
  cbn [tryCandidates]. unfold bind.
  pose proof (pipeToCommand_writes w text (name cmd) (args cmd)) as Hp.
  destruct (pipeToCommand w text (name cmd) (args cmd)) as [t1 [e|]].
  - destruct (tryCandidates w text rest) as [t2 r]. cbn [fst] in *.
    rewrite writes_of_app. apply Forall_app. now split.
  - cbn [ret fst] in *. now rewrite app_nil_r.
Qed.

(** X16.  The clipboard writer stops at the first candidate that works:
    when the candidates before it fail and it succeeds, the copy
    succeeds, and the events of the writer are those of the candidates
    up to it; the candidates after it are not even looked for. *)
Theorem first_helper_wins (w : World) (text : gostring)
        (before after : list clipboardCmd) (c : clipboardCmd) :
  clipboardCommands w = before ++ c :: after ->
  Forall (fun b => snd (pipeToCommand w text (name b) (args b)) <> None) before ->
  snd (pipeToCommand w text (name c) (args c)) = None ->
  copyToClipboard w text = (flat_map (attempt w text) (before ++ [c]), None).
Proof.
  intros Hcs Hbefore Hc. unfold copyToClipboard. rewrite Hcs. clear Hcs.
  induction Hbefore as [|b before Hb _ IH]; cbn [app tryCandidates flat_map].
  - unfold bind, attempt.
    destruct (pipeToCommand w text (name c) (args c)) as [t [e|]];
      [discriminate Hc|]. cbn [ret fst]. now rewrite !app_nil_r.
  - unfold bind, attempt at 1.
    destruct (pipeToCommand w text (name b) (args b)) as [t [e|]];
      [|now contradiction Hb].
    rewrite IH. reflexivity.
Qed.

Lemma first_helper_wins_witness :
  copyToClipboard (Sample.world Sample.page [lit "xclip"; lit "xsel"]) (lit "Example")
  = ([ExecLookPath (lit "wl-copy"); ExecLookPath (lit "xclip");
      ExecStart (lit "xclip") [lit "-selection"; lit "clipboard"];
      ExecWrite (lit "xclip") (lit "Example");
      ExecClose (lit "xclip"); ExecWait (lit "xclip")], None).
Proof.
  rewrite (first_helper_wins
             (Sample.world Sample.page [lit "xclip"; lit "xsel"]) (lit "Example")
             [ {| name := lit "wl-copy"; args := [] |} ]
             [ {| name := lit "xsel"; args := [lit "--clipboard"; lit "--input"] |} ]
             {| name := lit "xclip"; args := [lit "-selection"; lit "clipboard"] |}).
  - vm_compute. reflexivity.
  - vm_compute. reflexivity.
  - repeat constructor. vm_compute. discriminate.
  - vm_compute. reflexivity.
Defined.

(** X17.  A helper that has been started is always written to, closed
    and waited for, in this order, whatever fails on the way, and the
    error returned is the first of these three steps' errors.  A helper
    that is not on the search path, or whose input pipe cannot be made,
    is not started; one that fails to start is neither written to nor
    waited for. *)
Theorem helper_always_finished
        (w : World) (input name : gostring) (args : list gostring) :
  let cmd := Command w name args in
  (LookPath w name = None -> StdinPipe cmd = None -> Start cmd = None ->
   pipeToCommand w input name args
   = ([ExecLookPath name; ExecStart name args; ExecWrite name input;
       ExecClose name; ExecWait name],
      match WriteString cmd input with
      | Some e => Some e
      | None => match Close cmd with
                | Some e => Some e
                | None => Wait cmd input
                end
      end))
  /\ (LookPath w name <> None \/ StdinPipe cmd <> None ->
      fst (pipeToCommand w input name args) = [ExecLookPath name]
      /\ snd (pipeToCommand w input name args) <> None)
  /\ (LookPath w name = None -> StdinPipe cmd = None -> Start cmd <> None ->
      pipeToCommand w input name args
      = ([ExecLookPath name; ExecStart name args], Start cmd)).
Proof.
  cbv zeta. unfold pipeToCommand. split; [|split].
  - intros -> -> ->.
    destruct (WriteString _ input); [reflexivity|].
    destruct (Close _); reflexivity.
  - intros H. destruct (LookPath w name); [split; [reflexivity | discriminate]|].
    destruct (StdinPipe _); [split; [reflexivity | discriminate]|].
    destruct H as [H | H]; now contradiction H.
  - intros -> -> H. destruct (Start _); [reflexivity | now contradiction H].
Qed.

Lemma helper_always_finished_witness :
  pipeToCommand brokenHelpers (lit "Example") (lit "pbcopy") []
  = ([ExecLookPath (lit "pbcopy"); ExecStart (lit "pbcopy") [];
      ExecWrite (lit "pbcopy") (lit "Example");
      ExecClose (lit "pbcopy"); ExecWait (lit "pbcopy")],
     Some (lit "broken pipe"))
  /\ fst (pipeToCommand (Sample.world Sample.page []) (lit "Example") (lit "xsel") [])
     = [ExecLookPath (lit "xsel")].
Proof.
  split.
  - apply (helper_always_finished brokenHelpers (lit "Example") (lit "pbcopy") []);
      reflexivity.
  - apply (helper_always_finished (Sample.world Sample.page []) (lit "Example")
                                  (lit "xsel") []).
    left. vm_compute. discriminate.
Defined.

(** X18.  Whatever a run writes to a clipboard helper is the line it has
    written to standard output, without the line feed at its end. *)
Theorem clipboard_gets_printed_line
        (T : html.Tables) (w : World) (argv : list gostring) (input : gostring) :
  In input (writes_of (fst (run T w argv))) ->
  stdout_of (fst (run T w argv)) = input ++ newline.
Proof.
  destruct (run_cases T w argv)
    as [[_ ->] | [(_ & _ & ->) | [(_ & _ & e & _ & ->)
        | (He & Hh & url & Hr & [(t & e & Hf & ->) | (title & Hf & Hrun)])]]];
    try (intros []).
  - cbn [fst]. rewrite writes_of_app.
    rewrite (proj2 (fetchTitle_quiet T w url)). intros [].
  - cbv zeta in Hrun. rewrite (run_stdout T w argv url title He Hh Hr Hf).
    rewrite Hrun. unfold copyToClipboard.
    pose proof (tryCandidates_writes
                  w (formatted (markdown (parseArgs argv)) title url)
                  (clipboardCommands w)) as Hw.
    destruct (copyOut (parseArgs argv)); cbn [fst];
      rewrite !writes_of_app, (proj2 (fetchTitle_quiet T w url)).
    + cbn [writes_of app]. intros Hin. apply in_app_or in Hin as [Hin | Hin].
      * rewrite Forall_forall in Hw. now rewrite <- (Hw _ Hin).
      * destruct (snd (tryCandidates _ _ _)); destruct Hin.
    + intros [].
Qed.

Lemma clipboard_gets_printed_line_witness :
  writes_of (fst (run Sample.tables (Sample.world Sample.page [lit "xsel"])
                      [lit "-mc"; lit "example.com"]))
  = [lit "[Example](example.com)"]
  /\ stdout_of (fst (run Sample.tables (Sample.world Sample.page [lit "xsel"])
                         [lit "-mc"; lit "example.com"]))
     = lit "[Example](example.com)" ++ newline.
Proof.
  assert (H : writes_of (fst (run Sample.tables (Sample.world Sample.page [lit "xsel"])
                                  [lit "-mc"; lit "example.com"]))
              = [lit "[Example](example.com)"]) by (vm_compute; reflexivity).
  split; [exact H|].
  apply (clipboard_gets_printed_line
           Sample.tables (Sample.world Sample.page [lit "xsel"])
           [lit "-mc"; lit "example.com"]).
  rewrite H. now left.
Defined.

(** X19.  The program looks for a clipboard helper only with the copy
    flag set, and only after it has written a title to standard output:
    without the flag, or when nothing was printed, no helper is looked
    for, started or written to. *)
Theorem clipboard_only_on_request
        (T : html.Tables) (w : World) (argv : list gostring) :
  copyOut (parseArgs argv) = false \/ stdout_of (fst (run T w argv)) = [] ->
  Forall (fun e => clipboardEvent e = false) (fst (run T w argv)).
Proof.
  destruct (run_cases T w argv)
    as [[_ ->] | [(_ & _ & ->) | [(_ & _ & e & _ & ->)
        | (He & Hh & url & Hr & [(t & e & Hf & ->) | (title & Hf & Hrun)])]]];
    intros Hno; try (repeat constructor).
  - cbn [fst]. apply Forall_app. split; [|repeat constructor].
    apply fetchTitle_silent.
  - assert (Hc : copyOut (parseArgs argv) = false).
    { destruct Hno as [Hno | Hno]; [exact Hno|].
      rewrite (run_stdout T w argv url title He Hh Hr Hf) in Hno.
      now apply line_not_empty in Hno. }
    cbv zeta in Hrun. rewrite Hc in Hrun. rewrite Hrun. cbn [fst].
    apply Forall_app. split; [|repeat constructor]. apply fetchTitle_silent.
Qed.

Lemma clipboard_only_on_request_witness :
  Forall (fun e => clipboardEvent e = false)
         (fst (run Sample.tables (Sample.world Sample.page [lit "xsel"])
                   [lit "-m"; lit "example.com"]))
  /\ Forall (fun e => clipboardEvent e = false)
            (fst (run Sample.tables (Sample.world Sample.helloPage [lit "xsel"])
                      [lit "-c"; lit "other.example"])).
Proof.
  split.
  - apply clipboard_only_on_request. left. vm_compute. reflexivity.
  - apply clipboard_only_on_request. right. vm_compute. reflexivity.
Defined.

(** X20.  The program exits with status 2 exactly when the arguments do
    not parse or, help not being asked for, no URL can be resolved from
    them.  It has then sent no request, written nothing to standard
    output and looked for no clipboard helper, and the last thing on
    standard error is the usage text. *)
Theorem exit_status_2 (T : html.Tables) (w : World) (argv : list gostring) :
  let p := parseArgs argv in
  (snd (run T w argv) = 2 <->
   err p <> None
   \/ (help p = false /\ snd (resolveURL (positional p) (urlArg p)) <> None))
  /\ (snd (run T w argv) = 2 ->
      gets_of (fst (run T w argv)) = []
      /\ stdout_of (fst (run T w argv)) = []
      /\ Forall (fun e => clipboardEvent e = false) (fst (run T w argv))
      /\ exists message, stderr_of (fst (run T w argv)) = message ++ usageText).
Proof.
  cbv zeta.
  destruct (run_cases T w argv)
    as [[He ->] | [(He & Hh & ->) | [(He & Hh & e & Hr & ->)
        | (He & Hh & url & Hr & [(t & e & Hf & ->) | (title & Hf & Hrun)])]]];
    cbn [fst snd].
  - split; [split; [now left | reflexivity]|]. intros _.
    repeat split; try (repeat constructor).
    exists []. cbn [stderr_of app]. now rewrite ?app_nil_r.
  - split; [|discriminate]. split; [discriminate|].
    intros [H | [H _]]; congruence.
  - split; [split; [intros _; right; split; [exact Hh | congruence] | reflexivity]|].
    intros _. repeat split; try (repeat constructor).
    exists (e ++ newline). cbn [stderr_of app]. now rewrite ?app_nil_r.
  - split; [|discriminate]. split; [discriminate|].
    rewrite Hr. intros [H | [_ H]]; [congruence | now contradiction H].
  - cbv zeta in Hrun. rewrite Hrun.
    assert (Hno : ~ (err (parseArgs argv) <> None
                     \/ (help (parseArgs argv) = false
                         /\ snd (resolveURL (positional (parseArgs argv))
                                            (urlArg (parseArgs argv))) <> None))).
    { rewrite Hr. intros [H | [_ H]]; [congruence | now contradiction H]. }
    destruct (copyOut (parseArgs argv)); cbn [snd];
      [destruct (snd (copyToClipboard w _))|];
      (split; [split; [discriminate | intros H; now contradiction Hno]
              | discriminate]).
Qed.


Lemma exit_status_2_witness :
  snd (run Sample.tables (Sample.world Sample.page []) [lit "a"; lit "b"]) = 2
  /\ gets_of (fst (run Sample.tables (Sample.world Sample.page []) [lit "a"; lit "b"]))
     = []
  /\ exists message,
       stderr_of (fst (run Sample.tables (Sample.world Sample.page [])
                           [lit "a"; lit "b"])) = message ++ usageText.
Proof.
  pose proof (exit_status_2 Sample.tables (Sample.world Sample.page [])
                            [lit "a"; lit "b"]) as H.
  cbv zeta in H. destruct H as [Hiff Hthen].
  assert (H2 : snd (run Sample.tables (Sample.world Sample.page [])
                        [lit "a"; lit "b"]) = 2).
  { apply Hiff. right. split; vm_compute; [reflexivity | discriminate]. }
  destruct (Hthen H2) as (Hg & _ & _ & Hm). now repeat split.
Defined.
